(** * Telegram reply dispatch: draft streaming, delivery and turn cleanup

    A shallow embedding of [src/telegram/bot-message-dispatch.ts]
    ([dispatchTelegramMessage] and its closures [updateDraftFromPartial],
    [flushDraft], [deliver]) together with models of the collaborators the
    file imports: the block chunker, the draft stream, the buffered reply
    dispatcher, the typing callbacks and the history helper. *)

From Stdlib Require Import ZArith List Bool Lia Ascii.
From stdpp Require Import gmap strings pretty.

Open Scope Z_scope.

(** ** JavaScript string operations used by the dispatcher *)

Module JsString.

(** [text.slice(n)] for a non-negative [n]. *)
Fixpoint slice_from (n : nat) (s : string) : string :=
  match n, s with
  | O, _ => s
  | S n', String _ s' => slice_from n' s'
  | S _, EmptyString => EmptyString
  end.

(** [text.slice(0, n)] for a non-negative [n]. *)
Fixpoint slice_to (n : nat) (s : string) : string :=
  match n, s with
  | O, _ => EmptyString
  | S n', String c s' => String c (slice_to n' s')
  | S _, EmptyString => EmptyString
  end.

(** [text.startsWith(p)]. *)
Definition startsWith (text p : string) : bool := String.prefix p text.

(** JavaScript truthiness of a string: [!s] is [negb (truthy s)]. *)
Definition truthy (s : string) : bool := negb (String.eqb s "").

(** [a + b + ...] over a list of fragments. *)
Definition concat (l : list string) : string := foldr String.append "" l.
Global Arguments concat : simpl never.

End JsString.

Import JsString.

(** ** The Chunk Splitter ([EmbeddedBlockChunker]) *)

Module Chunker.

(** Modelled from the spec: the class [EmbeddedBlockChunker] of
    [../agents/pi-embedded-block-chunker.js] is imported by the dispatcher
    but is not part of the sources at hand.  The boundary policy is the
    configuration object the constructor receives: a function that looks at
    the buffered text only and proposes the end of the next safe chunk, and
    the maximum buffer size beyond which text is emitted without a safe
    boundary. *)
Record BlockChunking := {
  safeBoundary : string -> option nat;
  maxChars : nat
}.

(** Modelled from the spec: the state of the Chunk Splitter is its
    remainder buffer. *)
Record t := { buffer : string }.

(** Modelled from the spec: a Chunk Splitter with nothing buffered. *)
Definition empty : t := {| buffer := "" |}.

(** Modelled from the spec: [append(delta)] buffers a delta. *)
Definition append (delta : string) (c : t) : t :=
  {| buffer := buffer c +:+ delta |}.

(** Modelled from the spec: [reset()] discards all buffered state without
    emitting. *)
Definition reset (c : t) : t := empty.

(** Modelled from the spec: [hasBuffered()] reports whether unflushed text
    remains. *)
Definition hasBuffered (c : t) : bool := truthy (buffer c).

(** Modelled from the spec: where the next chunk of a non-forced drain ends.
    A boundary proposed by the policy is used when it lies inside the
    buffer; otherwise an over-large buffer is cut at the configured
    maximum. *)
Definition pickBreakIndex (cfg : BlockChunking) (buf : string) : option nat :=
  let oversize :=
    if (maxChars cfg <? String.length buf)%nat
    then Some (Nat.max 1 (maxChars cfg)) else None in
  match safeBoundary cfg buf with
  | Some i =>
      if ((0 <? i) && (i <=? String.length buf))%nat then Some i else oversize
  | None => oversize
  end.

(** Modelled from the spec: the loop of a non-forced drain.  It emits safe
    chunks from the front of the buffer until no boundary is left; [fuel]
    bounds the number of iterations and the length of the buffer is always
    enough (see [drainLoop_settled]). *)
Fixpoint drainLoop (cfg : BlockChunking) (fuel : nat) (buf : string)
  : list string * string :=
  match fuel with
  | O => ([], buf)
  | S fuel' =>
      match pickBreakIndex cfg buf with
      | Some i =>
          let (chunks, rest) := drainLoop cfg fuel' (slice_from i buf) in
          (slice_to i buf :: chunks, rest)
      | None => ([], buf)
      end
  end.

(** Modelled from the spec: [drain(force)] returns zero or more chunks and
    retains the remainder; a forced drain emits all remaining buffered text
    as a final chunk and clears the buffer. *)
Definition drain (cfg : BlockChunking) (force : bool) (c : t)
  : list string * t :=
  if force then
    ((if hasBuffered c then [buffer c] else []), empty)
  else
    let (chunks, rest) := drainLoop cfg (String.length (buffer c)) (buffer c) in
    (chunks, {| buffer := rest |}).

(** Feeding a sequence of deltas: each one is appended and followed by a
    non-forced drain, as the dispatcher does; the chunks are collected in
    emission order. *)
Fixpoint feed (cfg : BlockChunking) (deltas : list string) (c : t)
  : list string * t :=
  match deltas with
  | [] => ([], c)
  | d :: ds =>
      let (chunks, c1) := drain cfg false (append d c) in
      let (more, c2) := feed cfg ds c1 in
      (chunks ++ more, c2)
  end.

End Chunker.


(** ** Values exchanged with the collaborators *)

(** Outcome of a call that may throw: [Thrown err] carries [String(err)]. *)
Inductive Result (A : Type) : Type :=
| Ok (value : A)
| Thrown (err : string).
Arguments Ok {A} value.
Arguments Thrown {A} err.

(** A reply payload; the dispatcher only reads [payload.text]. *)
Record ReplyPayload := { payload_text : option string }.

#[global] Instance ReplyPayload_eq_dec : EqDecision ReplyPayload.
Proof. solve_decision. Defined.

(** The [info] argument of [deliver] and [onError]. *)
Record ReplyInfo := { kind : string }.

(** One buffered entry of the group history map. *)
Record HistoryEntry := { entry_sender : string; entry_body : string }.

(** Calls made on the collaborators, in the order they happen. *)
Inductive Event :=
| ChunkerAppend (delta : string)
| ChunkerDrain (force : bool)
| ChunkerReset
| DraftUpdate (text : string)
| DraftFlush
| DraftStop
| SendMessageDraft (text : string)
| LogVerbose (msg : string)
| RuntimeError (msg : string)
| SendTyping
| DeliverReplies (chatId : string) (replies : list ReplyPayload)
| RemoveAckReactionAfterReply (removeAfterReply : bool) (ackReactionValue : option string)
| ClearHistoryEntriesIfEnabled (historyKey : string) (limit : Z).

(** What the world outside the dispatcher answers.  An answer may depend on
    everything that happened before the call.  [resolveBotTopicsEnabled] is
    the awaited result for [primaryCtx]; [throttleOpen] tells whether the
    Draft Controller may edit at once or has to wait;
    [resolveTelegramDraftStreamingChunking] is the chunking configuration
    resolved for [cfg] and [route.accountId]. *)
Record World := {
  resolveBotTopicsEnabled : Result bool;
  api_sendMessageDraft : list Event -> string -> Result unit;
  throttleOpen : list Event -> bool;
  sendTyping : list Event -> Result unit;
  deliverReplies : list Event -> list ReplyPayload -> Result unit;
  date_now : Z;
  danger : string -> string;
  resolveTelegramDraftStreamingChunking : Chunker.BlockChunking
}.

(** ** State of one turn *)

(** Modelled from the spec: the Draft Controller returned by
    [createTelegramDraftStream] ([./draft-stream.js], not part of the sources
    at hand) tracks the text waiting to be rendered, the last rendered text
    and whether it was stopped. *)
Record DraftState := {
  pendingText : option string;
  lastSentText : option string;
  stopped : bool
}.

Record State := {
  lastPartialText : string;
  draftText : string;
  chunkerState : Chunker.t;
  draftState : DraftState;
  groupHistories : gmap string (list HistoryEntry);
  trace : list Event
}.

Definition initialState (histories : gmap string (list HistoryEntry)) : State :=
  {| lastPartialText := "";
     draftText := "";
     chunkerState := Chunker.empty;
     draftState := {| pendingText := None; lastSentText := None; stopped := false |};
     groupHistories := histories;
     trace := [] |}.

Definition set_lastPartialText (v : string) (s : State) : State :=
  {| lastPartialText := v; draftText := draftText s; chunkerState := chunkerState s;
     draftState := draftState s; groupHistories := groupHistories s; trace := trace s |}.

Definition set_draftText (v : string) (s : State) : State :=
  {| lastPartialText := lastPartialText s; draftText := v; chunkerState := chunkerState s;
     draftState := draftState s; groupHistories := groupHistories s; trace := trace s |}.

Definition set_chunkerState (v : Chunker.t) (s : State) : State :=
  {| lastPartialText := lastPartialText s; draftText := draftText s; chunkerState := v;
     draftState := draftState s; groupHistories := groupHistories s; trace := trace s |}.

Definition set_draftState (v : DraftState) (s : State) : State :=
  {| lastPartialText := lastPartialText s; draftText := draftText s;
     chunkerState := chunkerState s; draftState := v;
     groupHistories := groupHistories s; trace := trace s |}.

Definition set_groupHistories (v : gmap string (list HistoryEntry)) (s : State) : State :=
  {| lastPartialText := lastPartialText s; draftText := draftText s;
     chunkerState := chunkerState s; draftState := draftState s;
     groupHistories := v; trace := trace s |}.

Definition set_trace (v : list Event) (s : State) : State :=
  {| lastPartialText := lastPartialText s; draftText := draftText s;
     chunkerState := chunkerState s; draftState := draftState s;
     groupHistories := groupHistories s; trace := v |}.

(** ** The monad of the turn: state and exceptions *)

Definition M (A : Type) : Type := State -> Result A * State.

Definition ret {A} (a : A) : M A := fun s => (Ok a, s).

Definition bind {A B} (m : M A) (k : A -> M B) : M B :=
  fun s =>
    match m s with
    | (Ok a, s') => k a s'
    | (Thrown err, s') => (Thrown err, s')
    end.

Declare Scope turn_scope.
Delimit Scope turn_scope with turn.
Notation "x <- m ;; k" := (bind m (fun x => k))
  (at level 100, m at next level, right associativity) : turn_scope.
Notation "m ;; k" := (bind m (fun _ => k))
  (at level 100, right associativity) : turn_scope.
Open Scope turn_scope.

Definition gets {A} (f : State -> A) : M A := fun s => (Ok (f s), s).
Definition modify (f : State -> State) : M unit := fun s => (Ok tt, f s).
Definition throw {A} (err : string) : M A := fun s => (Thrown err, s).

(** [try { m } catch (err) { handler(err) }]. *)
Definition tryCatch {A} (m : M A) (handler : string -> M A) : M A :=
  fun s =>
    match m s with
    | (Ok a, s') => (Ok a, s')
    | (Thrown err, s') => handler err s'
    end.

(** Record a call in the trace. *)
Definition emit (e : Event) : M unit :=
  modify (fun s => set_trace (trace s ++ [e]) s).

(** A call to the outside world: it is recorded, and it returns or throws what
    the world answers given the history before the call. *)
Definition extern {A} (e : Event) (answer : list Event -> Result A) : M A :=
  fun s =>
    match answer (trace s) with
    | Ok a => (Ok a, set_trace (trace s ++ [e]) s)
    | Thrown err => (Thrown err, set_trace (trace s ++ [e]) s)
    end.

(** [for (const x of l) await f(x)]. *)
Fixpoint forEach {A} (f : A -> M unit) (l : list A) : M unit :=
  match l with
  | [] => ret tt
  | x :: l' => f x ;; forEach f l'
  end.

(** [logVerbose(msg)]. *)
Definition logVerbose (msg : string) : M unit := emit (LogVerbose msg).

(** ** Arguments of [dispatchTelegramMessage] *)

(** [msg.chat.type] and [msg.message_id] (which may be absent). *)
Record Message := { chat_type : string; message_id : option Z }.

(** The fields of [context] the function reads.  [resolvedThreadId] is
    [Some n] exactly when [typeof resolvedThreadId === "number"];
    [ackReactionPromise] records whether a promise is present. *)
Record Context := {
  msg : Message;
  chatId : Z;
  isGroup : bool;
  resolvedThreadId : option Z;
  historyKey : option string;
  historyLimit : Z;
  ackReactionPromise : bool;
  removeAckAfterReply : bool
}.

(** [blockStreaming] is [telegramCfg.blockStreaming] when it is a boolean;
    [runtime_error] tells whether [runtime.error] is defined. *)
Record DispatchParams := {
  context : Context;
  streamMode : string;
  textLimit : Z;
  blockStreaming : option bool;
  runtime_error : bool
}.

(** A log sink handed to a collaborator: [logVerbose], or none. *)
Inductive Sink := NoSink | VerboseSink.

Definition writeTo (sink : Sink) (msg : string) : M unit :=
  match sink with
  | VerboseSink => logVerbose msg
  | NoSink => ret tt
  end.

(** The object passed to [createTelegramDraftStream]. *)
Record DraftStreamParams := {
  ds_chatId : Z;
  ds_draftId : Z;
  ds_maxChars : Z;
  ds_messageThreadId : option Z;
  ds_log : Sink;
  ds_warn : Sink
}.

(** JavaScript truthiness of an optional number and of an optional string. *)
Definition truthyNumber (n : option Z) : bool :=
  match n with Some z => negb (z =? 0) | None => false end.

Definition truthyText (t : option string) : bool :=
  match t with Some s => truthy s | None => false end.

(** ** The Draft Controller ([createTelegramDraftStream]) *)

Module DraftStream.

Definition set_pending (v : option string) (d : DraftState) : DraftState :=
  {| pendingText := v; lastSentText := lastSentText d; stopped := stopped d |}.

Definition set_lastSent (v : option string) (d : DraftState) : DraftState :=
  {| pendingText := pendingText d; lastSentText := v; stopped := stopped d |}.

(** Modelled from the spec: the live edit itself.  The pending text, if any
    and if it differs from the last rendered text, is handed to the
    transport; a failed edit attempt is reported through the injected
    [warn] sink and does not raise to the caller. *)
Definition sendDraft (w : World) (p : DraftStreamParams) : M unit :=
  d <- gets draftState ;;
  match pendingText d with
  | None => ret tt
  | Some text =>
      modify (fun s => set_draftState (set_pending None (draftState s)) s) ;;
      if decide (lastSentText d = Some text) then ret tt
      else
        tryCatch
          (extern (SendMessageDraft text) (fun h => api_sendMessageDraft w h text) ;;
           modify (fun s => set_draftState (set_lastSent (Some text) (draftState s)) s))
          (fun err => writeTo (ds_warn p) ("telegram draft stream failed: " +:+ err))
  end.

(** Modelled from the spec: [update(text)] schedules a live edit of the
    draft to [text], superseding an earlier queued one, or performs it at
    once when the throttle allows; after [stop()] it does nothing. *)
Definition update (w : World) (p : DraftStreamParams) (text : string) : M unit :=
  emit (DraftUpdate text) ;;
  d <- gets draftState ;;
  if stopped d then ret tt
  else
    modify (fun s => set_draftState (set_pending (Some text) (draftState s)) s) ;;
    now <- gets (fun s => throttleOpen w (trace s)) ;;
    if now then sendDraft w p else ret tt.

(** Modelled from the spec: [flush()] completes the pending edit, so that
    the transport reflects the most recent [update]. *)
Definition flush (w : World) (p : DraftStreamParams) : M unit :=
  emit DraftFlush ;;
  d <- gets draftState ;;
  if stopped d then ret tt else sendDraft w p.

(** Modelled from the spec: [stop()] terminates future edits; it is safe to
    call it several times, or after [flush()]. *)
Definition stop (w : World) (p : DraftStreamParams) : M unit :=
  emit DraftStop ;;
  modify (fun s =>
    set_draftState
      {| pendingText := None;
         lastSentText := lastSentText (draftState s);
         stopped := true |} s).

End DraftStream.

(** ** The chunker object as the dispatcher drives it *)

Definition chunkerAppend (delta : string) : M unit :=
  emit (ChunkerAppend delta) ;;
  modify (fun s => set_chunkerState (Chunker.append delta (chunkerState s)) s).

Definition chunkerReset : M unit :=
  emit ChunkerReset ;;
  modify (fun s => set_chunkerState (Chunker.reset (chunkerState s)) s).

Definition chunkerHasBuffered : M bool :=
  gets (fun s => Chunker.hasBuffered (chunkerState s)).

(** [draftChunker.drain({ force, emit })]: the chunks the splitter returns are
    handed to the [emit] callback in order. *)
Definition chunkerDrain (cfg : Chunker.BlockChunking) (force : bool)
    (emitChunk : string -> M unit) : M unit :=
  emit (ChunkerDrain force) ;;
  c <- gets chunkerState ;;
  modify (set_chunkerState (snd (Chunker.drain cfg force c))) ;;
  forEach emitChunk (fst (Chunker.drain cfg force c)).

(** ** History helper and typing callbacks *)

Module History.

(** Modelled from the spec: [clearHistoryEntriesIfEnabled] of
    [../auto-reply/reply/history.js] is not part of the sources at hand.
    It clears the buffered entries of [historyKey] when the configured
    history limit is exceeded. *)
Definition clearIfExceeded (historyMap : gmap string (list HistoryEntry))
    (historyKey : string) (limit : Z) : gmap string (list HistoryEntry) :=
  match historyMap !! historyKey with
  | Some entries =>
      if limit <? Z.of_nat (length entries)
      then <[historyKey := []]> historyMap
      else historyMap
  | None => historyMap
  end.

(** Modelled from the spec: the call on the shared [groupHistories] map. *)
Definition clearHistoryEntriesIfEnabled (historyKey : string) (limit : Z) : M unit :=
  emit (ClearHistoryEntriesIfEnabled historyKey limit) ;;
  modify (fun s =>
    set_groupHistories (clearIfExceeded (groupHistories s) historyKey limit) s).

End History.

Module Typing.

(** Modelled from the spec: [createTypingCallbacks] of
    [../channels/typing.js] is not part of the sources at hand.  Starting
    the indicator is best effort: a failure is handed to [onStartError]
    and is never fatal. *)
Definition onReplyStart (start : M unit) (onStartError : string -> M unit) : M unit :=
  tryCatch start onStartError.

End Typing.

(** ** The Reply Dispatcher ([dispatchReplyWithBufferedBlockDispatcher]) *)

Module ReplyDispatcher.

(** Modelled from the spec: the reply-generation stream of one turn yields
    partial-text and reasoning events and exactly one terminal event. *)
Inductive StreamEvent :=
| Partial (payload : ReplyPayload)
| Reasoning (payload : ReplyPayload).

Inductive Terminal :=
| Final (payloads : list ReplyPayload)
| NoReply.

Record ReplyStream := { events : list StreamEvent; terminal : Terminal }.

Record DispatcherOptions := {
  deliver : ReplyPayload -> ReplyInfo -> M unit;
  onError : string -> ReplyInfo -> M unit;
  onReplyStart : M unit
}.

Record ReplyOptions := {
  onPartialReply : option (ReplyPayload -> M unit);
  onReasoningStream : option (ReplyPayload -> M unit);
  disableBlockStreaming : option bool
}.

Record DispatchResult := { queuedFinal : bool }.

(** Modelled from the spec: an event is handed to its handler when one is
    installed. *)
Definition handle (h : option (ReplyPayload -> M unit)) (payload : ReplyPayload) : M unit :=
  match h with
  | Some f => f payload
  | None => ret tt
  end.

(** Modelled from the spec: partial-text events go to [onPartialReply],
    reasoning events to [onReasoningStream]. *)
Definition onStreamEvent (ro : ReplyOptions) (e : StreamEvent) : M unit :=
  match e with
  | Partial payload => handle (onPartialReply ro) payload
  | Reasoning payload => handle (onReasoningStream ro) payload
  end.

(** Modelled from the spec: delivery of one final payload.  A failure is
    reported to the error sink with the payload's info and does not reach the
    sibling payloads. *)
Definition deliverOne (dopts : DispatcherOptions) (payload : ReplyPayload) : M unit :=
  let info := {| kind := "final" |} in
  tryCatch (deliver dopts payload info) (fun err => onError dopts err info).

(** Modelled from the spec: [dispatchReplyWithBufferedBlockDispatcher] of
    [../auto-reply/reply/provider-dispatcher.js] is not part of the sources
    at hand.  It starts the typing indicator, hands every partial and
    reasoning event to the installed handler, and on the terminal event
    either delivers the final payloads one by one, in order, or skips
    delivery and reports that no reply was produced. *)
Definition dispatchReplyWithBufferedBlockDispatcher
    (stream : ReplyStream) (dopts : DispatcherOptions) (ro : ReplyOptions)
  : M DispatchResult :=
  onReplyStart dopts ;;
  forEach (onStreamEvent ro) (events stream) ;;
  match terminal stream with
  | Final payloads =>
      forEach (deliverOne dopts) payloads ;;
      ret {| queuedFinal := true |}
  | NoReply => ret {| queuedFinal := false |}
  end.

End ReplyDispatcher.

(** ** [dispatchTelegramMessage] *)

Import ReplyDispatcher.

(** What the closures of one turn capture once the draft stream and the
    chunker have been set up. *)
Record Turn := {
  world : World;
  params : DispatchParams;
  draftStream : option DraftStreamParams;
  draftChunker : option Chunker.BlockChunking
}.

(** [draftMaxChars]. *)
Definition draftMaxChars (textLimit : Z) : Z := Z.min textLimit 4096.

(** [canStreamDraft]: the conjunction is evaluated left to right and the
    topics lookup is only awaited when the first three conditions hold. *)
Definition canStreamDraft (w : World) (p : DispatchParams) : M bool :=
  let ctx := context p in
  let isPrivateChat := String.eqb (chat_type (msg ctx)) "private" in
  if negb (String.eqb (streamMode p) "off")
     && isPrivateChat
     && (match resolvedThreadId ctx with Some _ => true | None => false end)
  then
    match resolveBotTopicsEnabled w with
    | Ok b => ret b
    | Thrown err => throw err
    end
  else ret false.

(** The first part of the function body: [draftStream], [draftChunking] and
    [draftChunker]. *)
Definition setupTurn (w : World) (p : DispatchParams) : M Turn :=
  let ctx := context p in
  can <- canStreamDraft w p ;;
  let stream :=
    if can then
      Some {| ds_chatId := chatId ctx;
              ds_draftId :=
                (if truthyNumber (message_id (msg ctx))
                 then default 0 (message_id (msg ctx))
                 else date_now w);
              ds_maxChars := draftMaxChars (textLimit p);
              ds_messageThreadId := resolvedThreadId ctx;
              ds_log := VerboseSink;
              ds_warn := VerboseSink |}
    else None in
  let draftChunking :=
    match stream with
    | Some _ =>
        if String.eqb (streamMode p) "block"
        then Some (resolveTelegramDraftStreamingChunking w)
        else None
    | None => None
    end in
  ret {| world := w; params := p; draftStream := stream; draftChunker := draftChunking |}.

Definition updateDraftFromPartial (T : Turn) (text : option string) : M unit :=
  match draftStream T, text with
  | Some ds, Some text =>
      if negb (truthy text) then ret tt else
      last <- gets lastPartialText ;;
      if String.eqb text last then ret tt else
      if String.eqb (streamMode (params T)) "partial" then
        modify (set_lastPartialText text) ;;
        DraftStream.update (world T) ds text
      else
        delta <-
          (if startsWith text last
           then ret (slice_from (String.length last) text)
           else
             (match draftChunker T with
              | Some _ => chunkerReset
              | None => ret tt
              end) ;;
             modify (set_draftText "") ;;
             ret text) ;;
        modify (set_lastPartialText text) ;;
        if negb (truthy delta) then ret tt else
        match draftChunker T with
        | None =>
            modify (set_draftText text) ;;
            current <- gets draftText ;;
            DraftStream.update (world T) ds current
        | Some cfg =>
            chunkerAppend delta ;;
            chunkerDrain cfg false (fun chunk =>
              modify (fun s => set_draftText (draftText s +:+ chunk) s) ;;
              current <- gets draftText ;;
              DraftStream.update (world T) ds current)
        end
  | _, _ => ret tt
  end.

Definition flushDraft (T : Turn) : M unit :=
  match draftStream T with
  | None => ret tt
  | Some ds =>
      (match draftChunker T with
       | Some cfg =>
           buffered <- chunkerHasBuffered ;;
           if buffered then
             chunkerDrain cfg true (fun chunk =>
               modify (fun s => set_draftText (draftText s +:+ chunk) s)) ;;
             chunkerReset ;;
             current <- gets draftText ;;
             if truthy current then DraftStream.update (world T) ds current else ret tt
           else ret tt
       | None => ret tt
       end) ;;
      DraftStream.flush (world T) ds
  end.

(** [draftStream?.stop()]. *)
Definition stopDraft (T : Turn) : M unit :=
  match draftStream T with
  | Some ds => DraftStream.stop (world T) ds
  | None => ret tt
  end.

(** The [deliver] callback of [dispatcherOptions]. *)
Definition deliver (T : Turn) (payload : ReplyPayload) (info : ReplyInfo) : M unit :=
  (if String.eqb (kind info) "final"
   then flushDraft T ;; stopDraft T
   else ret tt) ;;
  extern (DeliverReplies (pretty (chatId (context (params T)))) [payload])
         (fun h => deliverReplies (world T) h [payload]).

(** The [onError] callback: [runtime.error?.(danger(...))]. *)
Definition onError (T : Turn) (err : string) (info : ReplyInfo) : M unit :=
  if runtime_error (params T)
  then emit (RuntimeError
               (danger (world T) ("telegram " +:+ kind info +:+ " reply failed: " +:+ err)))
  else ret tt.

(** The [onReplyStart] callback built by [createTypingCallbacks]. *)
Definition onReplyStart (T : Turn) : M unit :=
  Typing.onReplyStart
    (extern SendTyping (sendTyping (world T)))
    (fun err =>
       logVerbose ("telegram typing cue failed for chat "
                   +:+ pretty (chatId (context (params T))) +:+ ": " +:+ err)).

(** The [onReasoningStream] handler. *)
Definition onReasoning (T : Turn) (ds : DraftStreamParams) (payload : ReplyPayload) : M unit :=
  match payload_text payload with
  | Some text => if truthy text then DraftStream.update (world T) ds text else ret tt
  | None => ret tt
  end.

(** [disableBlockStreaming]: [true], [false] or [undefined]. *)
Definition disableBlockStreamingOf (T : Turn) : option bool :=
  match draftStream T with
  | Some _ => Some true
  | None =>
      match blockStreaming (params T) with
      | Some b => if negb b then Some true else Some false
      | None => None
      end
  end.

Definition dispatcherOptions (T : Turn) : DispatcherOptions :=
  {| ReplyDispatcher.deliver := deliver T;
     ReplyDispatcher.onError := onError T;
     ReplyDispatcher.onReplyStart := onReplyStart T |}.

Definition replyOptions (T : Turn) : ReplyOptions :=
  {| onPartialReply :=
       match draftStream T with
       | Some _ => Some (fun payload => updateDraftFromPartial T (payload_text payload))
       | None => None
       end;
     onReasoningStream :=
       match draftStream T with
       | Some ds => Some (onReasoning T ds)
       | None => None
       end;
     disableBlockStreaming := disableBlockStreamingOf T |}.

(** [if (isGroup && historyKey) clearHistoryEntriesIfEnabled(...)]. *)
Definition clearGroupHistory (T : Turn) : M unit :=
  let ctx := context (params T) in
  if isGroup ctx && truthyText (historyKey ctx)
  then History.clearHistoryEntriesIfEnabled (default "" (historyKey ctx)) (historyLimit ctx)
  else ret tt.

(** The call of [removeAckReactionAfterReply]. *)
Definition removeAckReaction (T : Turn) : M unit :=
  let ctx := context (params T) in
  emit (RemoveAckReactionAfterReply
          (removeAckAfterReply ctx)
          (if ackReactionPromise ctx then Some "ack" else None)).

(** The second part of the function body: the dispatch and what follows it. *)
Definition runTurn (T : Turn) (stream : ReplyStream) : M unit :=
  result <- dispatchReplyWithBufferedBlockDispatcher
              stream (dispatcherOptions T) (replyOptions T) ;;
  stopDraft T ;;
  if negb (queuedFinal result) then
    clearGroupHistory T
  else
    removeAckReaction T ;;
    clearGroupHistory T.

Definition dispatchTelegramMessage (w : World) (p : DispatchParams)
    (stream : ReplyStream) : M unit :=
  T <- setupTurn w p ;;
  runTurn T stream.

(** ** Reading a trace *)

(** The payloads handed to [deliverReplies], in order. *)
Definition deliveryOf (e : Event) : list ReplyPayload :=
  match e with DeliverReplies _ replies => replies | _ => [] end.

Definition deliveries (tr : list Event) : list ReplyPayload := flat_map deliveryOf tr.

(** The texts handed to the draft transport, in order. *)
Definition transportCallOf (e : Event) : list string :=
  match e with SendMessageDraft text => [text] | _ => [] end.

Definition transportCalls (tr : list Event) : list string := flat_map transportCallOf tr.

(** Calls made on the draft stream object, and by it on the transport. *)
Definition isDraftCall (e : Event) : bool :=
  match e with
  | DraftUpdate _ | DraftFlush | DraftStop | SendMessageDraft _ => true
  | _ => false
  end.

Definition draftCallOf (e : Event) : list Event := if isDraftCall e then [e] else [].

Definition draftCalls (tr : list Event) : list Event := flat_map draftCallOf tr.

(** The payloads of the terminal event. *)
Definition finalPayloads (t : Terminal) : list ReplyPayload :=
  match t with
  | Final payloads => payloads
  | NoReply => []
  end.

(** The calls the dispatcher itself makes on its collaborators, leaving out
    what the Draft Controller does underneath (transport calls and the lines
    it logs). *)
Definition isDispatcherCall (e : Event) : bool :=
  match e with
  | SendMessageDraft _ | LogVerbose _ => false
  | _ => true
  end.

Definition dispatcherCallOf (e : Event) : list Event :=
  if isDispatcherCall e then [e] else [].

Definition dispatcherCalls (tr : list Event) : list Event := flat_map dispatcherCallOf tr.



(** The history clean-ups requested. *)
Definition historyClearOf (e : Event) : list (string * Z) :=
  match e with ClearHistoryEntriesIfEnabled key limit => [(key, limit)] | _ => [] end.

Definition historyClears (tr : list Event) : list (string * Z) := flat_map historyClearOf tr.

(** The calls of the forced drain in [flushDraft]. *)
Definition forcedDrainCalls (T : Turn) (s : State) : list Event :=
  match draftChunker T with
  | Some _ =>
      if Chunker.hasBuffered (chunkerState s)
      then [ChunkerDrain true; ChunkerReset;
            DraftUpdate (draftText s +:+ Chunker.buffer (chunkerState s))]
      else []
  | None => []
  end.

(** The text the forced drain appends to the draft text. *)
Definition remainder (T : Turn) (s : State) : string :=
  match draftChunker T with
  | Some _ => Chunker.buffer (chunkerState s)
  | None => ""
  end.

(** The texts handed to [draftStream.update], in order. *)
Definition draftUpdateOf (e : Event) : list string :=
  match e with DraftUpdate text => [text] | _ => [] end.

Definition draftUpdates (tr : list Event) : list string := flat_map draftUpdateOf tr.

(** The texts [acc + c1], [acc + c1 + c2], ... obtained by appending the
    fragments one after the other: the partial texts of a stream that grows
    by the deltas [c1], [c2], ..., and the draft texts after each chunk. *)
Fixpoint runningTexts (acc : string) (fragments : list string) : list string :=
  match fragments with
  | [] => []
  | c :: rest => (acc +:+ c) :: runningTexts (acc +:+ c) rest
  end.

(** The text of the turn as the dispatcher holds it: what was pushed to the
    draft followed by what the chunker still buffers. *)
Definition rendered (s : State) : string :=
  draftText s +:+ Chunker.buffer (chunkerState s).

(** A run of partial-text events. *)
Definition onPartialTexts (T : Turn) (texts : list string) : M unit :=
  forEach (fun text => updateDraftFromPartial T (Some text)) texts.

(** A turn that renders its draft incrementally through a chunker. *)
Definition ChunkedTurn (T : Turn) (ds : DraftStreamParams) (cfg : Chunker.BlockChunking)
  : Prop :=
  draftStream T = Some ds /\ draftChunker T = Some cfg /\
  streamMode (params T) <> "partial".

(** The part of the state the dispatcher renders from. *)
Definition render (s : State) : string * string * Chunker.t :=
  (lastPartialText s, draftText s, chunkerState s).

(** ** What leaves the Chunk Splitter *)

(** Text leaves the Chunk Splitter in a chunk handed to [emit], or it is
    discarded by [reset()]. *)
Inductive Piece :=
| Emitted (chunk : string)
| Discarded (text : string).

Definition pieceText (p : Piece) : string :=
  match p with Emitted text | Discarded text => text end.

Definition emittedOf (p : Piece) : list string :=
  match p with Emitted chunk => [chunk] | Discarded _ => [] end.

Definition discardedOf (p : Piece) : list string :=
  match p with Discarded text => [text] | Emitted _ => [] end.

(** The chunks emitted, by non-forced and forced drains alike, in order. *)
Definition emittedChunks (pieces : list Piece) : list string := flat_map emittedOf pieces.

(** The non-empty buffers thrown away by [reset()]. *)
Definition discardedTexts (pieces : list Piece) : list string := flat_map discardedOf pieces.

(** One recorded call on the chunker object, replayed on the Chunk Splitter:
    the pieces that leave it and its next state.  The other events do not
    concern it. *)
Definition replayCall (cfg : Chunker.BlockChunking) (e : Event) (c : Chunker.t)
  : list Piece * Chunker.t :=
  match e with
  | ChunkerAppend delta => ([], Chunker.append delta c)
  | ChunkerDrain force =>
      (map Emitted (fst (Chunker.drain cfg force c)), snd (Chunker.drain cfg force c))
  | ChunkerReset =>
      ((if Chunker.hasBuffered c then [Discarded (Chunker.buffer c)] else []),
       Chunker.reset c)
  | _ => ([], c)
  end.

(** The calls recorded in a trace, replayed in order from the state [c]. *)
Fixpoint replay (cfg : Chunker.BlockChunking) (tr : list Event) (c : Chunker.t)
  : list Piece * Chunker.t :=
  match tr with
  | [] => ([], c)
  | e :: rest =>
      let (pieces, c1) := replayCall cfg e c in
      let (more, c2) := replay cfg rest c1 in
      (pieces ++ more, c2)
  end.

(** The deltas handed to [append], in order. *)
Definition appendedOf (e : Event) : list string :=
  match e with ChunkerAppend delta => [delta] | _ => [] end.

Definition appendedDeltas (tr : list Event) : list string := flat_map appendedOf tr.

(** The chunker of the state is the one the recorded calls lead to. *)
Definition Accounted (cfg : Chunker.BlockChunking) (s : State) : Prop :=
  snd (replay cfg (trace s) Chunker.empty) = chunkerState s.

(** [m] keeps the invariant [I], whether it returns or throws. *)
Definition Preserves (I : State -> Prop) {A} (m : M A) : Prop :=
  forall s, I s -> I (snd (m s)).

(** ** Properties of computations *)

(** [m] always returns normally. *)
Definition NoThrow {A} (m : M A) : Prop :=
  forall s, exists a, fst (m s) = Ok a.

(** Under the reading [f] of the trace, [m] adds exactly [xs], whether it
    returns or throws. *)
Definition Emits {X} (f : Event -> list X) (xs : list X) {A} (m : M A) : Prop :=
  forall s, flat_map f (trace (snd (m s))) = flat_map f (trace s) ++ xs.

(** [m] leaves the component [proj] of the state alone. *)
Definition Keeps {X} (proj : State -> X) {A} (m : M A) : Prop :=
  forall s, proj (snd (m s)) = proj s.

(** A component of the state that does not look at the trace. *)
Definition TraceBlind {X} (proj : State -> X) : Prop :=
  forall v s, proj (set_trace v s) = proj s.

(** [m] only adds to the trace. *)
Definition Extends {A} (m : M A) : Prop :=
  forall s, exists evs, trace (snd (m s)) = trace s ++ evs.

(** ** Sample turns *)

Module Samples.

(** A boundary policy that cuts after each blank. *)
Definition afterBlank : Chunker.BlockChunking :=
  {| Chunker.safeBoundary := fun buf =>
       match String.index 0 " " buf with
       | Some i => Some (S i)
       | None => None
       end;
     Chunker.maxChars := 100 |}.

(** A world in which every call succeeds and edits are never delayed. *)
Definition calm : World :=
  {| resolveBotTopicsEnabled := Ok true;
     api_sendMessageDraft := fun _ _ => Ok tt;
     throttleOpen := fun _ => true;
     sendTyping := fun _ => Ok tt;
     deliverReplies := fun _ _ => Ok tt;
     date_now := 1700000000000;
     danger := fun line => line;
     resolveTelegramDraftStreamingChunking := afterBlank |}.

(** A world in which the draft transport, the typing indicator and the
    delivery of the reply "first" all fail. *)
Definition stormy : World :=
  {| resolveBotTopicsEnabled := Ok true;
     api_sendMessageDraft := fun _ _ => Thrown "429";
     throttleOpen := fun _ => true;
     sendTyping := fun _ => Thrown "timeout";
     deliverReplies := fun _ replies =>
       if decide (replies = [ {| payload_text := Some "first" |} ])
       then Thrown "network" else Ok tt;
     date_now := 1700000000000;
     danger := fun line => line;
     resolveTelegramDraftStreamingChunking := afterBlank |}.

Definition privateChat : Context :=
  {| msg := {| chat_type := "private"; message_id := Some 7 |};
     chatId := 42;
     isGroup := false;
     resolvedThreadId := Some 1;
     historyKey := None;
     historyLimit := 0;
     ackReactionPromise := false;
     removeAckAfterReply := false |}.

Definition groupChat : Context :=
  {| msg := {| chat_type := "supergroup"; message_id := Some 8 |};
     chatId := -1001;
     isGroup := true;
     resolvedThreadId := None;
     historyKey := Some "group:-1001";
     historyLimit := 1;
     ackReactionPromise := true;
     removeAckAfterReply := true |}.

Definition blockParams : DispatchParams :=
  {| context := privateChat; streamMode := "block"; textLimit := 5000;
     blockStreaming := None; runtime_error := true |}.

Definition groupParams : DispatchParams :=
  {| context := groupChat; streamMode := "block"; textLimit := 4000;
     blockStreaming := None; runtime_error := true |}.

Definition reply (text : string) : ReplyPayload := {| payload_text := Some text |}.

Definition partials (texts : list string) : list StreamEvent :=
  map (fun text => Partial (reply text)) texts.

(** The turn [setupTurn] builds for [blockParams] in the calm world. *)
Definition blockStream : DraftStreamParams :=
  {| ds_chatId := 42; ds_draftId := 7; ds_maxChars := 4096;
     ds_messageThreadId := Some 1; ds_log := VerboseSink; ds_warn := VerboseSink |}.

Definition blockTurn (w : World) : Turn :=
  {| world := w; params := blockParams;
     draftStream := Some blockStream; draftChunker := Some afterBlank |}.

Definition groupTurn : Turn :=
  {| world := calm; params := groupParams; draftStream := None; draftChunker := None |}.

Definition groupHistory : gmap string (list HistoryEntry) :=
  {[ "group:-1001" :=
       [ {| entry_sender := "ann"; entry_body := "hi" |};
         {| entry_sender := "bob"; entry_body := "hello" |} ] ]}.

End Samples.

(** ** The end of the turn, and more readings of a trace *)

(** What [dispatchTelegramMessage] does once the dispatch has returned its
    outcome: the terminating [draftStream?.stop()], the no-reply branch with
    its early return, the removal of the acknowledgement reaction and the
    history clean-up. *)
Definition finishTurn (T : Turn) (result : DispatchResult) : M unit :=
  stopDraft T ;;
  if negb (queuedFinal result) then
    clearGroupHistory T
  else
    removeAckReaction T ;;
    clearGroupHistory T.

(** The requests to remove the acknowledgement reaction. *)
Definition ackRemovalOf (e : Event) : list (bool * option string) :=
  match e with
  | RemoveAckReactionAfterReply removeAfterReply value => [(removeAfterReply, value)]
  | _ => []
  end.

Definition ackRemovals (tr : list Event) : list (bool * option string) :=
  flat_map ackRemovalOf tr.

(** The calls on the chunker object. *)
Definition chunkerCallOf (e : Event) : list Event :=
  match e with
  | ChunkerAppend _ | ChunkerDrain _ | ChunkerReset => [e]
  | _ => []
  end.

Definition chunkerCalls (tr : list Event) : list Event := flat_map chunkerCallOf tr.

(** The last non-empty partial text of a run of stream events, [acc] when
    there is none. *)
Fixpoint lastPartialOf (acc : string) (evs : list StreamEvent) : string :=
  match evs with
  | [] => acc
  | Partial payload :: rest =>
      lastPartialOf
        (if truthyText (payload_text payload)
         then default "" (payload_text payload) else acc)
        rest
  | Reasoning _ :: rest => lastPartialOf acc rest
  end.

(** The draft text once the chunker's remainder is flushed into it equals the
    last partial text. *)
Definition Shown (T : Turn) (s : State) : Prop :=
  draftText s +:+ remainder T s = lastPartialText s.

(** A turn with a draft stream that renders incrementally. *)
Definition Incremental (T : Turn) (ds : DraftStreamParams) : Prop :=
  draftStream T = Some ds /\ streamMode (params T) <> "partial".

(** The first three conditions of [canStreamDraft]. *)
Definition draftEligible (p : DispatchParams) : bool :=
  negb (String.eqb (streamMode p) "off")
  && String.eqb (chat_type (msg (context p))) "private"
  && (match resolvedThreadId (context p) with Some _ => true | None => false end).

Module MoreSamples.

(** A turn in "partial" mode: the whole text is rendered at each event. *)
Definition partialParams : DispatchParams :=
  {| context := Samples.privateChat; streamMode := "partial"; textLimit := 5000;
     blockStreaming := Some true; runtime_error := true |}.

Definition partialTurn (w : World) : Turn :=
  {| world := w; params := partialParams;
     draftStream := Some Samples.blockStream; draftChunker := None |}.

(** A turn with an unrecognised stream mode: a draft, no chunker. *)
Definition otherParams : DispatchParams :=
  {| context := Samples.privateChat; streamMode := "chunks"; textLimit := 5000;
     blockStreaming := None; runtime_error := true |}.

Definition otherTurn (w : World) : Turn :=
  {| world := w; params := otherParams;
     draftStream := Some Samples.blockStream; draftChunker := None |}.

(** A world in which the topics lookup itself throws. *)
Definition broken : World :=
  {| resolveBotTopicsEnabled := Thrown "getChat failed";
     api_sendMessageDraft := fun _ _ => Ok tt;
     throttleOpen := fun _ => true;
     sendTyping := fun _ => Ok tt;
     deliverReplies := fun _ _ => Ok tt;
     date_now := 1700000000000;
     danger := fun line => line;
     resolveTelegramDraftStreamingChunking := Samples.afterBlank |}.

End MoreSamples.

(** ** Model resolution ([agents/pi-embedded-runner/model.ts]) *)

Module ModelResolve.

(** The [cost] object of a model. *)
Record ModelCost := {
  cost_input : Z;
  cost_output : Z;
  cost_cacheRead : Z;
  cost_cacheWrite : Z
}.

(** A model definition of the configuration ([ModelDefinitionConfig]); the
    type is declared outside the sources at hand, these are the fields the
    code reads or writes. *)
Record ModelDefinitionConfig := {
  def_id : string;
  def_name : string;
  def_api : option string;
  def_reasoning : bool;
  def_input : list string;
  def_cost : ModelCost;
  def_contextWindow : option Z;
  def_maxTokens : option Z
}.

(** A resolved model ([Model<Api>]); an inline entry of the configuration
    ([InlineModelEntry]) is a model definition together with [provider] and
    [baseUrl], and is used as a model as it is. *)
Record Model := {
  m_id : string;
  m_name : string;
  m_api : option string;
  m_provider : string;
  m_baseUrl : option string;
  m_reasoning : bool;
  m_input : list string;
  m_cost : ModelCost;
  m_contextWindow : option Z;
  m_maxTokens : option Z
}.

(** [InlineProviderConfig]. *)
Record InlineProviderConfig := {
  p_baseUrl : option string;
  p_api : option string;
  p_models : option (list ModelDefinitionConfig)
}.

(** [Record<string, InlineProviderConfig>]: the own properties in the order
    of [Object.entries]; a value may be missing ([null]). *)
Definition Providers : Type := list (string * option InlineProviderConfig).

(** What the function takes from outside the file: string methods of the
    language, what a plain object inherits from [Object.prototype], the
    helpers imported from other modules and the discovered registry. *)
Record Env := {
  AuthStorage : Type;
  ModelRegistry : Type;
  trim : string -> string;
  toLowerCase : string -> string;
  protoMember : string -> bool;
  protoMemberText : string -> string;
  normalizeProviderId : string -> string;
  normalizeModelCompat : Model -> Model;
  resolveForwardCompatModel : string -> string -> ModelRegistry -> option Model;
  resolveOpenClawAgentDir : string;
  discoverAuthStorage : string -> AuthStorage;
  discoverModels : AuthStorage -> string -> ModelRegistry;
  registryFind : ModelRegistry -> string -> string -> option Model;
  DEFAULT_CONTEXT_TOKENS : Z
}.

(** [{ ...model, provider: trimmed, baseUrl: entry?.baseUrl,
       api: model.api ?? entry?.api }]. *)
Definition inlineEntry (trimmed : string) (entry : option InlineProviderConfig)
    (model : ModelDefinitionConfig) : Model :=
  {| m_id := def_id model;
     m_name := def_name model;
     m_api := match def_api model with
              | Some a => Some a
              | None => entry ≫= p_api
              end;
     m_provider := trimmed;
     m_baseUrl := entry ≫= p_baseUrl;
     m_reasoning := def_reasoning model;
     m_input := def_input model;
     m_cost := def_cost model;
     m_contextWindow := def_contextWindow model;
     m_maxTokens := def_maxTokens model |}.

Definition buildInlineProviderModels (E : Env) (providers : Providers) : list Model :=
  flat_map
    (fun '(providerId, entry) =>
       let trimmed := trim E providerId in
       if negb (truthy trimmed) then []
       else map (inlineEntry trimmed entry) (default [] (entry ≫= p_models)))
    providers.

(** [Object.keys(providers).find((k) => normalizeProviderId(k) === target)]. *)
Definition findConfigKey (E : Env) (providers : Providers) (target : string)
  : option string :=
  List.find (fun k => String.eqb (normalizeProviderId E k) target) (map fst providers).

(** [inlineModels.find((entry) =>
       normalizeProviderId(entry.provider) === target && entry.id === modelId)]. *)
Definition findInline (E : Env) (inlineModels : list Model) (target modelId : string)
  : option Model :=
  List.find
    (fun entry =>
       String.eqb (normalizeProviderId E (m_provider entry)) target
       && String.eqb (m_id entry) modelId)
    inlineModels.

(** An object without any of the fields the code reads: what
    [providers[name]] is when the name is only found on [Object.prototype]. *)
Definition bareConfig : InlineProviderConfig :=
  {| p_baseUrl := None; p_api := None; p_models := None |}.

(** [providers[provider]], with its truthiness: an own property with an
    object, or a member inherited from [Object.prototype]. *)
Definition getProvider (E : Env) (providers : Providers) (name : string)
  : option InlineProviderConfig :=
  match List.find (fun kv => String.eqb (fst kv) name) providers with
  | Some (_, value) => value
  | None => if protoMember E name then Some bareConfig else None
  end.

Definition dquote : string := String (Ascii.ascii_of_nat 34) EmptyString.

Definition ollamaHint : string :=
  "Ollama requires authentication to be registered as a provider. "
  +:+ "Set OLLAMA_API_KEY=" +:+ dquote +:+ "ollama-local" +:+ dquote
  +:+ " (any value works) or run " +:+ dquote +:+ "openclaw configure" +:+ dquote +:+ ". "
  +:+ "See: https://docs.openclaw.ai/providers/ollama".

Definition vllmHint : string :=
  "vLLM requires authentication to be registered as a provider. "
  +:+ "Set VLLM_API_KEY (any value works) or run " +:+ dquote +:+ "openclaw configure"
  +:+ dquote +:+ ". "
  +:+ "See: https://docs.openclaw.ai/providers/vllm".

(** [LOCAL_PROVIDER_HINTS[key]] as the template literal prints it, when it is
    truthy. *)
Definition LOCAL_PROVIDER_HINTS (E : Env) (key : string) : option string :=
  if String.eqb key "ollama" then Some ollamaHint
  else if String.eqb key "vllm" then Some vllmHint
  else if protoMember E key then Some (protoMemberText E key)
  else None.

Definition buildUnknownModelError (E : Env) (provider modelId : string) : string :=
  let base := "Unknown model: " +:+ provider +:+ "/" +:+ modelId in
  match LOCAL_PROVIDER_HINTS E (toLowerCase E provider) with
  | Some hint => base +:+ ". " +:+ hint
  | None => base
  end.

(** The value [resolveModel] returns. *)
Record Resolved (E : Env) := {
  model : option Model;
  error : option string;
  authStorage : AuthStorage E;
  modelRegistry : ModelRegistry E
}.
Arguments model {E}.
Arguments error {E}.
Arguments authStorage {E}.
Arguments modelRegistry {E}.

(** The generic model built when only the provider is configured, or for a
    [mock-] model id. *)
Definition fallbackModel (E : Env) (provider modelId : string)
    (providerCfg : option InlineProviderConfig) : Model :=
  let models := default [] (providerCfg ≫= p_models) in
  let effectiveModelId :=
    match models with
    | first :: _ =>
        if String.eqb modelId provider
           || String.eqb (normalizeProviderId E modelId) (normalizeProviderId E provider)
        then def_id first else modelId
    | [] => modelId
    end in
  {| m_id := effectiveModelId;
     m_name := effectiveModelId;
     m_api := Some (default "openai-responses" (providerCfg ≫= p_api));
     m_provider := provider;
     m_baseUrl := providerCfg ≫= p_baseUrl;
     m_reasoning := false;
     m_input := ["text"];
     m_cost := {| cost_input := 0; cost_output := 0;
                  cost_cacheRead := 0; cost_cacheWrite := 0 |};
     m_contextWindow :=
       Some (default (DEFAULT_CONTEXT_TOKENS E) (head models ≫= def_contextWindow));
     m_maxTokens :=
       Some (default (DEFAULT_CONTEXT_TOKENS E) (head models ≫= def_maxTokens)) |}.

(** [if (cond) { const match = inlineModels.find(...); if (match) return found(match); }]
    followed by the rest of the function. *)
Definition preferInline {R} (cond : bool) (inlineMatch : option Model)
    (found : Model -> R) (rest : R) : R :=
  if cond then
    match inlineMatch with
    | Some entry => found entry
    | None => rest
    end
  else rest.

Definition resolveModel (E : Env) (provider modelId : string)
    (agentDir : option string) (cfgProviders : option Providers) : Resolved E :=
  let resolvedAgentDir := default (resolveOpenClawAgentDir E) agentDir in
  let authStorage := discoverAuthStorage E resolvedAgentDir in
  let modelRegistry := discoverModels E authStorage resolvedAgentDir in
  let providers := default [] cfgProviders in
  let inlineModels := buildInlineProviderModels E providers in
  let normalizedProvider := normalizeProviderId E provider in
  let codexCliConfigKey := findConfigKey E providers "codex-cli" in
  let claudeCliConfigKey := findConfigKey E providers "claude-cli" in
  let found (m : Model) : Resolved E :=
    {| model := Some (normalizeModelCompat E m); error := None;
       authStorage := authStorage; modelRegistry := modelRegistry |} in
  preferInline
    (String.eqb normalizedProvider "openai-codex"
     && bool_decide (is_Some codexCliConfigKey))
    (findInline E inlineModels "codex-cli" modelId) found (
  preferInline
    (String.eqb normalizedProvider "anthropic"
     && bool_decide (is_Some claudeCliConfigKey))
    (findInline E inlineModels "claude-cli" modelId) found (
  let configProviderKey := findConfigKey E providers normalizedProvider in
  preferInline
    (bool_decide (is_Some configProviderKey) && (0 <? length inlineModels)%nat)
    (findInline E inlineModels normalizedProvider modelId) found (
  let registered := registryFind E modelRegistry provider modelId in
  let registeredApi := registered ≫= m_api in
  preferInline
    (bool_decide (registeredApi = Some "openai-codex-responses")
     && bool_decide (is_Some codexCliConfigKey))
    (findInline E inlineModels "codex-cli" modelId) found (
  preferInline
    ((bool_decide (registeredApi = Some "anthropic")
      || bool_decide (registeredApi = Some "anthropic-messages"))
     && bool_decide (is_Some claudeCliConfigKey))
    (findInline E inlineModels "claude-cli" modelId) found (
  preferInline
    (bool_decide (registeredApi = Some "openai-codex-responses")
     && bool_decide (is_Some configProviderKey))
    (findInline E inlineModels normalizedProvider modelId) found (
  match registered with
  | None =>
      preferInline true (findInline E inlineModels normalizedProvider modelId) found (
      match resolveForwardCompatModel E provider modelId modelRegistry with
      | Some forwardCompat =>
          {| model := Some forwardCompat; error := None;
             authStorage := authStorage; modelRegistry := modelRegistry |}
      | None =>
          let providerCfg := getProvider E providers provider in
          if bool_decide (is_Some providerCfg) || startsWith modelId "mock-"
          then found (fallbackModel E provider modelId providerCfg)
          else
            {| model := None;
               error := Some (buildUnknownModelError E provider modelId);
               authStorage := authStorage; modelRegistry := modelRegistry |}
      end)
  | Some m => found m
  end)))))).

End ModelResolve.

Module ModelSamples.
Import ModelResolve.

(** Leading blanks removed. *)
Fixpoint dropBlanks (s : string) : string :=
  match s with
  | String c rest => if Ascii.eqb c " " then dropBlanks rest else s
  | EmptyString => EmptyString
  end.

(** Blanks removed at both ends. *)
Definition trimBlanks (s : string) : string :=
  String.rev (dropBlanks (String.rev (dropBlanks s))).

(** Letters A to Z turned into a to z. *)
Fixpoint lowerLetters (s : string) : string :=
  match s with
  | String c rest =>
      let n := Ascii.nat_of_ascii c in
      String (if ((65 <=? n) && (n <=? 90))%nat then Ascii.ascii_of_nat (n + 32) else c)
             (lowerLetters rest)
  | EmptyString => EmptyString
  end.

Definition definition (id : string) (api : option string) : ModelDefinitionConfig :=
  {| def_id := id; def_name := id; def_api := api; def_reasoning := false;
     def_input := ["text"];
     def_cost := {| cost_input := 0; cost_output := 0;
                    cost_cacheRead := 0; cost_cacheWrite := 0 |};
     def_contextWindow := Some 200000; def_maxTokens := Some 8192 |}.

Definition registered (provider id api : string) : Model :=
  {| m_id := id; m_name := id; m_api := Some api; m_provider := provider;
     m_baseUrl := None; m_reasoning := true; m_input := ["text"];
     m_cost := {| cost_input := 3; cost_output := 15;
                  cost_cacheRead := 0; cost_cacheWrite := 0 |};
     m_contextWindow := Some 200000; m_maxTokens := Some 8192 |}.

(** An environment whose registry knows one Anthropic model. *)
Definition env : Env :=
  {| AuthStorage := string;
     ModelRegistry := string;
     trim := trimBlanks;
     toLowerCase := lowerLetters;
     protoMember := fun name => bool_decide (name = "constructor");
     protoMemberText := fun _ => "function Object() { [native code] }";
     normalizeProviderId := fun name => lowerLetters (trimBlanks name);
     normalizeModelCompat := fun m => m;
     resolveForwardCompatModel := fun _ _ _ => None;
     resolveOpenClawAgentDir := "~/.openclaw/agent";
     discoverAuthStorage := fun dir => dir;
     discoverModels := fun _ dir => dir;
     registryFind := fun _ provider id =>
       if String.eqb provider "anthropic" && String.eqb id "claude-sonnet"
       then Some (registered "anthropic" "claude-sonnet" "anthropic-messages")
       else None;
     DEFAULT_CONTEXT_TOKENS := 200000 |}.

(** A configuration with a blank key, a provider without models and a local
    proxy that serves two models. *)
Definition providers : Providers :=
  [ ("  ", Some {| p_baseUrl := Some "http://nowhere"; p_api := None;
                   p_models := Some [definition "ghost" None] |});
    ("empty", Some {| p_baseUrl := None; p_api := None; p_models := None |});
    (" Proxy ", Some {| p_baseUrl := Some "http://127.0.0.1:8317/v1";
                        p_api := Some "openai-completions";
                        p_models := Some [definition "gpt-local" None;
                                          definition "claude-sonnet" (Some "anthropic-messages")] |}) ].

End ModelSamples.

(** * Properties *)

(** ** Strings *)

Module JsStringFacts.

Lemma str_app_nil_l (s : string) : "" +:+ s = s.
Proof. reflexivity. Qed.

Lemma str_app_cons (c : Ascii.ascii) (s t : string) : String c s +:+ t = String c (s +:+ t).
Proof. reflexivity. Qed.

Lemma str_app_empty_r (s : string) : s +:+ "" = s.
Proof.
  induction s as [|c s IH]; [reflexivity|]. now rewrite str_app_cons, IH.
Qed.

Lemma str_app_assoc (a b c : string) : (a +:+ b) +:+ c = a +:+ (b +:+ c).
Proof.
  induction a as [|x a IH]; [reflexivity|]. now rewrite !str_app_cons, IH.
Qed.

Lemma str_length_app (a b : string) :
  String.length (a +:+ b) = (String.length a + String.length b)%nat.
Proof.
  induction a as [|x a IH]; [reflexivity|]. rewrite str_app_cons; simpl. now rewrite IH.
Qed.

Lemma slice_to_from (n : nat) (s : string) : slice_to n s +:+ slice_from n s = s.
Proof.
  revert s; induction n as [|n IH]; intros [|c s]; simpl; try reflexivity.
  now rewrite str_app_cons, IH.
Qed.

Lemma slice_from_length (n : nat) (s : string) :
  String.length (slice_from n s) = (String.length s - n)%nat.
Proof.
  revert s; induction n as [|n IH]; intros [|c s]; simpl; try reflexivity.
  apply IH.
Qed.

Lemma slice_from_app (a b : string) : slice_from (String.length a) (a +:+ b) = b.
Proof.
  induction a as [|x a IH]; [reflexivity|]. rewrite str_app_cons; simpl. exact IH.
Qed.

Lemma startsWith_app (a b : string) : startsWith (a +:+ b) a = true.
Proof.
  unfold startsWith. induction a as [|x a IH].
  - rewrite str_app_nil_l. now destruct b.
  - rewrite str_app_cons; simpl.
    destruct (ascii_dec x x) as [_|N]; [exact IH | now destruct N].
Qed.

Lemma startsWith_split (text p : string) :
  startsWith text p = true -> p +:+ slice_from (String.length p) text = text.
Proof.
  unfold startsWith. revert text; induction p as [|x p IH]; intros text H.
  - reflexivity.
  - destruct text as [|y text]; simpl in H; [discriminate|].
    destruct (ascii_dec x y) as [->|_]; [|discriminate].
    rewrite str_app_cons; simpl. now rewrite IH.
Qed.

Lemma startsWith_empty (text : string) : startsWith text "" = true.
Proof. unfold startsWith. now destruct text. Qed.

Lemma truthy_false (s : string) : truthy s = false <-> s = "".
Proof.
  unfold truthy. destruct (String.eqb_spec s ""); simpl; split; congruence.
Qed.

Lemma truthy_length (s : string) : truthy s = true <-> (0 < String.length s)%nat.
Proof. destruct s; simpl; split; intros; try lia; try reflexivity; discriminate. Qed.

Lemma concat_nil : concat [] = "".
Proof. reflexivity. Qed.

Lemma concat_cons (x : string) (l : list string) : concat (x :: l) = x +:+ concat l.
Proof. reflexivity. Qed.

Lemma concat_app (l1 l2 : list string) : concat (l1 ++ l2) = concat l1 +:+ concat l2.
Proof.
  induction l1 as [|x l1 IH]; [reflexivity|].
  change ((x :: l1) ++ l2) with (x :: (l1 ++ l2)).
  now rewrite !concat_cons, IH, str_app_assoc.
Qed.

End JsStringFacts.

Import JsStringFacts.

(** ** Properties of the Chunk Splitter *)

Module ChunkerFacts.
Import Chunker.

Lemma pickBreakIndex_range cfg buf i :
  pickBreakIndex cfg buf = Some i -> (0 < i)%nat /\ (0 < String.length buf)%nat.
Proof.
  unfold pickBreakIndex.
  assert (Hover : forall j,
    (if (maxChars cfg <? String.length buf)%nat
     then Some (Nat.max 1 (maxChars cfg)) else None) = Some j ->
    (0 < j)%nat /\ (0 < String.length buf)%nat).
  { intros j. destruct (Nat.ltb_spec (maxChars cfg) (String.length buf));
      intros [= <-]; lia. }
  destruct (safeBoundary cfg buf) as [k|]; [|apply Hover].
  destruct (Nat.ltb_spec 0 k); simpl; [|apply Hover].
  destruct (Nat.leb_spec k (String.length buf)); [|apply Hover].
  intros [= <-]; lia.
Qed.

Lemma drainLoop_concat cfg fuel buf :
  concat (fst (drainLoop cfg fuel buf)) +:+ snd (drainLoop cfg fuel buf) = buf.
Proof.
  revert buf; induction fuel as [|fuel IH]; intros buf; simpl; [reflexivity|].
  destruct (pickBreakIndex cfg buf) as [i|]; [|reflexivity].
  specialize (IH (slice_from i buf)).
  destruct (drainLoop cfg fuel (slice_from i buf)) as [chunks rest]; simpl in *.
  rewrite concat_cons, str_app_assoc, IH. apply slice_to_from.
Qed.

(** The fuel given by [drain] is enough: the loop stops because no boundary
    is left, never because the fuel ran out. *)
Lemma drainLoop_settled cfg fuel buf :
  (String.length buf <= fuel)%nat ->
  pickBreakIndex cfg (snd (drainLoop cfg fuel buf)) = None.
Proof.
  revert buf; induction fuel as [|fuel IH]; intros buf Hlen; simpl.
  - destruct (pickBreakIndex cfg buf) as [i|] eqn:E; [|reflexivity].
    apply pickBreakIndex_range in E. lia.
  - destruct (pickBreakIndex cfg buf) as [i|] eqn:E; [|exact E].
    apply pickBreakIndex_range in E.
    specialize (IH (slice_from i buf)).
    destruct (drainLoop cfg fuel (slice_from i buf)) as [chunks rest]; simpl in *.
    apply IH. rewrite slice_from_length. lia.
Qed.

Lemma drain_soft_concat cfg c :
  concat (fst (drain cfg false c)) +:+ buffer (snd (drain cfg false c)) = buffer c.
Proof.
  unfold drain.
  pose proof (drainLoop_concat cfg (String.length (buffer c)) (buffer c)) as H.
  destruct (drainLoop cfg (String.length (buffer c)) (buffer c)); exact H.
Qed.

Lemma drain_force_concat cfg c :
  concat (fst (drain cfg true c)) = buffer c /\ snd (drain cfg true c) = empty.
Proof.
  unfold drain, hasBuffered; simpl. split; [|reflexivity].
  destruct (truthy (buffer c)) eqn:E; simpl.
  - rewrite concat_cons, concat_nil. apply str_app_empty_r.
  - symmetry. now apply truthy_false.
Qed.

Lemma feed_concat cfg deltas c :
  concat (fst (feed cfg deltas c)) +:+ buffer (snd (feed cfg deltas c))
  = buffer c +:+ concat deltas.
Proof.
  revert c; induction deltas as [|d ds IH]; intros c.
  - simpl. now rewrite concat_nil, str_app_empty_r.
  - cbn [feed].
    pose proof (drain_soft_concat cfg (append d c)) as Hd.
    destruct (drain cfg false (append d c)) as [chunks c1]; cbn [fst snd] in Hd.
    specialize (IH c1).
    destruct (feed cfg ds c1) as [more c2]; cbn [fst snd] in *.
    rewrite concat_app, str_app_assoc, IH, <- str_app_assoc, Hd.
    unfold append; cbn [buffer]. now rewrite concat_cons, str_app_assoc.
Qed.

End ChunkerFacts.

(** ** Reasoning about computations of the turn monad *)

Module TurnFacts.

Section Laws.
Context {A B : Type}.

Lemma bind_ok (m : M A) (k : A -> M B) s a s' :
  m s = (Ok a, s') -> bind m k s = k a s'.
Proof. unfold bind; now intros ->. Qed.

Lemma bind_thrown (m : M A) (k : A -> M B) s err s' :
  m s = (Thrown err, s') -> bind m k s = (Thrown err, s').
Proof. unfold bind; now intros ->. Qed.

Lemma NoThrow_ret (a : A) : NoThrow (ret a).
Proof. intros s; now exists a. Qed.

Lemma NoThrow_gets (f : State -> A) : NoThrow (gets f).
Proof. intros s; now exists (f s). Qed.

Lemma NoThrow_bind (m : M A) (k : A -> M B) :
  NoThrow m -> (forall a, NoThrow (k a)) -> NoThrow (bind m k).
Proof.
  intros Hm Hk s. destruct (Hm s) as [a Ha]. unfold bind.
  destruct (m s) as [[a'|err] s']; simpl in Ha; [|discriminate].
  apply Hk.
Qed.

Lemma NoThrow_tryCatch (m : M A) (h : string -> M A) :
  (forall err, NoThrow (h err)) -> NoThrow (tryCatch m h).
Proof.
  intros Hh s. unfold tryCatch. destruct (m s) as [[a|err] s'].
  - now exists a.
  - apply Hh.
Qed.

Lemma NoThrow_run (m : M A) s :
  NoThrow m -> exists a, m s = (Ok a, snd (m s)).
Proof.
  intros H. destruct (H s) as [a Ha]. exists a.
  destruct (m s) as [r s']; simpl in *; now subst.
Qed.

Lemma Emits_ret {X} (f : Event -> list X) (a : A) : Emits f [] (ret a).
Proof. intros s; simpl. now rewrite app_nil_r. Qed.

Lemma Emits_gets {X} (f : Event -> list X) (g : State -> A) : Emits f [] (gets g).
Proof. intros s; simpl. now rewrite app_nil_r. Qed.

Lemma Emits_throw {X} (f : Event -> list X) err : Emits f [] (@throw A err).
Proof. intros s; simpl. now rewrite app_nil_r. Qed.

Lemma Emits_extern {X} (f : Event -> list X) e (answer : list Event -> Result A) :
  Emits f (f e) (extern e answer).
Proof.
  intros s; unfold extern.
  destruct (answer (trace s)); simpl; rewrite flat_map_app; simpl;
    now rewrite app_nil_r.
Qed.

Lemma Emits_bind {X} (f : Event -> list X) xs ys (m : M A) (k : A -> M B) :
  NoThrow m -> Emits f xs m -> (forall a, Emits f ys (k a)) ->
  Emits f (xs ++ ys) (bind m k).
Proof.
  intros Hn Hm Hk s. destruct (Hn s) as [a Ha]. specialize (Hm s).
  unfold bind. destruct (m s) as [[a'|err] s']; simpl in *; [|discriminate].
  now rewrite Hk, Hm, List.app_assoc.
Qed.

Lemma Emits_bind_first {X} (f : Event -> list X) xs (m : M A) (k : A -> M B) :
  NoThrow m -> Emits f xs m -> (forall a, Emits f [] (k a)) ->
  Emits f xs (bind m k).
Proof.
  intros Hn Hm Hk. pose proof (Emits_bind f xs [] m k Hn Hm Hk) as H.
  now rewrite app_nil_r in H.
Qed.

Lemma Emits_bind_nil {X} (f : Event -> list X) (m : M A) (k : A -> M B) :
  Emits f [] m -> (forall a, Emits f [] (k a)) -> Emits f [] (bind m k).
Proof.
  intros Hm Hk s. specialize (Hm s). unfold bind.
  destruct (m s) as [[a'|err] s']; simpl in *.
  - now rewrite Hk, Hm, !app_nil_r.
  - exact Hm.
Qed.

Lemma Emits_tryCatch {X} (f : Event -> list X) xs (m : M A) (h : string -> M A) :
  Emits f xs m -> (forall err, Emits f [] (h err)) -> Emits f xs (tryCatch m h).
Proof.
  intros Hm Hh s. specialize (Hm s). unfold tryCatch.
  destruct (m s) as [[a'|err] s']; simpl in *; [exact Hm|].
  now rewrite Hh, Hm, app_nil_r.
Qed.

Lemma Keeps_ret {X} (proj : State -> X) (a : A) : Keeps proj (ret a).
Proof. now intros s. Qed.

Lemma Keeps_gets {X} (proj : State -> X) (g : State -> A) : Keeps proj (gets g).
Proof. now intros s. Qed.

Lemma Keeps_throw {X} (proj : State -> X) err : Keeps proj (@throw A err).
Proof. now intros s. Qed.

Lemma Keeps_extern {X} (proj : State -> X) e (answer : list Event -> Result A) :
  TraceBlind proj -> Keeps proj (extern e answer).
Proof.
  intros Hb s; unfold extern. destruct (answer (trace s)); simpl; apply Hb.
Qed.

Lemma Keeps_bind {X} (proj : State -> X) (m : M A) (k : A -> M B) :
  Keeps proj m -> (forall a, Keeps proj (k a)) -> Keeps proj (bind m k).
Proof.
  intros Hm Hk s. specialize (Hm s). unfold bind.
  destruct (m s) as [[a'|err] s']; simpl in *; [|exact Hm].
  now rewrite Hk.
Qed.

Lemma Keeps_tryCatch {X} (proj : State -> X) (m : M A) (h : string -> M A) :
  Keeps proj m -> (forall err, Keeps proj (h err)) -> Keeps proj (tryCatch m h).
Proof.
  intros Hm Hh s. specialize (Hm s). unfold tryCatch.
  destruct (m s) as [[a'|err] s']; simpl in *; [exact Hm|].
  now rewrite Hh.
Qed.
End Laws.

Lemma NoThrow_modify g : NoThrow (modify g).
Proof. intros s; now exists tt. Qed.

Lemma NoThrow_emit e : NoThrow (emit e).
Proof. apply NoThrow_modify. Qed.

Lemma NoThrow_forEach {A} (g : A -> M unit) l :
  (forall x, NoThrow (g x)) -> NoThrow (forEach g l).
Proof.
  intros H; induction l as [|x l IH]; simpl.
  - apply NoThrow_ret.
  - apply NoThrow_bind; auto.
Qed.

Lemma Emits_modify {X} (f : Event -> list X) g :
  (forall s, trace (g s) = trace s) -> Emits f [] (modify g).
Proof. intros H s; simpl. now rewrite H, app_nil_r. Qed.

Lemma Emits_emit {X} (f : Event -> list X) e : Emits f (f e) (emit e).
Proof. intros s; simpl. rewrite flat_map_app; simpl. now rewrite app_nil_r. Qed.

Lemma Emits_emit_nil {X} (f : Event -> list X) e : f e = [] -> Emits f [] (emit e).
Proof. intros H. rewrite <- H. apply Emits_emit. Qed.

Lemma Emits_extern_nil {X A} (f : Event -> list X) e (answer : list Event -> Result A) :
  f e = [] -> Emits f [] (extern e answer).
Proof. intros H. rewrite <- H. apply Emits_extern. Qed.

Lemma Emits_forEach_nil {X A} (f : Event -> list X) (g : A -> M unit) l :
  (forall x, Emits f [] (g x)) -> Emits f [] (forEach g l).
Proof.
  intros H; induction l as [|x l IH]; simpl.
  - apply Emits_ret.
  - apply Emits_bind_nil; auto.
Qed.

Lemma Emits_forEach {X A} (f : Event -> list X) (h : A -> list X) (g : A -> M unit) l :
  (forall x, NoThrow (g x)) -> (forall x, Emits f (h x) (g x)) ->
  Emits f (flat_map h l) (forEach g l).
Proof.
  intros Hn H; induction l as [|x l IH]; simpl.
  - apply Emits_ret.
  - apply Emits_bind; auto.
Qed.

Lemma Emits_forEach_one {A} (f : Event -> list A) (g : A -> M unit) l :
  (forall x, NoThrow (g x)) -> (forall x, Emits f [x] (g x)) ->
  Emits f l (forEach g l).
Proof.
  intros Hn H; induction l as [|x l IH]; simpl.
  - apply Emits_ret.
  - apply (Emits_bind f [x] l); auto.
Qed.

Lemma Keeps_modify {X} (proj : State -> X) g :
  (forall s, proj (g s) = proj s) -> Keeps proj (modify g).
Proof. intros H s; simpl. apply H. Qed.

Lemma Keeps_emit {X} (proj : State -> X) e : TraceBlind proj -> Keeps proj (emit e).
Proof. intros H s; simpl. apply H. Qed.

Lemma Keeps_forEach {X A} (proj : State -> X) (g : A -> M unit) l :
  (forall x, Keeps proj (g x)) -> Keeps proj (forEach g l).
Proof.
  intros H; induction l as [|x l IH]; simpl.
  - apply Keeps_ret.
  - apply Keeps_bind; auto.
Qed.

(** Running the head of a computation. *)
Lemma bind_assoc {A B C} (m : M A) (k1 : A -> M B) (k2 : B -> M C) s :
  bind (bind m k1) k2 s = bind m (fun a => bind (k1 a) k2) s.
Proof. unfold bind. now destruct (m s) as [[a|err] s']. Qed.

Lemma bind_ret {A B} (a : A) (k : A -> M B) s : bind (ret a) k s = k a s.
Proof. reflexivity. Qed.

Lemma bind_gets {A B} (g : State -> A) (k : A -> M B) s : bind (gets g) k s = k (g s) s.
Proof. reflexivity. Qed.

Lemma bind_modify {B} g (k : unit -> M B) s : bind (modify g) k s = k tt (g s).
Proof. reflexivity. Qed.

Lemma bind_emit {B} e (k : unit -> M B) s :
  bind (emit e) k s = k tt (set_trace (trace s ++ [e]) s).
Proof. reflexivity. Qed.

Lemma bind_NoThrow {A B} (m : M A) (k : A -> M B) s :
  NoThrow m -> exists a, m s = (Ok a, snd (m s)) /\ bind m k s = k a (snd (m s)).
Proof.
  intros H. destruct (NoThrow_run m s H) as [a Ha]. exists a. split; [exact Ha|].
  now apply bind_ok.
Qed.

Ltac fields :=
  cbn [lastPartialText draftText chunkerState draftState groupHistories trace
       set_lastPartialText set_draftText set_chunkerState set_draftState
       set_groupHistories set_trace] in *.

Ltac run :=
  repeat (first [ rewrite bind_assoc | rewrite bind_ret | rewrite bind_gets
                | rewrite bind_modify | rewrite bind_emit ];
          cbv beta).

Lemma Extends_ret {A} (a : A) : Extends (ret a).
Proof. intros s; exists []; simpl. now rewrite app_nil_r. Qed.

Lemma Extends_gets {A} (g : State -> A) : Extends (gets g).
Proof. intros s; exists []; simpl. now rewrite app_nil_r. Qed.

Lemma Extends_modify g : (forall s, trace (g s) = trace s) -> Extends (modify g).
Proof. intros H s; exists []; simpl. now rewrite H, app_nil_r. Qed.

Lemma Extends_emit e : Extends (emit e).
Proof. intros s; now exists [e]. Qed.

Lemma Extends_extern {A} e (answer : list Event -> Result A) : Extends (extern e answer).
Proof. intros s; exists [e]; unfold extern. now destruct (answer (trace s)). Qed.

Lemma Extends_bind {A B} (m : M A) (k : A -> M B) :
  Extends m -> (forall a, Extends (k a)) -> Extends (bind m k).
Proof.
  intros Hm Hk s. destruct (Hm s) as [evs1 H1]. unfold bind.
  destruct (m s) as [[a|err] s']; simpl in *; [|now exists evs1].
  destruct (Hk a s') as [evs2 H2]. exists (evs1 ++ evs2).
  now rewrite H2, H1, List.app_assoc.
Qed.

Lemma Extends_tryCatch {A} (m : M A) (h : string -> M A) :
  Extends m -> (forall err, Extends (h err)) -> Extends (tryCatch m h).
Proof.
  intros Hm Hh s. destruct (Hm s) as [evs1 H1]. unfold tryCatch.
  destruct (m s) as [[a|err] s']; simpl in *; [now exists evs1|].
  destruct (Hh err s') as [evs2 H2]. exists (evs1 ++ evs2).
  now rewrite H2, H1, List.app_assoc.
Qed.

Lemma Extends_forEach {A} (g : A -> M unit) l :
  (forall x, Extends (g x)) -> Extends (forEach g l).
Proof.
  intros H; induction l as [|x l IH]; simpl.
  - apply Extends_ret.
  - apply Extends_bind; auto.
Qed.

(** One step of a proof by the laws above: split the computation at its
    head, case on the conditions it tests. *)
Ltac step_case :=
  match goal with
  | |- context [match ?x with _ => _ end] =>
      lazymatch x with
      | context [match _ with _ => _ end] => fail
      | _ => destruct x eqn:?
      end
  end.

Ltac no_throw :=
  repeat first
    [ apply NoThrow_ret | apply NoThrow_gets | apply NoThrow_modify
    | apply NoThrow_emit
    | apply NoThrow_bind; [|intros ?]
    | apply NoThrow_tryCatch; intros ?
    | apply NoThrow_forEach; intros ?
    | assumption
    | step_case
    | progress unfold writeTo ].

Ltac keeps :=
  repeat first
    [ apply Keeps_ret | apply Keeps_gets | apply Keeps_throw
    | apply Keeps_modify; intros ?; reflexivity
    | apply Keeps_emit; intros ? ?; reflexivity
    | apply Keeps_extern; intros ? ?; reflexivity
    | apply Keeps_bind; [|intros ?]
    | apply Keeps_tryCatch; [|intros ?]
    | apply Keeps_forEach; intros ?
    | assumption
    | step_case
    | progress unfold writeTo ].

Ltac extends :=
  repeat first
    [ apply Extends_ret | apply Extends_gets
    | apply Extends_modify; intros ?; reflexivity
    | apply Extends_emit | apply Extends_extern
    | apply Extends_bind; [|intros ?]
    | apply Extends_tryCatch; [|intros ?]
    | apply Extends_forEach; intros ?
    | assumption
    | step_case
    | progress unfold writeTo ].

Ltac silent :=
  repeat first
    [ apply Emits_ret | apply Emits_gets | apply Emits_throw
    | apply Emits_modify; intros ?; reflexivity
    | apply Emits_emit_nil; solve [reflexivity | auto]
    | apply Emits_extern_nil; solve [reflexivity | auto]
    | apply Emits_bind_nil; [|intros ?]
    | apply Emits_tryCatch; [|intros ?]
    | apply Emits_forEach_nil; intros ?
    | assumption
    | step_case
    | progress unfold writeTo ].

End TurnFacts.

(** ** The collaborators, one by one *)

Module CollaboratorFacts.
Import TurnFacts.

Section Draft.
Variables (w : World) (p : DraftStreamParams).

Lemma sendDraft_NoThrow : NoThrow (DraftStream.sendDraft w p).
Proof. unfold DraftStream.sendDraft. no_throw. Qed.

Lemma update_NoThrow text : NoThrow (DraftStream.update w p text).
Proof. unfold DraftStream.update. no_throw. Qed.

Lemma flush_NoThrow : NoThrow (DraftStream.flush w p).
Proof. unfold DraftStream.flush. no_throw. Qed.

Lemma stop_NoThrow : NoThrow (DraftStream.stop w p).
Proof. unfold DraftStream.stop. no_throw. Qed.

Lemma sendDraft_Keeps_render : Keeps render (DraftStream.sendDraft w p).
Proof. unfold DraftStream.sendDraft. keeps. Qed.

Lemma update_Keeps_render text : Keeps render (DraftStream.update w p text).
Proof. unfold DraftStream.update. keeps. Qed.

Lemma sendDraft_Keeps_histories : Keeps groupHistories (DraftStream.sendDraft w p).
Proof. unfold DraftStream.sendDraft. keeps. Qed.

Lemma update_Keeps_histories text : Keeps groupHistories (DraftStream.update w p text).
Proof. unfold DraftStream.update. keeps. Qed.

Lemma flush_Keeps_histories : Keeps groupHistories (DraftStream.flush w p).
Proof. unfold DraftStream.flush. keeps. Qed.

Lemma stop_Keeps_histories : Keeps groupHistories (DraftStream.stop w p).
Proof. unfold DraftStream.stop. keeps. Qed.

(** Nothing the Draft Controller does is seen by a reading of the trace
    that ignores its calls, the transport and its warnings. *)
Section Unseen.
Context {X : Type} (f : Event -> list X).
Hypothesis f_update : forall t, f (DraftUpdate t) = [].
Hypothesis f_flush : f DraftFlush = [].
Hypothesis f_stop : f DraftStop = [].
Hypothesis f_send : forall t, f (SendMessageDraft t) = [].
Hypothesis f_log : forall m, f (LogVerbose m) = [].

Lemma sendDraft_unseen : Emits f [] (DraftStream.sendDraft w p).
Proof. unfold DraftStream.sendDraft. silent. Qed.

Lemma update_unseen text : Emits f [] (DraftStream.update w p text).
Proof. unfold DraftStream.update. silent. Qed.

Lemma flush_unseen : Emits f [] (DraftStream.flush w p).
Proof. unfold DraftStream.flush. silent. Qed.

Lemma stop_unseen : Emits f [] (DraftStream.stop w p).
Proof. unfold DraftStream.stop. silent. Qed.
End Unseen.
End Draft.

End CollaboratorFacts.

(** ** The closures of [dispatchTelegramMessage] *)

Module DispatchFacts.
Import TurnFacts CollaboratorFacts.

Lemma deliveries_app tr1 tr2 : deliveries (tr1 ++ tr2) = deliveries tr1 ++ deliveries tr2.
Proof. apply flat_map_app. Qed.

Lemma transportCalls_app tr1 tr2 :
  transportCalls (tr1 ++ tr2) = transportCalls tr1 ++ transportCalls tr2.
Proof. apply flat_map_app. Qed.

Lemma dispatcherCalls_app tr1 tr2 :
  dispatcherCalls (tr1 ++ tr2) = dispatcherCalls tr1 ++ dispatcherCalls tr2.
Proof. apply flat_map_app. Qed.

Section Closures.
Variable T : Turn.

Lemma updateDraftFromPartial_NoThrow text : NoThrow (updateDraftFromPartial T text).
Proof. unfold updateDraftFromPartial. no_throw. Qed.

Lemma flushDraft_NoThrow : NoThrow (flushDraft T).
Proof. unfold flushDraft. no_throw. Qed.

Lemma stopDraft_NoThrow : NoThrow (stopDraft T).
Proof. unfold stopDraft. no_throw. Qed.

Lemma onReasoning_NoThrow ds payload : NoThrow (onReasoning T ds payload).
Proof. unfold onReasoning. no_throw. Qed.

Lemma onError_NoThrow err info : NoThrow (onError T err info).
Proof. unfold onError. no_throw. Qed.

Lemma onReplyStart_NoThrow : NoThrow (onReplyStart T).
Proof. unfold onReplyStart, Typing.onReplyStart, logVerbose. no_throw. Qed.


Lemma onStreamEvent_NoThrow e : NoThrow (onStreamEvent (replyOptions T) e).
Proof.
  unfold onStreamEvent, handle, replyOptions; simpl.
  destruct e, (draftStream T) eqn:E; try apply NoThrow_ret.
  - apply updateDraftFromPartial_NoThrow.
  - apply onReasoning_NoThrow.
Qed.

Lemma deliverOne_NoThrow payload : NoThrow (deliverOne (dispatcherOptions T) payload).
Proof.
  unfold deliverOne. apply NoThrow_tryCatch. intros err. apply onError_NoThrow.
Qed.

Lemma dispatch_NoThrow stream :
  NoThrow (dispatchReplyWithBufferedBlockDispatcher
             stream (dispatcherOptions T) (replyOptions T)).
Proof.
  unfold dispatchReplyWithBufferedBlockDispatcher.
  apply NoThrow_bind; [apply onReplyStart_NoThrow | intros _].
  apply NoThrow_bind;
    [apply NoThrow_forEach; intros e; apply onStreamEvent_NoThrow | intros _].
  destruct (terminal stream); [|apply NoThrow_ret].
  apply NoThrow_bind; [|intros _; apply NoThrow_ret].
  apply NoThrow_forEach; intros x; apply deliverOne_NoThrow.
Qed.

End Closures.

(** Readings of the trace that see neither the draft nor the chunker nor
    the verbose log are blind to everything the draft closures do. *)
Section Unseen.
Context {X : Type} (f : Event -> list X).
Hypothesis f_update : forall t, f (DraftUpdate t) = [].
Hypothesis f_flush : f DraftFlush = [].
Hypothesis f_stop : f DraftStop = [].
Hypothesis f_send : forall t, f (SendMessageDraft t) = [].
Hypothesis f_log : forall m, f (LogVerbose m) = [].
Hypothesis f_append : forall d, f (ChunkerAppend d) = [].
Hypothesis f_drain : forall b, f (ChunkerDrain b) = [].
Hypothesis f_reset : f ChunkerReset = [].
Variable T : Turn.

Lemma updateDraftFromPartial_unseen text : Emits f [] (updateDraftFromPartial T text).
Proof. unfold updateDraftFromPartial. silent. Qed.

Lemma flushDraft_unseen : Emits f [] (flushDraft T).
Proof. unfold flushDraft. silent. Qed.

Lemma stopDraft_unseen : Emits f [] (stopDraft T).
Proof. unfold stopDraft. silent. Qed.

Lemma onReasoning_unseen ds payload : Emits f [] (onReasoning T ds payload).
Proof. unfold onReasoning. silent. Qed.

Lemma onStreamEvent_unseen e : Emits f [] (onStreamEvent (replyOptions T) e).
Proof.
  unfold onStreamEvent, handle, replyOptions; simpl.
  destruct e, (draftStream T) eqn:E; try apply Emits_ret.
  - apply updateDraftFromPartial_unseen.
  - apply onReasoning_unseen.
Qed.

Lemma deliver_seen payload info :
  Emits f (f (DeliverReplies (pretty (chatId (context (params T)))) [payload]))
        (deliver T payload info).
Proof.
  unfold deliver.
  apply (Emits_bind f [] _).
  - destruct (String.eqb (kind info) "final"); [|apply NoThrow_ret].
    apply NoThrow_bind; [apply flushDraft_NoThrow | intros _; apply stopDraft_NoThrow].
  - destruct (String.eqb (kind info) "final"); [|apply Emits_ret].
    apply Emits_bind_nil; [apply flushDraft_unseen | intros _; apply stopDraft_unseen].
  - intros _. apply Emits_extern.
Qed.
End Unseen.

Section Deliveries.
Variable T : Turn.

Lemma deliverOne_deliveries payload :
  Emits deliveryOf [payload] (deliverOne (dispatcherOptions T) payload).
Proof.
  unfold deliverOne. apply Emits_tryCatch.
  - apply (deliver_seen deliveryOf); reflexivity.
  - intros err. unfold dispatcherOptions, onError; simpl. silent.
Qed.

Lemma onReplyStart_deliveries : Emits deliveryOf [] (onReplyStart T).
Proof. unfold onReplyStart, Typing.onReplyStart, logVerbose. silent. Qed.

Lemma dispatch_deliveries stream :
  Emits deliveryOf (finalPayloads (terminal stream))
        (dispatchReplyWithBufferedBlockDispatcher
           stream (dispatcherOptions T) (replyOptions T)).
Proof.
  unfold dispatchReplyWithBufferedBlockDispatcher.
  apply (Emits_bind deliveryOf [] _);
    [apply onReplyStart_NoThrow | apply onReplyStart_deliveries | intros _].
  apply (Emits_bind deliveryOf [] _);
    [ apply NoThrow_forEach; intros e; apply onStreamEvent_NoThrow
    | apply Emits_forEach_nil; intros e; apply onStreamEvent_unseen; reflexivity
    | intros _ ].
  destruct (terminal stream) as [payloads|]; simpl; [|apply Emits_ret].
  apply Emits_bind_first; [| |intros _; apply Emits_ret].
  - apply NoThrow_forEach; intros x; apply deliverOne_NoThrow.
  - apply Emits_forEach_one; intros x;
      [apply deliverOne_NoThrow | apply deliverOne_deliveries].
Qed.

Lemma clearGroupHistory_deliveries : Emits deliveryOf [] (clearGroupHistory T).
Proof.
  unfold clearGroupHistory, History.clearHistoryEntriesIfEnabled. silent.
Qed.

Lemma runTurn_deliveries stream :
  Emits deliveryOf (finalPayloads (terminal stream)) (runTurn T stream).
Proof.
  unfold runTurn.
  apply Emits_bind_first;
    [apply dispatch_NoThrow | apply dispatch_deliveries | intros r].
  apply Emits_bind_nil; [apply stopDraft_unseen; reflexivity | intros _].
  destruct (negb (queuedFinal r)); [apply clearGroupHistory_deliveries|].
  apply Emits_bind_nil; [|intros _; apply clearGroupHistory_deliveries].
  unfold removeAckReaction. silent.
Qed.
End Deliveries.

(** Only the history clean-up touches the group histories. *)
Section Histories.
Variable T : Turn.

Lemma updateDraftFromPartial_histories text :
  Keeps groupHistories (updateDraftFromPartial T text).
Proof. unfold updateDraftFromPartial. keeps. Qed.

Lemma flushDraft_histories : Keeps groupHistories (flushDraft T).
Proof. unfold flushDraft. keeps. Qed.

Lemma stopDraft_histories : Keeps groupHistories (stopDraft T).
Proof. unfold stopDraft. keeps. Qed.

Lemma deliver_histories payload info : Keeps groupHistories (deliver T payload info).
Proof.
  unfold deliver.
  apply Keeps_bind; [|intros _; apply Keeps_extern; intros ? ?; reflexivity].
  destruct (String.eqb (kind info) "final"); [|apply Keeps_ret].
  apply Keeps_bind; [apply flushDraft_histories | intros _; apply stopDraft_histories].
Qed.

Lemma dispatch_histories stream :
  Keeps groupHistories
        (dispatchReplyWithBufferedBlockDispatcher
           stream (dispatcherOptions T) (replyOptions T)).
Proof.
  unfold dispatchReplyWithBufferedBlockDispatcher.
  apply Keeps_bind; [|intros _].
  { unfold dispatcherOptions, onReplyStart, Typing.onReplyStart, logVerbose; simpl.
    keeps. }
  apply Keeps_bind; [|intros _].
  { apply Keeps_forEach; intros e.
    unfold onStreamEvent, handle, replyOptions; simpl.
    destruct e, (draftStream T) eqn:E; try apply Keeps_ret.
    - apply updateDraftFromPartial_histories.
    - unfold onReasoning. keeps. }
  destruct (terminal stream) as [payloads|]; [|apply Keeps_ret].
  apply Keeps_bind; [|intros _; apply Keeps_ret].
  apply Keeps_forEach; intros x. unfold deliverOne.
  apply Keeps_tryCatch; [apply deliver_histories | intros err].
  unfold dispatcherOptions, onError; simpl. keeps.
Qed.
End Histories.

End DispatchFacts.

(** * The specification, claim by claim *)

Module DispatchSpec.
Import TurnFacts CollaboratorFacts DispatchFacts.

(** [canStreamDraft] and [setupTurn] only read. *)
Lemma canStreamDraft_state w p s : snd (canStreamDraft w p s) = s.
Proof.
  unfold canStreamDraft.
  destruct (negb (String.eqb (streamMode p) "off") &&
            String.eqb (chat_type (msg (context p))) "private" &&
            match resolvedThreadId (context p) with Some _ => true | None => false end);
    [|reflexivity].
  now destruct (resolveBotTopicsEnabled w).
Qed.

Lemma setupTurn_state w p s : snd (setupTurn w p s) = s.
Proof.
  unfold setupTurn, bind. pose proof (canStreamDraft_state w p s) as H.
  destruct (canStreamDraft w p s) as [[can|err] s1]; simpl in *; now subst.
Qed.

Lemma setupTurn_inv w p s T s' :
  setupTurn w p s = (Ok T, s') ->
  exists can, canStreamDraft w p s = (Ok can, s) /\ s' = s /\
    world T = w /\ params T = p /\
    draftStream T =
      (if can then
         Some {| ds_chatId := chatId (context p);
                 ds_draftId :=
                   (if truthyNumber (message_id (msg (context p)))
                    then default 0 (message_id (msg (context p)))
                    else date_now w);
                 ds_maxChars := draftMaxChars (textLimit p);
                 ds_messageThreadId := resolvedThreadId (context p);
                 ds_log := VerboseSink;
                 ds_warn := VerboseSink |}
       else None) /\
    draftChunker T =
      (if can && String.eqb (streamMode p) "block"
       then Some (resolveTelegramDraftStreamingChunking w) else None).
Proof.
  unfold setupTurn, bind. pose proof (canStreamDraft_state w p s) as H.
  destruct (canStreamDraft w p s) as [[can|err] s1]; simpl in *; subst;
    [|discriminate].
  unfold ret. intros [= <- <-]. exists can; simpl.
  repeat split; try reflexivity. now destruct can.
Qed.

(** C10.  The character cap handed to the draft stream is the minimum of
    the configured text limit and 4096; it never exceeds 4096. *)
Theorem draft_cap_is_min_of_text_limit_and_4096 w p s T s' ds :
  setupTurn w p s = (Ok T, s') ->
  draftStream T = Some ds ->
  ds_maxChars ds = Z.min (textLimit p) 4096 /\ ds_maxChars ds <= 4096.
Proof.
  intros Hsetup Hds.
  destruct (setupTurn_inv _ _ _ _ _ Hsetup) as (can & _ & _ & _ & _ & Hstream & _).
  rewrite Hstream in Hds. destruct can; [|discriminate].
  injection Hds as <-. simpl. unfold draftMaxChars. lia.
Qed.

Lemma draft_cap_witness :
  ds_maxChars Samples.blockStream = Z.min (textLimit Samples.blockParams) 4096 /\
  ds_maxChars Samples.blockStream <= 4096.
Proof.
  apply (draft_cap_is_min_of_text_limit_and_4096
           Samples.calm Samples.blockParams (initialState ∅)
           (Samples.blockTurn Samples.calm) (initialState ∅));
    reflexivity.
Defined.


(** Without a draft stream the whole turn makes no call on a draft. *)
Lemma runTurn_without_draft T stream :
  draftStream T = None -> Emits draftCallOf [] (runTurn T stream).
Proof.
  intros Hnone.
  unfold runTurn, dispatchReplyWithBufferedBlockDispatcher, dispatcherOptions,
    replyOptions, stopDraft, clearGroupHistory, removeAckReaction,
    History.clearHistoryEntriesIfEnabled; simpl.
  rewrite Hnone.
  assert (Hdeliver : forall x,
    Emits draftCallOf [] (deliverOne
      {| ReplyDispatcher.deliver := deliver T;
         ReplyDispatcher.onError := onError T;
         ReplyDispatcher.onReplyStart := onReplyStart T |} x)).
  { intros x. unfold deliverOne, deliver, flushDraft, stopDraft, onError; simpl.
    rewrite Hnone. silent. }
  assert (Hevent : forall e,
    Emits draftCallOf []
      (onStreamEvent
         {| onPartialReply := None; onReasoningStream := None;
            disableBlockStreaming := disableBlockStreamingOf T |} e)).
  { intros [payload|payload]; apply Emits_ret. }
  apply Emits_bind_nil; [|intros r].
  - apply Emits_bind_nil;
      [unfold onReplyStart, Typing.onReplyStart, logVerbose; silent | intros _].
    apply Emits_bind_nil; [apply Emits_forEach_nil, Hevent | intros _].
    destruct (terminal stream); [|apply Emits_ret].
    apply Emits_bind_nil; [apply Emits_forEach_nil, Hdeliver | intros _; apply Emits_ret].
  - silent.
Qed.

(** C9.  A draft stream is created exactly when the stream mode is not
    "off", the chat is private, the resolved thread id is a number and the
    bot topics resolve as enabled.  Without a draft stream the partial and
    reasoning handlers are not installed and the turn makes no call on a
    draft or its transport. *)
Theorem draft_stream_created_iff_four_conditions w p s :
  ((exists T s', setupTurn w p s = (Ok T, s') /\ is_Some (draftStream T)) <->
   (streamMode p <> "off" /\
    chat_type (msg (context p)) = "private" /\
    is_Some (resolvedThreadId (context p)) /\
    resolveBotTopicsEnabled w = Ok true)) /\
  (forall T, draftStream T = None ->
     onPartialReply (replyOptions T) = None /\
     onReasoningStream (replyOptions T) = None /\
     forall stream s0,
       draftCalls (trace (snd (runTurn T stream s0))) = draftCalls (trace s0)).
Proof.
  split.
  - split.
    + intros (T & s' & Hsetup & Hsome).
      destruct (setupTurn_inv _ _ _ _ _ Hsetup) as (can & Hcan & _ & _ & _ & Hstream & _).
      rewrite Hstream in Hsome. destruct can; [|now destruct Hsome as [? ?]].
      unfold canStreamDraft in Hcan.
      destruct (String.eqb_spec (streamMode p) "off") as [|Hoff]; simpl in Hcan;
        [discriminate|].
      destruct (String.eqb_spec (chat_type (msg (context p))) "private")
        as [Hpriv|]; simpl in Hcan; [|discriminate].
      destruct (resolvedThreadId (context p)) as [n|]; simpl in Hcan; [|discriminate].
      destruct (resolveBotTopicsEnabled w) as [[|]|]; try discriminate.
      repeat split; eauto.
    + intros (Hoff & Hpriv & [n Hthread] & Htopics).
      unfold setupTurn, bind, canStreamDraft.
      rewrite Hpriv, Hthread, Htopics.
      destruct (String.eqb_spec (streamMode p) "off") as [|_]; [contradiction|].
      simpl. eexists _, _. split; [reflexivity|]. simpl. eauto.
  - intros T Hnone. unfold replyOptions; simpl. rewrite Hnone.
    repeat split. intros stream s0.
    pose proof (runTurn_without_draft T stream Hnone s0) as H.
    unfold draftCalls. now rewrite H, app_nil_r.
Qed.

Lemma draft_stream_created_witness :
  (exists T s',
     setupTurn Samples.calm Samples.blockParams (initialState ∅) = (Ok T, s') /\
     is_Some (draftStream T)) /\
  draftCalls
    (trace (snd (runTurn Samples.groupTurn
                   {| events := Samples.partials ["Hel"; "Hello"];
                      terminal := Final [Samples.reply "Hello"] |}
                   (initialState ∅)))) = [].
Proof.
  split.
  - apply (proj1 (draft_stream_created_iff_four_conditions
                    Samples.calm Samples.blockParams (initialState ∅))).
    repeat split; [discriminate | now exists 1].
  - apply (proj2 (draft_stream_created_iff_four_conditions
                    Samples.calm Samples.blockParams (initialState ∅))
             Samples.groupTurn).
    reflexivity.
Defined.

(** The outcome the dispatcher reports. *)
Lemma dispatch_result T stream s :
  fst (dispatchReplyWithBufferedBlockDispatcher
         stream (dispatcherOptions T) (replyOptions T) s)
  = Ok {| queuedFinal :=
            match terminal stream with Final _ => true | NoReply => false end |}.
Proof.
  unfold dispatchReplyWithBufferedBlockDispatcher.
  destruct (NoThrow_run (ReplyDispatcher.onReplyStart (dispatcherOptions T)) s
              (onReplyStart_NoThrow T)) as [[] H1].
  rewrite (bind_ok _ _ _ _ _ H1).
  set (s1 := snd (ReplyDispatcher.onReplyStart (dispatcherOptions T) s)).
  destruct (NoThrow_run (forEach (onStreamEvent (replyOptions T)) (events stream)) s1)
    as [[] H2].
  { apply NoThrow_forEach; intros e; apply onStreamEvent_NoThrow. }
  rewrite (bind_ok _ _ _ _ _ H2).
  set (s2 := snd (forEach (onStreamEvent (replyOptions T)) (events stream) s1)).
  destruct (terminal stream) as [payloads|]; [|reflexivity].
  destruct (NoThrow_run (forEach (deliverOne (dispatcherOptions T)) payloads) s2)
    as [[] H3].
  { apply NoThrow_forEach; intros x; apply deliverOne_NoThrow. }
  now rewrite (bind_ok _ _ _ _ _ H3).
Qed.

(** C4.  A stream that ends with the terminal "none" event invokes the
    delivery zero times and reports [queuedFinal: false]; one that ends with
    "final" delivers each final payload exactly once.  Over the whole turn
    the deliveries are exactly the final payloads. *)
Theorem none_delivers_nothing_final_delivers_each_once T stream s :
  let run := dispatchReplyWithBufferedBlockDispatcher
               stream (dispatcherOptions T) (replyOptions T) s in
  match terminal stream with
  | NoReply =>
      fst run = Ok {| queuedFinal := false |} /\
      deliveries (trace (snd run)) = deliveries (trace s) /\
      deliveries (trace (snd (runTurn T stream s))) = deliveries (trace s)
  | Final payloads =>
      fst run = Ok {| queuedFinal := true |} /\
      deliveries (trace (snd run)) = deliveries (trace s) ++ payloads /\
      deliveries (trace (snd (runTurn T stream s))) = deliveries (trace s) ++ payloads
  end.
Proof.
  intros run.
  pose proof (dispatch_result T stream s) as Hres.
  pose proof (dispatch_deliveries T stream s) as Hdel.
  pose proof (runTurn_deliveries T stream s) as Hturn.
  fold run in Hres, Hdel. unfold deliveries.
  destruct (terminal stream) as [payloads|]; simpl in *.
  - auto.
  - rewrite app_nil_r in Hdel, Hturn. auto.
Qed.

(** What one call of [deliver] does: the draft is flushed and stopped when
    the payload is final, then [deliverReplies] is called once. *)
Lemma deliver_run T payload info s :
  exists s1,
    (if String.eqb (kind info) "final"
     then flushDraft T ;; stopDraft T else ret tt) s = (Ok tt, s1) /\
    deliver T payload info s =
      (deliverReplies (world T) (trace s1) [payload],
       set_trace
         (trace s1 ++ [DeliverReplies (pretty (chatId (context (params T)))) [payload]])
         s1).
Proof.
  set (pre := if String.eqb (kind info) "final"
              then flushDraft T ;; stopDraft T else ret tt).
  assert (Hpre : NoThrow pre).
  { unfold pre. destruct (String.eqb (kind info) "final"); [|apply NoThrow_ret].
    apply NoThrow_bind; [apply flushDraft_NoThrow | intros _; apply stopDraft_NoThrow]. }
  destruct (NoThrow_run pre s Hpre) as [[] Hrun].
  exists (snd (pre s)). split; [exact Hrun|].
  unfold deliver. fold pre. rewrite (bind_ok _ _ _ _ _ Hrun).
  unfold extern. now destruct (deliverReplies (world T) (trace (snd (pre s))) [payload]) as [[]|].
Qed.

(** C7.  Every payload of a terminal "final" event is handed to the
    delivery once, in the order of the event; a failed delivery is reported
    to the error sink with the kind of the payload and the dispatch goes on
    with the next one. *)
Theorem final_payloads_delivered_in_order_and_isolated T :
  (forall evs payloads s,
     let run := dispatchReplyWithBufferedBlockDispatcher
                  {| events := evs; terminal := Final payloads |}
                  (dispatcherOptions T) (replyOptions T) s in
     fst run = Ok {| queuedFinal := true |} /\
     deliveries (trace (snd run)) = deliveries (trace s) ++ payloads) /\
  (forall payload s,
     exists s1,
       deliverOne (dispatcherOptions T) payload s =
         (Ok tt,
          set_trace
            (trace s1
             ++ DeliverReplies (pretty (chatId (context (params T)))) [payload]
             :: match deliverReplies (world T) (trace s1) [payload] with
                | Ok _ => []
                | Thrown err =>
                    if runtime_error (params T)
                    then [RuntimeError
                            (danger (world T)
                               ("telegram final reply failed: " +:+ err))]
                    else []
                end)
            s1)).
Proof.
  split.
  - intros evs payloads s run.
    pose proof (dispatch_result T {| events := evs; terminal := Final payloads |} s) as Hres.
    pose proof (dispatch_deliveries T {| events := evs; terminal := Final payloads |} s)
      as Hdel.
    split; [exact Hres | exact Hdel].
  - intros payload s.
    destruct (deliver_run T payload {| kind := "final" |} s) as (s1 & _ & Hrun).
    exists s1. unfold deliverOne, tryCatch; simpl. rewrite Hrun.
    destruct (deliverReplies (world T) (trace s1) [payload]) as [[]|err].
    + reflexivity.
    + unfold onError; simpl. destruct (runtime_error (params T)); simpl.
      * unfold emit, modify; simpl. now rewrite <- List.app_assoc.
      * reflexivity.
Qed.

(** [dispatchTelegramMessage] is [runTurn] on the turn that was set up. *)
Lemma dispatch_inv w p stream s r s' :
  dispatchTelegramMessage w p stream s = (Ok r, s') ->
  exists T, setupTurn w p s = (Ok T, s) /\ runTurn T stream s = (Ok r, s').
Proof.
  unfold dispatchTelegramMessage, bind.
  pose proof (setupTurn_state w p s) as Hs.
  destruct (setupTurn w p s) as [[T|err] s1]; simpl in Hs; subst; [|discriminate].
  intros H. now exists T.
Qed.

Lemma clearGroupHistory_run T s :
  let ctx := context (params T) in
  let key := default "" (historyKey ctx) in
  clearGroupHistory T s =
    (Ok tt,
     if isGroup ctx && truthyText (historyKey ctx)
     then set_groupHistories
            (History.clearIfExceeded (groupHistories s) key (historyLimit ctx))
            (set_trace (trace s ++ [ClearHistoryEntriesIfEnabled key (historyLimit ctx)]) s)
     else s).
Proof.
  unfold clearGroupHistory.
  now destruct (isGroup (context (params T)) && truthyText (historyKey (context (params T)))).
Qed.

(** The group histories after a turn. *)
Lemma runTurn_histories T stream s :
  let ctx := context (params T) in
  groupHistories (snd (runTurn T stream s)) =
    if isGroup ctx && truthyText (historyKey ctx)
    then History.clearIfExceeded (groupHistories s)
           (default "" (historyKey ctx)) (historyLimit ctx)
    else groupHistories s.
Proof.
  intros ctx. unfold runTurn.
  set (d := dispatchReplyWithBufferedBlockDispatcher stream (dispatcherOptions T)
              (replyOptions T)).
  destruct (NoThrow_run d s (dispatch_NoThrow T stream)) as [r Hd].
  pose proof (dispatch_histories T stream s) as Hh1. fold d in Hh1.
  rewrite (bind_ok _ _ _ _ _ Hd).
  destruct (NoThrow_run (stopDraft T) (snd (d s)) (stopDraft_NoThrow T)) as [[] Hs].
  pose proof (stopDraft_histories T (snd (d s))) as Hh2.
  rewrite (bind_ok _ _ _ _ _ Hs).
  set (s2 := snd (stopDraft T (snd (d s)))) in *.
  assert (Hh : groupHistories s2 = groupHistories s) by congruence.
  destruct (negb (queuedFinal r)).
  - rewrite clearGroupHistory_run. fold ctx.
    destruct (isGroup ctx && truthyText (historyKey ctx)); simpl; now rewrite Hh.
  - unfold removeAckReaction, bind, emit, modify.
    rewrite clearGroupHistory_run. fold ctx.
    destruct (isGroup ctx && truthyText (historyKey ctx)); simpl; now rewrite Hh.
Qed.

(** C5, as the code has it.  The history clean-up of a group context does
    not depend on whether a reply was produced: after every turn that
    returns, the group histories are those before the turn with the entries
    of the history key cleared when they exceed the limit, provided the
    context is a group with a history key; otherwise they are unchanged. *)
Theorem group_history_cleared_after_every_turn w p stream s s' :
  dispatchTelegramMessage w p stream s = (Ok tt, s') ->
  let ctx := context p in
  groupHistories s' =
    if isGroup ctx && truthyText (historyKey ctx)
    then History.clearIfExceeded (groupHistories s)
           (default "" (historyKey ctx)) (historyLimit ctx)
    else groupHistories s.
Proof.
  intros Hrun ctx.
  destruct (dispatch_inv _ _ _ _ _ _ Hrun) as (T & Hsetup & Hturn).
  destruct (setupTurn_inv _ _ _ _ _ Hsetup) as (_ & _ & _ & _ & Hp & _).
  pose proof (runTurn_histories T stream s) as H.
  rewrite Hturn, Hp in H. exact H.
Qed.

(** C5, as the claim states it, fails: a group turn whose final payload is
    delivered successfully still has its buffered history entries cleared. *)
Lemma history_cleared_after_successful_final_delivery :
  let stream := {| events := []; terminal := Final [Samples.reply "done"] |} in
  let run := dispatchTelegramMessage Samples.calm Samples.groupParams stream
               (initialState Samples.groupHistory) in
  fst run = Ok tt /\
  deliveries (trace (snd run)) = [Samples.reply "done"] /\
  historyClears (trace (snd run)) = [("group:-1001", 1)] /\
  Samples.groupHistory !! "group:-1001" =
    Some [ {| entry_sender := "ann"; entry_body := "hi" |};
           {| entry_sender := "bob"; entry_body := "hello" |} ] /\
  groupHistories (snd run) !! "group:-1001" = Some [] /\
  groupHistories (snd run) <> Samples.groupHistory.
Proof.
  cbv zeta.
  assert (H : groupHistories
                (snd (dispatchTelegramMessage Samples.calm Samples.groupParams
                        {| events := []; terminal := Final [Samples.reply "done"] |}
                        (initialState Samples.groupHistory))) !! "group:-1001"
              = Some []) by (vm_compute; reflexivity).
  repeat split; try (vm_compute; reflexivity).
  intros E. rewrite E in H. vm_compute in H. discriminate.
Qed.

Lemma group_history_cleared_witness :
  groupHistories
    (snd (dispatchTelegramMessage Samples.calm Samples.groupParams
            {| events := []; terminal := NoReply |}
            (initialState Samples.groupHistory)))
  = History.clearIfExceeded Samples.groupHistory "group:-1001" 1.
Proof.
  apply (group_history_cleared_after_every_turn
           Samples.calm Samples.groupParams {| events := []; terminal := NoReply |}
           (initialState Samples.groupHistory)
           (snd (dispatchTelegramMessage Samples.calm Samples.groupParams
                   {| events := []; terminal := NoReply |}
                   (initialState Samples.groupHistory)))).
  reflexivity.
Defined.

(** What [stop()] does to a state. *)
Lemma stop_run w p s :
  DraftStream.stop w p s =
    (Ok tt,
     set_draftState
       {| pendingText := None;
          lastSentText := lastSentText (draftState s);
          stopped := true |}
       (set_trace (trace s ++ [DraftStop]) s)).
Proof. reflexivity. Qed.

Lemma transportCalls_stop tr : transportCalls (tr ++ [DraftStop]) = transportCalls tr.
Proof. rewrite transportCalls_app. simpl. apply app_nil_r. Qed.

(** After a final delivery the draft of the turn is stopped and has nothing
    pending. *)
Lemma deliver_final_stops T ds payload s :
  draftStream T = Some ds ->
  let s1 := snd (deliver T payload {| kind := "final" |} s) in
  pendingText (draftState s1) = None /\ stopped (draftState s1) = true.
Proof.
  intros Hds s1.
  destruct (deliver_run T payload {| kind := "final" |} s) as (s0 & Hpre & Hrun).
  subst s1. rewrite Hrun. simpl in *.
  destruct (NoThrow_run (flushDraft T) s (flushDraft_NoThrow T)) as [[] Hf].
  rewrite (bind_ok _ _ _ _ _ Hf) in Hpre.
  unfold stopDraft in Hpre. rewrite Hds, stop_run in Hpre.
  injection Hpre as <-. now simpl.
Qed.

(** C6.  [stop()] is idempotent: a second [stop()], or a [stop()] after
    [flush()], returns normally and makes no transport call; the second one
    changes nothing but the record of the call.  The same holds for the
    terminating [stop()] of the dispatcher after a final delivery that has
    already stopped the draft. *)
Theorem stop_is_idempotent w p s :
  (let s1 := snd (DraftStream.stop w p s) in
   DraftStream.stop w p s1 = (Ok tt, set_trace (trace s1 ++ [DraftStop]) s1) /\
   transportCalls (trace (snd (DraftStream.stop w p s1))) = transportCalls (trace s1)) /\
  (let s1 := snd (DraftStream.flush w p s) in
   fst (DraftStream.stop w p s1) = Ok tt /\
   transportCalls (trace (snd (DraftStream.stop w p s1))) = transportCalls (trace s1)) /\
  (forall T payload,
     let s1 := snd (deliver T payload {| kind := "final" |} s) in
     fst (stopDraft T s1) = Ok tt /\
     transportCalls (trace (snd (stopDraft T s1))) = transportCalls (trace s1) /\
     draftState (snd (stopDraft T s1)) = draftState s1).
Proof.
  repeat split.
  - rewrite !stop_run; simpl. apply transportCalls_stop.
  - rewrite stop_run; simpl. apply transportCalls_stop.
  - unfold stopDraft. now destruct (draftStream T).
  - unfold stopDraft. destruct (draftStream T); [|reflexivity].
    rewrite stop_run; simpl. apply transportCalls_stop.
  - unfold stopDraft. destruct (draftStream T) as [ds|] eqn:Hds; [|reflexivity].
    destruct (deliver_final_stops T ds payload s Hds) as [Hp Hs].
    rewrite stop_run; simpl.
    destruct (draftState (snd (deliver T payload {| kind := "final" |} s)))
      as [pending sent halted]; simpl in *. now subst.
Qed.





(** ** The order of the calls at a final delivery *)

Lemma flushDraft_Extends T : Extends (flushDraft T).
Proof. unfold flushDraft. extends. Qed.

Lemma stopDraft_Extends T : Extends (stopDraft T).
Proof. unfold stopDraft. extends. Qed.

Lemma update_calls w ds text :
  Emits dispatcherCallOf [DraftUpdate text] (DraftStream.update w ds text).
Proof.
  unfold DraftStream.update.
  apply (Emits_bind_first dispatcherCallOf);
    [apply NoThrow_emit | apply (Emits_emit dispatcherCallOf) | intros _].
  silent.
Qed.

Lemma flush_calls w ds : Emits dispatcherCallOf [DraftFlush] (DraftStream.flush w ds).
Proof.
  unfold DraftStream.flush.
  apply (Emits_bind_first dispatcherCallOf);
    [apply NoThrow_emit | apply (Emits_emit dispatcherCallOf) | intros _].
  silent.
Qed.

Lemma truthy_app_r (a b : string) : truthy b = true -> truthy (a +:+ b) = true.
Proof.
  rewrite !truthy_length, str_length_app. lia.
Qed.


Lemma update_summary w ds text s :
  exists s',
    DraftStream.update w ds text s = (Ok tt, s') /\
    render s' = render s /\
    dispatcherCalls (trace s') = dispatcherCalls (trace s) ++ [DraftUpdate text].
Proof.
  destruct (NoThrow_run _ s (update_NoThrow w ds text)) as [[] Hrun].
  eexists; split; [exact Hrun|]. split.
  - apply update_Keeps_render.
  - apply update_calls.
Qed.

Lemma flush_Keeps_render w ds : Keeps render (DraftStream.flush w ds).
Proof. unfold DraftStream.flush. keeps. Qed.

Lemma flush_summary w ds s :
  exists s',
    DraftStream.flush w ds s = (Ok tt, s') /\
    render s' = render s /\
    dispatcherCalls (trace s') = dispatcherCalls (trace s) ++ [DraftFlush].
Proof.
  destruct (NoThrow_run _ s (flush_NoThrow w ds)) as [[] Hrun].
  eexists; split; [exact Hrun|]. split.
  - apply flush_Keeps_render.
  - apply flush_calls.
Qed.

(** What [flushDraft] does with an active draft: the forced drain, the
    last update, then the flush. *)
Lemma flushDraft_summary T ds s :
  draftStream T = Some ds ->
  exists s',
    flushDraft T s = (Ok tt, s') /\
    dispatcherCalls (trace s') =
      dispatcherCalls (trace s) ++ forcedDrainCalls T s ++ [DraftFlush] /\
    lastPartialText s' = lastPartialText s /\
    draftText s' = draftText s +:+ remainder T s /\
    (is_Some (draftChunker T) -> Chunker.buffer (chunkerState s') = "").
Proof.
  intros Hds. unfold flushDraft, forcedDrainCalls, remainder. rewrite Hds.
  destruct (draftChunker T) as [cfg|].
  - unfold chunkerHasBuffered. run.
    destruct (Chunker.hasBuffered (chunkerState s)) eqn:Hbuf.
    + unfold chunkerDrain, chunkerReset, Chunker.drain. run. simpl. rewrite Hbuf.
      cbn [fst snd forEach]. run. simpl.
      rewrite (truthy_app_r _ _ Hbuf).
      match goal with
      | |- context [bind (DraftStream.update ?w ?d ?t) ?k ?s0] =>
          destruct (update_summary w d t s0) as (s1 & Hu & Hr1 & Hc1);
          rewrite (bind_ok _ _ _ _ _ Hu)
      end.
      destruct (flush_summary (world T) ds s1) as (s2 & Hf & Hr2 & Hc2).
      exists s2. split; [exact Hf|].
      rewrite Hr1 in Hr2. unfold render in Hr2. simpl in Hr2.
      injection Hr2 as Hl Hd Hc.
      rewrite Hc2, Hc1, Hl, Hd, Hc. simpl.
      unfold dispatcherCalls. rewrite !flat_map_app. simpl.
      rewrite <- !List.app_assoc. simpl. repeat split; reflexivity.
    + run.
      destruct (flush_summary (world T) ds s) as (s2 & Hf & Hr2 & Hc2).
      exists s2. split; [exact Hf|].
      unfold render in Hr2. injection Hr2 as Hl Hd Hc.
      rewrite Hc2, Hl, Hd, Hc. apply truthy_false in Hbuf. rewrite Hbuf.
      rewrite str_app_empty_r. repeat split; reflexivity.
  - run.
    destruct (flush_summary (world T) ds s) as (s2 & Hf & Hr2 & Hc2).
    exists s2. split; [exact Hf|].
    unfold render in Hr2. injection Hr2 as Hl Hd Hc.
    rewrite Hc2, Hl, Hd, str_app_empty_r.
    repeat split; try reflexivity. now intros [? ?].
Qed.

(** C3.  At a final delivery with an active draft the calls come in this
    order: the forced drain of the Chunk Splitter, whose remainder is
    appended to the draft text, one last [update] when the draft text
    changed, [flush()], [stop()], and only then [deliverReplies]; nothing is
    pending on the draft when the delivery is made. *)
Theorem final_delivery_follows_drain_update_flush_stop T ds payload s :
  draftStream T = Some ds ->
  let s' := snd (deliver T payload {| kind := "final" |} s) in
  exists evs,
    trace s' =
      trace s ++ evs
      ++ [DeliverReplies (pretty (chatId (context (params T)))) [payload]] /\
    dispatcherCalls evs = forcedDrainCalls T s ++ [DraftFlush; DraftStop] /\
    draftText s' = draftText s +:+ remainder T s /\
    pendingText (draftState s') = None.
Proof.
  intros Hds s'.
  destruct (deliver_final_stops T ds payload s Hds) as [Hpending _].
  fold s' in Hpending.
  destruct (deliver_run T payload {| kind := "final" |} s) as (s1 & Hpre & Hrun).
  simpl in Hpre.
  destruct (flushDraft_summary T ds s Hds) as (sf & Hf & Hcalls & _ & Htext & _).
  rewrite (bind_ok _ _ _ _ _ Hf) in Hpre.
  unfold stopDraft in Hpre. rewrite Hds, stop_run in Hpre.
  injection Hpre as <-.
  destruct (flushDraft_Extends T s) as [evs Hevs]. rewrite Hf in Hevs; simpl in Hevs.
  exists (evs ++ [DraftStop]).
  subst s'. rewrite Hrun; simpl. rewrite Hevs.
  split; [now rewrite <- !List.app_assoc|].
  split; [|split; [exact Htext | rewrite Hrun in Hpending; exact Hpending]].
  rewrite Hevs in Hcalls. unfold dispatcherCalls in *.
  rewrite flat_map_app in Hcalls. apply app_inv_head in Hcalls.
  rewrite flat_map_app, Hcalls. simpl. now rewrite <- !List.app_assoc.
Qed.

(** ** Rendering from partial texts *)

Lemma update_updates w ds text :
  Emits draftUpdateOf [text] (DraftStream.update w ds text).
Proof.
  unfold DraftStream.update.
  apply (Emits_bind_first draftUpdateOf);
    [apply NoThrow_emit | apply (Emits_emit draftUpdateOf) | intros _].
  silent.
Qed.

(** The [emit] callback of the non-forced drain, over the chunks of one
    drain. *)
Lemma emitLoop_summary w ds chunks s :
  exists s',
    forEach (fun chunk =>
               modify (fun s0 => set_draftText (draftText s0 +:+ chunk) s0) ;;
               current <- gets draftText ;;
               DraftStream.update w ds current) chunks s = (Ok tt, s') /\
    lastPartialText s' = lastPartialText s /\
    draftText s' = draftText s +:+ concat chunks /\
    chunkerState s' = chunkerState s /\
    draftUpdates (trace s') = draftUpdates (trace s) ++ runningTexts (draftText s) chunks.
Proof.
  revert s; induction chunks as [|c chunks IH]; intros s.
  - exists s. cbn [forEach runningTexts]. rewrite concat_nil, str_app_empty_r, app_nil_r.
    repeat split; reflexivity.
  - cbn [forEach runningTexts]. run. fields.
    match goal with
    | |- context [bind (DraftStream.update ?w ?d ?t) ?k ?s0] =>
        destruct (NoThrow_run _ s0 (update_NoThrow w d t)) as [[] Hu];
        pose proof (update_Keeps_render w d t s0) as Hr;
        pose proof (update_updates w d t s0) as Hup;
        rewrite (bind_ok _ _ _ _ _ Hu);
        destruct (IH (snd (DraftStream.update w d t s0)))
          as (s' & Hrun & Hl & Hd & Hc & Ht)
    end.
    exists s'. split; [exact Hrun|].
    unfold render in Hr. fields. injection Hr as Hl0 Hd0 Hc0.
    rewrite Hl, Hd, Hc, Ht, Hl0, Hd0, Hc0.
    unfold draftUpdates. rewrite Hup. simpl.
    rewrite concat_cons, str_app_assoc, <- List.app_assoc.
    repeat split; reflexivity.
Qed.

(** A partial text that extends the previous one: its delta goes through
    the chunker. *)
Lemma partial_extends T ds cfg text s :
  ChunkedTurn T ds cfg ->
  text <> lastPartialText s ->
  startsWith text (lastPartialText s) = true ->
  let delta := slice_from (String.length (lastPartialText s)) text in
  let drained := Chunker.drain cfg false (Chunker.append delta (chunkerState s)) in
  exists s',
    updateDraftFromPartial T (Some text) s = (Ok tt, s') /\
    lastPartialText s' = text /\
    draftText s' = draftText s +:+ concat (fst drained) /\
    chunkerState s' = snd drained /\
    draftUpdates (trace s') =
      draftUpdates (trace s) ++ runningTexts (draftText s) (fst drained).
Proof.
  intros (Hds & Hch & Hmode) Hneq Hpre delta drained.
  pose proof (startsWith_split _ _ Hpre) as Hsplit. fold delta in Hsplit.
  assert (Hdelta : truthy delta = true).
  { destruct (truthy delta) eqn:E; [reflexivity|]. apply truthy_false in E.
    rewrite E, str_app_empty_r in Hsplit. congruence. }
  assert (Htext : truthy text = true).
  { rewrite <- Hsplit. now apply truthy_app_r. }
  apply String.eqb_neq in Hmode.
  unfold updateDraftFromPartial. rewrite Hds, Hch, Hmode, Htext. cbn [negb]. run.
  destruct (String.eqb_spec text (lastPartialText s)) as [|_]; [contradiction|].
  rewrite Hpre. run. fold delta. rewrite Hdelta. cbn [negb].
  unfold chunkerAppend, chunkerDrain. run. simpl.
  fold drained.
  match goal with
  | |- context [forEach ?f ?l ?s0] =>
      destruct (emitLoop_summary (world T) ds l s0) as (s' & Hrun & Hl & Hd & Hc & Ht)
  end.
  exists s'. split; [exact Hrun|]. simpl in *.
  rewrite Hl, Hd, Hc, Ht. unfold draftUpdates. rewrite !flat_map_app. simpl.
  rewrite !app_nil_r. repeat split; reflexivity.
Qed.

(** A partial text that does not extend the previous one: the chunker and
    the draft text are reset and the whole text goes through the chunker. *)
Lemma partial_restarts T ds cfg text s :
  ChunkedTurn T ds cfg ->
  truthy text = true ->
  startsWith text (lastPartialText s) = false ->
  let drained := Chunker.drain cfg false (Chunker.append text Chunker.empty) in
  exists s',
    updateDraftFromPartial T (Some text) s = (Ok tt, s') /\
    lastPartialText s' = text /\
    draftText s' = concat (fst drained) /\
    chunkerState s' = snd drained /\
    draftUpdates (trace s') =
      draftUpdates (trace s) ++ runningTexts "" (fst drained).
Proof.
  intros (Hds & Hch & Hmode) Htext Hpre drained.
  apply String.eqb_neq in Hmode.
  unfold updateDraftFromPartial. rewrite Hds, Hch, Hmode, Htext. cbn [negb]. run.
  destruct (String.eqb_spec text (lastPartialText s)) as [E|_].
  { rewrite <- E in Hpre. unfold startsWith in Hpre.
    assert (String.prefix text text = true) as Hrefl.
    { clear. induction text as [|c t IH]; simpl; [reflexivity|].
      destruct (ascii_dec c c); [exact IH | congruence]. }
    congruence. }
  rewrite Hpre. unfold chunkerReset. run. rewrite Htext. cbn [negb].
  unfold chunkerAppend, chunkerDrain. run. simpl.
  fold drained.
  match goal with
  | |- context [forEach ?f ?l ?s0] =>
      destruct (emitLoop_summary (world T) ds l s0) as (s' & Hrun & Hl & Hd & Hc & Ht)
  end.
  exists s'. split; [exact Hrun|]. simpl in *.
  rewrite Hl, Hd, Hc, Ht. unfold draftUpdates. rewrite !flat_map_app. simpl.
  rewrite !app_nil_r. repeat split; reflexivity.
Qed.

Lemma str_app_eq_empty (a b : string) : a +:+ b = "" -> a = "".
Proof. destruct a; [reflexivity|]. rewrite str_app_cons. discriminate. Qed.

Lemma drained_soft cfg delta c :
  concat (fst (Chunker.drain cfg false (Chunker.append delta c)))
  +:+ Chunker.buffer (snd (Chunker.drain cfg false (Chunker.append delta c)))
  = Chunker.buffer c +:+ delta.
Proof. now rewrite ChunkerFacts.drain_soft_concat. Qed.

(** Whatever the partial text, the draft text followed by the chunker's
    buffer is the last partial text seen. *)
Lemma partial_keeps_rendered T ds cfg text s :
  ChunkedTurn T ds cfg ->
  rendered s = lastPartialText s ->
  exists s',
    updateDraftFromPartial T text s = (Ok tt, s') /\
    rendered s' = lastPartialText s' /\
    lastPartialText s' = (if truthyText text then default "" text else lastPartialText s).
Proof.
  intros HT Hinv. pose proof HT as (Hds & Hch & Hmode).
  destruct text as [text|]; simpl.
  2:{ exists s. unfold updateDraftFromPartial. now rewrite Hds. }
  destruct (truthy text) eqn:Htext.
  2:{ exists s. unfold updateDraftFromPartial. now rewrite Hds, Htext. }
  destruct (String.eqb_spec text (lastPartialText s)) as [Heq|Hneq].
  { exists s. unfold updateDraftFromPartial. rewrite Hds, Htext. cbn [negb]. run.
    subst text. rewrite String.eqb_refl. repeat split; auto. }
  destruct (startsWith text (lastPartialText s)) eqn:Hpre.
  - destruct (partial_extends T ds cfg text s HT Hneq Hpre)
      as (s' & Hrun & Hl & Hd & Hc & _).
    exists s'. split; [exact Hrun|]. split; [|exact Hl].
    unfold rendered. rewrite Hd, Hc, Hl, str_app_assoc, drained_soft.
    rewrite <- str_app_assoc. unfold rendered in Hinv. rewrite Hinv.
    now apply startsWith_split.
  - destruct (partial_restarts T ds cfg text s HT Htext Hpre)
      as (s' & Hrun & Hl & Hd & Hc & _).
    exists s'. split; [exact Hrun|]. split; [|exact Hl].
    unfold rendered. rewrite Hd, Hc, Hl, drained_soft. reflexivity.
Qed.

(** A stream that grows by the given deltas. *)
Lemma growing_stream_rendered T ds cfg deltas :
  ChunkedTurn T ds cfg ->
  forall s,
    rendered s = lastPartialText s ->
    exists s',
      onPartialTexts T (runningTexts (lastPartialText s) deltas) s = (Ok tt, s') /\
      rendered s' = lastPartialText s' /\
      lastPartialText s' = lastPartialText s +:+ concat deltas.
Proof.
  intros HT. induction deltas as [|d deltas IH]; intros s Hinv.
  - exists s. rewrite concat_nil, str_app_empty_r. repeat split; auto.
  - unfold onPartialTexts. cbn [runningTexts forEach].
    destruct (partial_keeps_rendered T ds cfg (Some (lastPartialText s +:+ d)) s HT Hinv)
      as (s1 & Hrun & Hinv1 & Hl1).
    assert (Hlast : lastPartialText s1 = lastPartialText s +:+ d).
    { rewrite Hl1. simpl. destruct (truthy (lastPartialText s +:+ d)) eqn:E;
        [reflexivity|].
      apply truthy_false in E. rewrite E. now apply str_app_eq_empty in E. }
    rewrite (bind_ok _ _ _ _ _ Hrun). rewrite <- Hlast.
    destruct (IH s1 Hinv1) as (s' & Hrun' & Hinv' & Hl').
    exists s'. split; [exact Hrun'|]. split; [exact Hinv'|].
    now rewrite Hl', Hlast, concat_cons, str_app_assoc.
Qed.

(** ... and is flushed at the end of the turn. *)
Lemma growing_stream_flushed T ds cfg deltas s :
  ChunkedTurn T ds cfg ->
  rendered s = lastPartialText s ->
  let s1 := snd (onPartialTexts T (runningTexts (lastPartialText s) deltas) s) in
  let s2 := snd (flushDraft T s1) in
  draftText s2 = lastPartialText s +:+ concat deltas /\
  Chunker.buffer (chunkerState s2) = "".
Proof.
  intros HT Hinv s1 s2.
  destruct (growing_stream_rendered T ds cfg deltas HT s Hinv)
    as (s' & Hrun & Hinv' & Hl').
  subst s2 s1. rewrite Hrun. cbn [snd].
  destruct HT as (Hds & Hch & _).
  destruct (flushDraft_summary T ds s' Hds) as (sf & Hf & _ & _ & Htext & Hbuf).
  rewrite Hf; cbn [snd]. split.
  + rewrite Htext. unfold remainder. rewrite Hch.
    unfold rendered in Hinv'. now rewrite Hinv', Hl'.
  + apply Hbuf. rewrite Hch. eauto.
Qed.

(** ** The calls on the chunker, replayed *)

Lemma replay_app cfg a b c :
  replay cfg (a ++ b) c =
    (fst (replay cfg a c) ++ fst (replay cfg b (snd (replay cfg a c))),
     snd (replay cfg b (snd (replay cfg a c)))).
Proof.
  revert c; induction a as [|e a IH]; intros c.
  - simpl. now destruct (replay cfg b c).
  - simpl. destruct (replayCall cfg e c) as [ps c1].
    rewrite IH. destruct (replay cfg a c1) as [more c2]. simpl.
    now rewrite List.app_assoc.
Qed.

Lemma replay_chunkerCalls cfg tr c : replay cfg (chunkerCalls tr) c = replay cfg tr c.
Proof.
  revert c; induction tr as [|e tr IH]; intros c; [reflexivity|].
  change (chunkerCalls (e :: tr)) with (chunkerCallOf e ++ chunkerCalls tr).
  destruct e; simpl; rewrite IH; try reflexivity; now destruct (replay cfg tr c).
Qed.

Lemma appendedDeltas_chunkerCalls tr : appendedDeltas (chunkerCalls tr) = appendedDeltas tr.
Proof.
  induction tr as [|e tr IH]; [reflexivity|].
  change (chunkerCalls (e :: tr)) with (chunkerCallOf e ++ chunkerCalls tr).
  unfold appendedDeltas in *. rewrite flat_map_app, IH. now destruct e.
Qed.

Lemma chunkerCalls_dispatcherCalls tr : chunkerCalls (dispatcherCalls tr) = chunkerCalls tr.
Proof.
  induction tr as [|e tr IH]; [reflexivity|].
  change (dispatcherCalls (e :: tr)) with (dispatcherCallOf e ++ dispatcherCalls tr).
  unfold chunkerCalls in *. rewrite flat_map_app, IH. now destruct e.
Qed.

Lemma discardedTexts_Emitted chunks : discardedTexts (map Emitted chunks) = [].
Proof. induction chunks as [|c chunks IH]; [reflexivity | exact IH]. Qed.

Lemma emittedChunks_Emitted chunks : emittedChunks (map Emitted chunks) = chunks.
Proof. induction chunks as [|c chunks IH]; [reflexivity | simpl; now rewrite IH]. Qed.

Lemma nothing_discarded pieces :
  discardedTexts pieces = [] -> map pieceText pieces = emittedChunks pieces.
Proof.
  induction pieces as [|[chunk|text] pieces IH]; simpl; intros H.
  - reflexivity.
  - now rewrite IH.
  - discriminate.
Qed.

(** Whatever the calls, the text that left the Chunk Splitter followed by
    what it still buffers is what it buffered at first followed by the
    deltas appended. *)
Lemma replay_accounts cfg tr c :
  concat (map pieceText (fst (replay cfg tr c)))
  +:+ Chunker.buffer (snd (replay cfg tr c))
  = Chunker.buffer c +:+ concat (appendedDeltas tr).
Proof.
  revert c; induction tr as [|e tr IH]; intros c.
  - simpl. now rewrite !concat_nil, str_app_empty_r.
  - assert (Hcall :
      concat (map pieceText (fst (replayCall cfg e c)))
      +:+ Chunker.buffer (snd (replayCall cfg e c))
      = Chunker.buffer c +:+ concat (appendedOf e)).
    { destruct e; cbn [replayCall fst snd appendedOf map];
        rewrite ?concat_nil, ?str_app_empty_r; try reflexivity.
      - unfold Chunker.append; cbn [Chunker.buffer].
        now rewrite concat_cons, concat_nil, str_app_empty_r.
      - rewrite map_map. cbn [pieceText]. rewrite map_id. destruct force.
        + destruct (ChunkerFacts.drain_force_concat cfg c) as [H1 H2].
          rewrite H1, H2. apply str_app_empty_r.
        + apply ChunkerFacts.drain_soft_concat.
      - unfold Chunker.hasBuffered, Chunker.reset.
        destruct (truthy (Chunker.buffer c)) eqn:E; cbn [map pieceText Chunker.buffer Chunker.empty].
        + now rewrite concat_cons, concat_nil, !str_app_empty_r.
        + apply truthy_false in E. now rewrite E, concat_nil. }
    cbn [replay]. destruct (replayCall cfg e c) as [ps c1]. specialize (IH c1).
    destruct (replay cfg tr c1) as [more c2]. cbn [fst snd] in *.
    change (appendedDeltas (e :: tr)) with (appendedOf e ++ appendedDeltas tr).
    rewrite map_app, !concat_app, str_app_assoc, IH, <- !str_app_assoc, Hcall.
    reflexivity.
Qed.

(** The chunker of the state follows the recorded calls through everything
    the draft closures do. *)
Section Accounting.
Variable cfg : Chunker.BlockChunking.

Lemma Preserves_ret {A} (I : State -> Prop) (a : A) : Preserves I (ret a).
Proof. now intros s. Qed.

Lemma Preserves_gets {A} (I : State -> Prop) (g : State -> A) : Preserves I (gets g).
Proof. now intros s. Qed.

Lemma Preserves_bind {A B} (I : State -> Prop) (m : M A) (k : A -> M B) :
  Preserves I m -> (forall a, Preserves I (k a)) -> Preserves I (bind m k).
Proof.
  intros Hm Hk s Hs. specialize (Hm s Hs). unfold bind.
  destruct (m s) as [[a|err] s']; simpl in *; [now apply Hk | exact Hm].
Qed.

Lemma Preserves_forEach {A} (I : State -> Prop) (g : A -> M unit) l :
  (forall x, Preserves I (g x)) -> Preserves I (forEach g l).
Proof.
  intros H; induction l as [|x l IH]; simpl.
  - apply Preserves_ret.
  - apply Preserves_bind; auto.
Qed.

Lemma Accounted_quiet {A} (m : M A) :
  Emits chunkerCallOf [] m -> Keeps chunkerState m -> Preserves (Accounted cfg) m.
Proof.
  intros He Hk s Hs. unfold Accounted in *.
  rewrite <- replay_chunkerCalls in *. unfold chunkerCalls in *.
  now rewrite (He s), app_nil_r, (Hk s).
Qed.

Lemma modify_Accounted g :
  (forall s, trace (g s) = trace s /\ chunkerState (g s) = chunkerState s) ->
  Preserves (Accounted cfg) (modify g).
Proof.
  intros H. apply Accounted_quiet.
  - apply Emits_modify. intros s; apply H.
  - apply Keeps_modify. intros s; apply H.
Qed.

Lemma update_Accounted w ds text : Preserves (Accounted cfg) (DraftStream.update w ds text).
Proof.
  apply Accounted_quiet.
  - now apply update_unseen.
  - unfold DraftStream.update. keeps.
Qed.

Lemma flush_Accounted w ds : Preserves (Accounted cfg) (DraftStream.flush w ds).
Proof.
  apply Accounted_quiet.
  - now apply flush_unseen.
  - unfold DraftStream.flush. keeps.
Qed.

Lemma chunkerAppend_Accounted delta : Preserves (Accounted cfg) (chunkerAppend delta).
Proof.
  intros s Hs. unfold Accounted in *. unfold chunkerAppend. run. simpl.
  now rewrite replay_app, Hs.
Qed.

Lemma chunkerReset_Accounted : Preserves (Accounted cfg) chunkerReset.
Proof.
  intros s Hs. unfold Accounted in *. unfold chunkerReset. run. simpl.
  now rewrite replay_app, Hs.
Qed.

Lemma chunkerDrain_Accounted force emitChunk :
  (forall chunk, Preserves (Accounted cfg) (emitChunk chunk)) ->
  Preserves (Accounted cfg) (chunkerDrain cfg force emitChunk).
Proof.
  intros Hemit s Hs. unfold chunkerDrain. run.
  apply Preserves_forEach; [exact Hemit|].
  unfold Accounted in *. simpl. now rewrite replay_app, Hs.
Qed.

Ltac accounted :=
  repeat first
    [ apply Preserves_ret | apply Preserves_gets
    | apply chunkerAppend_Accounted | apply chunkerReset_Accounted
    | apply chunkerDrain_Accounted; intros ?
    | apply update_Accounted | apply flush_Accounted
    | apply modify_Accounted; intros ?; split; reflexivity
    | apply Preserves_bind; [|intros ?]
    | step_case ].

Lemma updateDraftFromPartial_Accounted T ds text :
  ChunkedTurn T ds cfg -> Preserves (Accounted cfg) (updateDraftFromPartial T text).
Proof.
  intros (Hds & Hch & _). unfold updateDraftFromPartial. rewrite Hds, Hch. accounted.
Qed.

Lemma flushDraft_Accounted T ds :
  ChunkedTurn T ds cfg -> Preserves (Accounted cfg) (flushDraft T).
Proof.
  intros (Hds & Hch & _). unfold flushDraft, chunkerHasBuffered.
  rewrite Hds, Hch. accounted.
Qed.

Lemma onPartialTexts_Accounted T ds texts :
  ChunkedTurn T ds cfg -> Preserves (Accounted cfg) (onPartialTexts T texts).
Proof.
  intros HT. apply Preserves_forEach. intros text.
  now apply (updateDraftFromPartial_Accounted T ds).
Qed.
End Accounting.

(** The chunker calls of a partial text that extends the previous one by
    [d]: none when [d] is empty, else [append(d)] and a non-forced drain. *)
Lemma growing_partial_calls T ds cfg d s :
  ChunkedTurn T ds cfg ->
  let s' := snd (updateDraftFromPartial T (Some (lastPartialText s +:+ d)) s) in
  chunkerCalls (trace s') =
    chunkerCalls (trace s)
    ++ (if truthy d then [ChunkerAppend d; ChunkerDrain false] else []) /\
  lastPartialText s' = lastPartialText s +:+ d.
Proof.
  intros HT s'. subst s'. pose proof HT as (Hds & Hch & Hmode).
  destruct (truthy d) eqn:Hd.
  - assert (Hneq : lastPartialText s +:+ d <> lastPartialText s).
    { intros E. apply (f_equal String.length) in E. rewrite str_length_app in E.
      apply truthy_length in Hd. lia. }
    assert (Htext : truthy (lastPartialText s +:+ d) = true) by now apply truthy_app_r.
    apply String.eqb_neq in Hmode.
    unfold updateDraftFromPartial. rewrite Hds, Hch, Hmode, Htext. cbn [negb]. run.
    destruct (String.eqb_spec (lastPartialText s +:+ d) (lastPartialText s)) as [|_];
      [contradiction|].
    rewrite startsWith_app. run. rewrite slice_from_app, Hd. cbn [negb].
    unfold chunkerAppend, chunkerDrain. run. simpl.
    match goal with
    | |- context [forEach ?f ?l ?s0] =>
        assert (Hcalls : Emits chunkerCallOf [] (forEach f l))
          by (apply Emits_forEach_nil; intros chunk;
              apply Emits_bind_nil; [silent | intros _];
              apply Emits_bind_nil; [silent | intros current];
              now apply update_unseen);
        assert (Hlast : Keeps lastPartialText (forEach f l))
          by (apply Keeps_forEach; intros chunk;
              apply Keeps_bind; [keeps | intros _];
              apply Keeps_bind; [keeps | intros current];
              unfold DraftStream.update; keeps);
        specialize (Hcalls s0); specialize (Hlast s0)
    end.
    unfold chunkerCalls. rewrite Hcalls, Hlast, app_nil_r. simpl.
    rewrite !flat_map_app. simpl. rewrite <- List.app_assoc. split; reflexivity.
  - apply truthy_false in Hd. subst d. rewrite str_app_empty_r, app_nil_r.
    unfold updateDraftFromPartial. rewrite Hds.
    destruct (truthy (lastPartialText s)); cbn [negb]; [|now split].
    run. rewrite String.eqb_refl. now split.
Qed.

(** A stream that grows by the given deltas appends them and never resets
    the chunker. *)
Lemma growing_stream_calls T ds cfg deltas :
  ChunkedTurn T ds cfg ->
  forall s,
    let s' := snd (onPartialTexts T (runningTexts (lastPartialText s) deltas) s) in
    discardedTexts (fst (replay cfg (trace s') Chunker.empty)) =
      discardedTexts (fst (replay cfg (trace s) Chunker.empty)) /\
    concat (appendedDeltas (trace s')) =
      concat (appendedDeltas (trace s)) +:+ concat deltas.
Proof.
  intros HT. induction deltas as [|d deltas IH]; intros s.
  - simpl. now rewrite concat_nil, str_app_empty_r.
  - unfold onPartialTexts. cbn [runningTexts forEach].
    destruct (growing_partial_calls T ds cfg d s HT) as [Hcalls Hlast].
    destruct (NoThrow_run _ s
                (updateDraftFromPartial_NoThrow T (Some (lastPartialText s +:+ d))))
      as [[] Hrun].
    rewrite (bind_ok _ _ _ _ _ Hrun).
    set (s1 := snd (updateDraftFromPartial T (Some (lastPartialText s +:+ d)) s)) in *.
    rewrite <- Hlast. destruct (IH s1) as [Hdis Happ].
    fold (onPartialTexts T (runningTexts (lastPartialText s1) deltas)).
    cbv zeta. rewrite Hdis, Happ. clear Hdis Happ IH.
    rewrite <- (replay_chunkerCalls cfg (trace s1)), <- (appendedDeltas_chunkerCalls (trace s1)).
    rewrite Hcalls, replay_app, replay_chunkerCalls. cbn [fst].
    unfold discardedTexts, appendedDeltas. rewrite !flat_map_app.
    fold (appendedDeltas (chunkerCalls (trace s))). rewrite appendedDeltas_chunkerCalls.
    rewrite concat_app, concat_cons, str_app_assoc.
    destruct (truthy d) eqn:Hd.
    + cbn [replay replayCall fst snd flat_map appendedOf app].
      fold (discardedTexts (map Emitted
              (fst (Chunker.drain cfg false
                      (Chunker.append d (snd (replay cfg (trace s) Chunker.empty))))) ++ [])).
      rewrite app_nil_r, discardedTexts_Emitted, app_nil_r.
      now rewrite concat_cons, concat_nil, str_app_empty_r.
    + apply truthy_false in Hd. subst d. simpl. now rewrite app_nil_r, concat_nil.
Qed.

(** The chunker calls of [flushDraft]. *)
Lemma flushDraft_calls T ds cfg s :
  ChunkedTurn T ds cfg ->
  chunkerCalls (trace (snd (flushDraft T s))) =
    chunkerCalls (trace s)
    ++ (if Chunker.hasBuffered (chunkerState s) then [ChunkerDrain true; ChunkerReset] else []).
Proof.
  intros (Hds & Hch & _).
  destruct (flushDraft_summary T ds s Hds) as (s' & Hrun & Hcalls & _).
  rewrite Hrun. cbn [snd].
  rewrite <- (chunkerCalls_dispatcherCalls (trace s')), Hcalls.
  unfold forcedDrainCalls. rewrite Hch.
  unfold chunkerCalls at 1. rewrite !flat_map_app.
  fold (chunkerCalls (dispatcherCalls (trace s))). rewrite chunkerCalls_dispatcherCalls.
  destruct (Chunker.hasBuffered (chunkerState s)); reflexivity.
Qed.

(** The forced drain and the [reset()] after it discard nothing. *)
Lemma flushDraft_discards_nothing T ds cfg s :
  ChunkedTurn T ds cfg ->
  discardedTexts (fst (replay cfg (trace (snd (flushDraft T s))) Chunker.empty)) =
    discardedTexts (fst (replay cfg (trace s) Chunker.empty)) /\
  appendedDeltas (trace (snd (flushDraft T s))) = appendedDeltas (trace s).
Proof.
  intros HT. pose proof (flushDraft_calls T ds cfg s HT) as Hcalls.
  rewrite <- (replay_chunkerCalls cfg (trace (snd (flushDraft T s)))),
          <- (appendedDeltas_chunkerCalls (trace (snd (flushDraft T s)))).
  rewrite Hcalls, replay_app, replay_chunkerCalls. cbn [fst].
  unfold discardedTexts, appendedDeltas. rewrite !flat_map_app.
  fold (appendedDeltas (chunkerCalls (trace s))). rewrite appendedDeltas_chunkerCalls.
  destruct (Chunker.hasBuffered (chunkerState s)).
  - cbn [replay replayCall fst snd flat_map appendedOf app].
    unfold Chunker.drain at 2. cbn [snd Chunker.hasBuffered Chunker.empty Chunker.buffer truthy].
    simpl. rewrite !app_nil_r.
    fold (discardedTexts (map Emitted
            (fst (Chunker.drain cfg true (snd (replay cfg (trace s) Chunker.empty)))))).
    now rewrite discardedTexts_Emitted, app_nil_r.
  - simpl. now rewrite !app_nil_r.
Qed.

(** C1, as the code has it.  Whatever the partial texts of a turn, the text
    that leaves the Chunk Splitter -- in the chunks of the non-forced drains,
    in the remainder of the final forced drain, or in what a [reset()]
    discards -- is, in order, the concatenation of the deltas appended, and
    nothing stays buffered after the forced drain.  When nothing is discarded
    the emitted chunks alone are the concatenation of the deltas: so it is
    for every sequence of deltas appended without a reset, and for a turn
    whose partial texts grow by the deltas, where the draft text after
    [flushDraft] is the text before the deltas followed by all of them. *)
Theorem chunks_and_discards_account_for_the_deltas cfg :
  (forall deltas,
     let fed := Chunker.feed cfg deltas Chunker.empty in
     let forced := Chunker.drain cfg true (snd fed) in
     concat (fst fed ++ fst forced) = concat deltas /\
     snd forced = Chunker.empty) /\
  (forall T ds s deltas,
     ChunkedTurn T ds cfg ->
     rendered s = lastPartialText s ->
     let s1 := snd (onPartialTexts T (runningTexts (lastPartialText s) deltas) s) in
     let s2 := snd (flushDraft T s1) in
     draftText s2 = lastPartialText s +:+ concat deltas /\
     Chunker.buffer (chunkerState s2) = "") /\
  (forall T ds h deltas,
     ChunkedTurn T ds cfg ->
     let s1 := snd (onPartialTexts T (runningTexts "" deltas) (initialState h)) in
     let s2 := snd (flushDraft T s1) in
     let pieces := fst (replay cfg (trace s2) Chunker.empty) in
     discardedTexts pieces = [] /\
     concat (appendedDeltas (trace s2)) = concat deltas /\
     concat (emittedChunks pieces) = concat deltas) /\
  (forall T ds h texts,
     ChunkedTurn T ds cfg ->
     let s1 := snd (onPartialTexts T texts (initialState h)) in
     let s2 := snd (flushDraft T s1) in
     let pieces := fst (replay cfg (trace s2) Chunker.empty) in
     snd (replay cfg (trace s2) Chunker.empty) = chunkerState s2 /\
     chunkerState s2 = Chunker.empty /\
     concat (map pieceText pieces) = concat (appendedDeltas (trace s2)) /\
     (discardedTexts pieces = [] ->
      concat (emittedChunks pieces) = concat (appendedDeltas (trace s2)))).
Proof.
  assert (Hany : forall T ds h texts,
    ChunkedTurn T ds cfg ->
    let s2 := snd (flushDraft T (snd (onPartialTexts T texts (initialState h)))) in
    snd (replay cfg (trace s2) Chunker.empty) = chunkerState s2 /\
    chunkerState s2 = Chunker.empty /\
    concat (map pieceText (fst (replay cfg (trace s2) Chunker.empty)))
    = concat (appendedDeltas (trace s2))).
  { intros T ds h texts HT s2.
    assert (Hacc : Accounted cfg s2).
    { apply (flushDraft_Accounted cfg T ds HT).
      apply (onPartialTexts_Accounted cfg T ds texts HT). reflexivity. }
    assert (Hempty : chunkerState s2 = Chunker.empty).
    { destruct HT as (Hds & Hch & _).
      destruct (flushDraft_summary T ds (snd (onPartialTexts T texts (initialState h))) Hds)
        as (sf & Hf & _ & _ & _ & Hbuf).
      subst s2. rewrite Hf. cbn [snd].
      specialize (Hbuf ltac:(rewrite Hch; eauto)).
      destruct (chunkerState sf) as [buf]. cbn in Hbuf. now subst buf. }
    split; [exact Hacc|]. split; [exact Hempty|].
    pose proof (replay_accounts cfg (trace s2) Chunker.empty) as H.
    unfold Accounted in Hacc. rewrite Hacc, Hempty in H. cbn [Chunker.buffer Chunker.empty] in H.
    now rewrite str_app_empty_r, str_app_nil_l in H. }
  split; [|split; [|split]].
  - intros deltas. cbv zeta.
    destruct (ChunkerFacts.drain_force_concat cfg (snd (Chunker.feed cfg deltas Chunker.empty)))
      as [Hforced Hempty].
    split; [|exact Hempty].
    rewrite concat_app, Hforced.
    now rewrite ChunkerFacts.feed_concat.
  - intros T ds s deltas HT Hinv. now apply (growing_stream_flushed T ds cfg).
  - intros T ds h deltas HT s1 s2 pieces.
    destruct (growing_stream_calls T ds cfg deltas HT (initialState h)) as [Hdis Happ].
    destruct (flushDraft_discards_nothing T ds cfg s1 HT) as [Hdis' Happ'].
    cbn [lastPartialText initialState] in Hdis, Happ. fold s1 in Hdis, Happ.
    fold s2 in Hdis', Happ'.
    assert (Hnone : discardedTexts pieces = []).
    { subst pieces. rewrite Hdis', Hdis. reflexivity. }
    assert (Hdeltas : concat (appendedDeltas (trace s2)) = concat deltas).
    { rewrite Happ', Happ. reflexivity. }
    split; [exact Hnone|]. split; [exact Hdeltas|].
    destruct (Hany T ds h (runningTexts "" deltas) HT) as (_ & _ & Hall).
    fold s1 s2 pieces in Hall.
    now rewrite <- (nothing_discarded pieces Hnone), Hall.
  - intros T ds h texts HT s1 s2 pieces.
    destruct (Hany T ds h texts HT) as (Hacc & Hempty & Hall).
    fold s1 s2 pieces in Hacc, Hempty, Hall.
    repeat split; try assumption.
    intros Hnone. now rewrite <- (nothing_discarded pieces Hnone).
Qed.

(** C1, as the claim states it, fails on a turn whose stream resets: the
    partial text "Hi again" does not extend "Hello wor", so the dispatcher
    calls [reset()] while "wor" is buffered.  The deltas appended are
    "Hello wor" and "Hi again", the chunks emitted are "Hello ", "Hi " and,
    by the forced drain, "again": "wor" is lost. *)
Lemma reset_turn_loses_buffered_text :
  let T := Samples.blockTurn Samples.calm in
  let s1 := snd (onPartialTexts T ["Hello wor"; "Hi again"] (initialState ∅)) in
  let s2 := snd (flushDraft T s1) in
  let pieces := fst (replay Samples.afterBlank (trace s2) Chunker.empty) in
  chunkerCalls (trace s2) =
    [ChunkerAppend "Hello wor"; ChunkerDrain false; ChunkerReset;
     ChunkerAppend "Hi again"; ChunkerDrain false; ChunkerDrain true; ChunkerReset] /\
  appendedDeltas (trace s2) = ["Hello wor"; "Hi again"] /\
  emittedChunks pieces = ["Hello "; "Hi "; "again"] /\
  discardedTexts pieces = ["wor"] /\
  concat (emittedChunks pieces) = "Hello Hi again" /\
  concat (appendedDeltas (trace s2)) = "Hello worHi again" /\
  concat (emittedChunks pieces) <> concat (appendedDeltas (trace s2)).
Proof. vm_compute. repeat split; try reflexivity. discriminate. Qed.

Lemma chunks_account_witness :
  let deltas := ["Hello wor"; "ld, how"; " are you"] in
  let T := Samples.blockTurn Samples.calm in
  let s1 := snd (onPartialTexts T (runningTexts "" deltas) (initialState ∅)) in
  let s2 := snd (flushDraft T s1) in
  let pieces := fst (replay Samples.afterBlank (trace s2) Chunker.empty) in
  ChunkedTurn T Samples.blockStream Samples.afterBlank /\
  discardedTexts pieces = [] /\
  concat (appendedDeltas (trace s2)) = concat deltas /\
  concat (emittedChunks pieces) = concat deltas.
Proof.
  assert (HT : ChunkedTurn (Samples.blockTurn Samples.calm)
                 Samples.blockStream Samples.afterBlank)
    by (repeat split; discriminate).
  split; [exact HT|].
  exact (proj1 (proj2 (proj2 (chunks_and_discards_account_for_the_deltas Samples.afterBlank)))
           (Samples.blockTurn Samples.calm) Samples.blockStream ∅
           ["Hello wor"; "ld, how"; " are you"] HT).
Defined.

(** Without a chunker the draft text is replaced by the new text. *)
Lemma partial_restarts_plain T ds text s :
  draftStream T = Some ds ->
  draftChunker T = None ->
  streamMode (params T) <> "partial" ->
  truthy text = true ->
  startsWith text (lastPartialText s) = false ->
  exists s',
    updateDraftFromPartial T (Some text) s = (Ok tt, s') /\
    lastPartialText s' = text /\
    draftText s' = text /\
    draftUpdates (trace s') = draftUpdates (trace s) ++ [text].
Proof.
  intros Hds Hch Hmode Htext Hpre.
  apply String.eqb_neq in Hmode.
  unfold updateDraftFromPartial. rewrite Hds, Hch, Hmode, Htext. cbn [negb]. run.
  destruct (String.eqb_spec text (lastPartialText s)) as [E|_].
  { rewrite <- E in Hpre. unfold startsWith in Hpre.
    assert (String.prefix text text = true) as Hrefl.
    { clear. induction text as [|c t IH]; simpl; [reflexivity|].
      destruct (ascii_dec c c); [exact IH | congruence]. }
    congruence. }
  rewrite Hpre. run. rewrite Htext. cbn [negb]. run. fields.
  match goal with
  | |- context [DraftStream.update ?w ?d ?t ?s0] =>
      destruct (NoThrow_run _ s0 (update_NoThrow w d t)) as [[] Hu];
      pose proof (update_Keeps_render w d t s0) as Hr;
      pose proof (update_updates w d t s0) as Hup
  end.
  eexists; split; [exact Hu|].
  unfold render in Hr. fields. injection Hr as Hl Hd _.
  unfold draftUpdates. rewrite Hl, Hd, Hup. repeat split; reflexivity.
Qed.

(** Every running text is a prefix of the whole. *)
Lemma runningTexts_prefix acc fragments t :
  In t (runningTexts acc fragments) ->
  exists rest, t +:+ rest = acc +:+ concat fragments.
Proof.
  revert acc; induction fragments as [|c fragments IH]; intros acc Hin; simpl in Hin.
  - contradiction.
  - rewrite concat_cons, <- str_app_assoc. destruct Hin as [<-|Hin].
    + now exists (concat fragments).
    + now apply IH.
Qed.

(** C2, as the code has it.  In incremental mode a partial text that is not
    empty and does not extend the previous partial text resets the chunker
    and the draft text: the state is the one a fresh turn reaches on that
    text, every text handed to the draft is a prefix of the new text, and
    after later deltas and the final flush the draft text is the new text
    followed by these deltas.  An event whose text is empty or absent is
    ignored, in every mode: the handler returns at once and the state,
    buffered text included, stays as it is. *)
Theorem non_extending_partial_restarts_rendering T s :
  (forall ds text,
     draftStream T = Some ds ->
     streamMode (params T) <> "partial" ->
     text <> "" ->
     startsWith text (lastPartialText s) = false ->
     let s' := snd (updateDraftFromPartial T (Some text) s) in
     fst (updateDraftFromPartial T (Some text) s) = Ok tt /\
     lastPartialText s' = text /\
     match draftChunker T with
     | Some cfg =>
         let drained := Chunker.drain cfg false (Chunker.append text Chunker.empty) in
         draftText s' = concat (fst drained) /\
         chunkerState s' = snd drained /\
         rendered s' = text /\
         draftUpdates (trace s') = draftUpdates (trace s) ++ runningTexts "" (fst drained) /\
         (forall t, In t (runningTexts "" (fst drained)) -> startsWith text t = true) /\
         (forall deltas,
            let s1 := snd (onPartialTexts T (runningTexts text deltas) s') in
            draftText (snd (flushDraft T s1)) = text +:+ concat deltas)
     | None =>
         draftText s' = text /\
         draftUpdates (trace s') = draftUpdates (trace s) ++ [text]
     end) /\
  (forall text,
     text = None \/ text = Some "" ->
     updateDraftFromPartial T text s = (Ok tt, s)).
Proof.
  split.
  2:{ intros text [->| ->]; unfold updateDraftFromPartial;
        destruct (draftStream T); reflexivity. }
  intros ds text Hds Hmode Hne Hpre s'.
  assert (Htext : truthy text = true).
  { destruct (truthy text) eqn:E; [reflexivity|]. now apply truthy_false in E. }
  destruct (draftChunker T) as [cfg|] eqn:Hch.
  - assert (HT : ChunkedTurn T ds cfg) by (repeat split; assumption).
    destruct (partial_restarts T ds cfg text s HT Htext Hpre)
      as (s1 & Hrun & Hl & Hd & Hc & Hu).
    subst s'. rewrite Hrun. cbn [fst snd].
    assert (Hrendered : rendered s1 = text).
    { unfold rendered. rewrite Hd, Hc, drained_soft. reflexivity. }
    repeat split; try assumption.
    + intros t Hin. apply runningTexts_prefix in Hin as [rest Hrest].
      rewrite str_app_nil_l, <- Hd in Hrest.
      rewrite <- Hrendered. unfold rendered. rewrite <- Hrest, str_app_assoc.
      apply startsWith_app.
    + intros deltas.
      assert (Hinv : rendered s1 = lastPartialText s1) by congruence.
      destruct (growing_stream_flushed T ds cfg deltas s1 HT Hinv) as [Hfinal _].
      rewrite Hl in Hfinal. exact Hfinal.
  - destruct (partial_restarts_plain T ds text s Hds Hch Hmode Htext Hpre)
      as (s1 & Hrun & Hl & Hd & Hu).
    subst s'. rewrite Hrun. cbn [fst snd]. repeat split; assumption.
Qed.

(** C2, as the claim states it, fails for an event without text: the empty
    text does not extend "Hello wor", yet the dispatcher returns at once and
    keeps the draft text and the chunker's buffer of the old branch. *)
Lemma empty_partial_keeps_buffered_state :
  let T := Samples.blockTurn Samples.calm in
  let s := snd (updateDraftFromPartial T (Some "Hello wor") (initialState ∅)) in
  lastPartialText s = "Hello wor" /\
  draftText s = "Hello " /\
  Chunker.buffer (chunkerState s) = "wor" /\
  startsWith "" (lastPartialText s) = false /\
  updateDraftFromPartial T (Some "") s = (Ok tt, s).
Proof. vm_compute. repeat split; reflexivity. Qed.

Lemma non_extending_partial_witness :
  let T := Samples.blockTurn Samples.calm in
  let s := snd (updateDraftFromPartial T (Some "Hello wor") (initialState ∅)) in
  let s' := snd (updateDraftFromPartial T (Some "Hi again") s) in
  (lastPartialText s' = "Hi again" /\ rendered s' = "Hi again") /\
  updateDraftFromPartial T None s = (Ok tt, s) /\
  updateDraftFromPartial T (Some "") s = (Ok tt, s).
Proof.
  cbv zeta.
  pose proof (non_extending_partial_restarts_rendering
                (Samples.blockTurn Samples.calm)
                (snd (updateDraftFromPartial (Samples.blockTurn Samples.calm)
                        (Some "Hello wor") (initialState ∅)))) as [Hrestart Hignored].
  split; [|split].
  - destruct (Hrestart Samples.blockStream "Hi again" eq_refl)
      as (_ & Hlast & _ & _ & Hrendered & _);
      [discriminate | discriminate | reflexivity |].
    split; [exact Hlast | exact Hrendered].
  - apply Hignored. now left.
  - apply Hignored. now right.
Defined.

Lemma final_delivery_order_witness :
  let T := Samples.blockTurn Samples.calm in
  let s := snd (updateDraftFromPartial T (Some "Hello wor") (initialState ∅)) in
  let s' := snd (deliver T (Samples.reply "Hello world") {| kind := "final" |} s) in
  exists evs,
    trace s' = trace s ++ evs ++ [DeliverReplies "42" [Samples.reply "Hello world"]] /\
    dispatcherCalls evs =
      [ChunkerDrain true; ChunkerReset; DraftUpdate "Hello wor"; DraftFlush; DraftStop] /\
    draftText s' = "Hello wor" /\
    pendingText (draftState s') = None.
Proof.
  exact (final_delivery_follows_drain_update_flush_stop
           (Samples.blockTurn Samples.calm) Samples.blockStream
           (Samples.reply "Hello world")
           (snd (updateDraftFromPartial (Samples.blockTurn Samples.calm)
                   (Some "Hello wor") (initialState ∅)))
           eq_refl).
Defined.

End DispatchSpec.

(** * More of the dispatcher *)

Module DispatchMore.
Import TurnFacts CollaboratorFacts DispatchFacts DispatchSpec.

Lemma keeps_at {X A} (proj : State -> X) (m : M A) s v :
  Keeps proj m -> proj s = v -> proj (snd (m s)) = v.
Proof. intros H <-. apply H. Qed.

Lemma startsWith_refl text : startsWith text text = true.
Proof.
  unfold startsWith. induction text as [|c t IH]; simpl; [reflexivity|].
  destruct (ascii_dec c c); [exact IH | congruence].
Qed.

Lemma truthy_of_nonempty text : text <> "" -> truthy text = true.
Proof.
  intros H. destruct (truthy text) eqn:E; [reflexivity|]. now apply truthy_false in E.
Qed.

(** After a partial text that is not empty, that text is the last one seen,
    whatever the mode. *)
Lemma partial_sets_last T ds text s :
  draftStream T = Some ds ->
  truthy text = true ->
  lastPartialText (snd (updateDraftFromPartial T (Some text) s)) = text.
Proof.
  intros Hds Htext. unfold updateDraftFromPartial. rewrite Hds, Htext. cbn [negb]. run.
  destruct (String.eqb_spec text (lastPartialText s)) as [->|_]; [reflexivity|].
  destruct (String.eqb (streamMode (params T)) "partial").
  { run. apply keeps_at; [keeps | reflexivity]. }
  destruct (draftChunker T) as [cfg|];
    destruct (startsWith text (lastPartialText s));
    unfold chunkerReset; run; (apply keeps_at; [keeps | reflexivity]).
Qed.

(** X1.  Handing the same partial text to [updateDraftFromPartial] a second
    time changes nothing: no state, no call on the draft or the chunker. *)
Theorem same_partial_text_twice_is_once T text s :
  let s1 := snd (updateDraftFromPartial T text s) in
  updateDraftFromPartial T text s1 = (Ok tt, s1).
Proof.
  intros s1.
  destruct (draftStream T) as [ds|] eqn:Hds.
  2:{ subst s1. unfold updateDraftFromPartial. now rewrite Hds. }
  destruct text as [text|].
  2:{ subst s1. unfold updateDraftFromPartial. now rewrite Hds. }
  destruct (truthy text) eqn:Htext.
  2:{ subst s1. unfold updateDraftFromPartial. now rewrite Hds, Htext. }
  pose proof (partial_sets_last T ds text s Hds Htext) as Hlast. fold s1 in Hlast.
  unfold updateDraftFromPartial at 1. rewrite Hds, Htext. cbn [negb]. run.
  now rewrite Hlast, String.eqb_refl.
Qed.

Lemma delta_truthy text last :
  startsWith text last = true -> text <> last ->
  truthy (slice_from (String.length last) text) = true.
Proof.
  intros Hpre Hneq. pose proof (startsWith_split _ _ Hpre) as Hsplit.
  destruct (truthy (slice_from (String.length last) text)) eqn:E; [reflexivity|].
  apply truthy_false in E. rewrite E, str_app_empty_r in Hsplit. congruence.
Qed.

Lemma update_chunkerCalls w ds text : Emits chunkerCallOf [] (DraftStream.update w ds text).
Proof. apply update_unseen; reflexivity. Qed.

(** One call of [draftStream.update] seen from the dispatcher. *)
Lemma update_step w ds text s :
  exists s',
    DraftStream.update w ds text s = (Ok tt, s') /\
    render s' = render s /\
    draftUpdates (trace s') = draftUpdates (trace s) ++ [text] /\
    chunkerCalls (trace s') = chunkerCalls (trace s).
Proof.
  destruct (NoThrow_run _ s (update_NoThrow w ds text)) as [[] Hrun].
  eexists; split; [exact Hrun|]. split; [apply update_Keeps_render|]. split.
  - apply update_updates.
  - unfold chunkerCalls. rewrite (update_chunkerCalls w ds text s). apply app_nil_r.
Qed.

(** "partial" mode: the new text replaces the draft as a whole. *)
Lemma partial_mode_step T ds text s :
  draftStream T = Some ds ->
  streamMode (params T) = "partial" ->
  truthy text = true ->
  text <> lastPartialText s ->
  exists s',
    updateDraftFromPartial T (Some text) s = (Ok tt, s') /\
    render s' = (text, draftText s, chunkerState s) /\
    draftUpdates (trace s') = draftUpdates (trace s) ++ [text] /\
    chunkerCalls (trace s') = chunkerCalls (trace s).
Proof.
  intros Hds Hmode Htext Hneq.
  unfold updateDraftFromPartial. rewrite Hds, Htext, Hmode. cbn [negb]. run.
  destruct (String.eqb_spec text (lastPartialText s)) as [|_]; [contradiction|].
  change (String.eqb "partial" "partial") with true. cbv iota. run.
  destruct (update_step (world T) ds text (set_lastPartialText text s))
    as (s' & Hrun & Hr & Hu & Hc).
  exists s'. repeat split; assumption.
Qed.

(** Incremental mode without a chunker: the draft text is the new text. *)
Lemma partial_plain_step T ds text s :
  draftStream T = Some ds ->
  draftChunker T = None ->
  streamMode (params T) <> "partial" ->
  truthy text = true ->
  text <> lastPartialText s ->
  exists s',
    updateDraftFromPartial T (Some text) s = (Ok tt, s') /\
    render s' = (text, text, chunkerState s) /\
    draftUpdates (trace s') = draftUpdates (trace s) ++ [text] /\
    chunkerCalls (trace s') = chunkerCalls (trace s).
Proof.
  intros Hds Hch Hmode Htext Hneq. apply String.eqb_neq in Hmode.
  unfold updateDraftFromPartial. rewrite Hds, Htext, Hmode, Hch. cbn [negb]. run.
  destruct (String.eqb_spec text (lastPartialText s)) as [|_]; [contradiction|].
  destruct (startsWith text (lastPartialText s)) eqn:Hpre.
  - run. rewrite (delta_truthy _ _ Hpre Hneq). cbn [negb]. run. fields.
    match goal with
    | |- context [DraftStream.update ?w ?d ?t ?s0] =>
        destruct (update_step w d t s0) as (s' & Hrun & Hr & Hu & Hc)
    end.
    exists s'. repeat split; assumption.
  - run. rewrite Htext. cbn [negb]. run. fields.
    match goal with
    | |- context [DraftStream.update ?w ?d ?t ?s0] =>
        destruct (update_step w d t s0) as (s' & Hrun & Hr & Hu & Hc)
    end.
    exists s'. repeat split; assumption.
Qed.

(** X2.  In "partial" mode every partial text that is not empty and differs
    from the previous one is handed to [draftStream.update] as a whole,
    exactly once; the accumulated draft text and the chunker are not used. *)
Theorem partial_mode_renders_whole_text T ds text s :
  draftStream T = Some ds ->
  streamMode (params T) = "partial" ->
  text <> "" ->
  text <> lastPartialText s ->
  let s' := snd (updateDraftFromPartial T (Some text) s) in
  fst (updateDraftFromPartial T (Some text) s) = Ok tt /\
  lastPartialText s' = text /\
  draftText s' = draftText s /\
  chunkerState s' = chunkerState s /\
  draftUpdates (trace s') = draftUpdates (trace s) ++ [text] /\
  chunkerCalls (trace s') = chunkerCalls (trace s).
Proof.
  intros Hds Hmode Hne Hneq s'.
  destruct (partial_mode_step T ds text s Hds Hmode (truthy_of_nonempty _ Hne) Hneq)
    as (s1 & Hrun & Hr & Hu & Hc).
  subst s'. rewrite Hrun. cbn [fst snd]. unfold render in Hr. injection Hr as Hl Hd Hk.
  repeat split; assumption.
Qed.

Lemma partial_mode_witness :
  let T := MoreSamples.partialTurn Samples.stormy in
  let s := snd (updateDraftFromPartial T (Some "Hello") (initialState ∅)) in
  let s' := snd (updateDraftFromPartial T (Some "Hello world") s) in
  draftUpdates (trace s') = draftUpdates (trace s) ++ ["Hello world"] /\
  draftText s' = draftText s.
Proof.
  cbv zeta.
  pose proof (partial_mode_renders_whole_text
                (MoreSamples.partialTurn Samples.stormy) Samples.blockStream "Hello world"
                (snd (updateDraftFromPartial (MoreSamples.partialTurn Samples.stormy)
                        (Some "Hello") (initialState ∅)))
                eq_refl eq_refl) as H.
  destruct H as (_ & _ & Hd & _ & Hu & _); [discriminate | discriminate |].
  split; [exact Hu | exact Hd].
Defined.

(** X3.  Without a chunker (a stream mode that is neither "partial" nor
    "block"), incremental mode renders like "partial" mode: every new
    non-empty partial text becomes the draft text and is handed to
    [draftStream.update] as a whole, whether or not it extends the previous
    one. *)
Theorem without_chunker_whole_text_is_rendered T ds text s :
  draftStream T = Some ds ->
  draftChunker T = None ->
  streamMode (params T) <> "partial" ->
  text <> "" ->
  text <> lastPartialText s ->
  let s' := snd (updateDraftFromPartial T (Some text) s) in
  fst (updateDraftFromPartial T (Some text) s) = Ok tt /\
  lastPartialText s' = text /\
  draftText s' = text /\
  draftUpdates (trace s') = draftUpdates (trace s) ++ [text] /\
  chunkerCalls (trace s') = chunkerCalls (trace s).
Proof.
  intros Hds Hch Hmode Hne Hneq s'.
  destruct (partial_plain_step T ds text s Hds Hch Hmode (truthy_of_nonempty _ Hne) Hneq)
    as (s1 & Hrun & Hr & Hu & Hc).
  subst s'. rewrite Hrun. cbn [fst snd]. unfold render in Hr. injection Hr as Hl Hd Hk.
  repeat split; assumption.
Qed.

Lemma without_chunker_witness :
  let T := MoreSamples.otherTurn Samples.calm in
  let s := snd (updateDraftFromPartial T (Some "Hello wor") (initialState ∅)) in
  let s' := snd (updateDraftFromPartial T (Some "Hi again") s) in
  draftText s' = "Hi again" /\
  draftUpdates (trace s') = draftUpdates (trace s) ++ ["Hi again"].
Proof.
  cbv zeta.
  pose proof (without_chunker_whole_text_is_rendered
                (MoreSamples.otherTurn Samples.calm) Samples.blockStream "Hi again"
                (snd (updateDraftFromPartial (MoreSamples.otherTurn Samples.calm)
                        (Some "Hello wor") (initialState ∅)))
                eq_refl eq_refl) as H.
  destruct H as (_ & _ & Hd & Hu & _); [discriminate | discriminate | discriminate |].
  split; [exact Hd | exact Hu].
Defined.

(** What [updateDraftFromPartial] leaves in [lastPartialText], [draftText]
    and the chunker is decided by these three, the text, the stream mode and
    the chunker's configuration alone. *)
Lemma partial_render_determined T1 T2 text s1 s2 :
  params T1 = params T2 ->
  draftChunker T1 = draftChunker T2 ->
  (draftStream T1 = None <-> draftStream T2 = None) ->
  render s1 = render s2 ->
  render (snd (updateDraftFromPartial T1 text s1))
  = render (snd (updateDraftFromPartial T2 text s2)).
Proof.
  intros Hp Hc Hd Hr.
  assert (Hnoop : forall T s, updateDraftFromPartial T text s = (Ok tt, s) ->
                              render (snd (updateDraftFromPartial T text s)) = render s)
    by (intros T s ->; reflexivity).
  destruct (draftStream T1) as [ds1|] eqn:Hds1.
  2:{ assert (Hds2 : draftStream T2 = None) by now apply Hd.
      rewrite !Hnoop; [exact Hr | | ]; unfold updateDraftFromPartial;
        [now rewrite Hds2 | now rewrite Hds1]. }
  destruct (draftStream T2) as [ds2|] eqn:Hds2.
  2:{ assert (Some ds1 = None) by now apply Hd. discriminate. }
  destruct text as [text|].
  2:{ rewrite !Hnoop; [exact Hr | | ]; unfold updateDraftFromPartial;
        [now rewrite Hds2 | now rewrite Hds1]. }
  destruct (truthy text) eqn:Htext.
  2:{ rewrite !Hnoop; [exact Hr | | ]; unfold updateDraftFromPartial;
        [now rewrite Hds2, Htext | now rewrite Hds1, Htext]. }
  pose proof Hr as Hr'. unfold render in Hr'. injection Hr' as Hl Hdt Hcs.
  destruct (String.eqb_spec text (lastPartialText s1)) as [Heq|Hneq].
  { rewrite !Hnoop; [exact Hr | | ]; unfold updateDraftFromPartial.
    - rewrite Hds2, Htext. cbn [negb]. run. now rewrite <- Hl, <- Heq, String.eqb_refl.
    - rewrite Hds1, Htext. cbn [negb]. run. now rewrite <- Heq, String.eqb_refl. }
  assert (Hneq2 : text <> lastPartialText s2) by congruence.
  destruct (String.eqb_spec (streamMode (params T1)) "partial") as [Hmode|Hmode].
  { destruct (partial_mode_step T1 ds1 text s1 Hds1 Hmode Htext Hneq) as (a & -> & Ha & _).
    rewrite Hp in Hmode.
    destruct (partial_mode_step T2 ds2 text s2 Hds2 Hmode Htext Hneq2) as (b & -> & Hb & _).
    cbn [snd]. rewrite Ha, Hb. congruence. }
  assert (Hmode2 : streamMode (params T2) <> "partial") by (now rewrite <- Hp).
  destruct (draftChunker T1) as [cfg|] eqn:Hch1.
  - assert (HT1 : ChunkedTurn T1 ds1 cfg) by (repeat split; assumption).
    assert (HT2 : ChunkedTurn T2 ds2 cfg) by (repeat split; auto).
    destruct (startsWith text (lastPartialText s1)) eqn:Hpre.
    + destruct (partial_extends T1 ds1 cfg text s1 HT1 Hneq Hpre)
        as (a & -> & Hal & Had & Hac & _).
      rewrite Hl in Hpre.
      destruct (partial_extends T2 ds2 cfg text s2 HT2 Hneq2 Hpre)
        as (b & -> & Hbl & Hbd & Hbc & _).
      cbn [snd]. unfold render. rewrite Hal, Had, Hac, Hbl, Hbd, Hbc. congruence.
    + destruct (partial_restarts T1 ds1 cfg text s1 HT1 Htext Hpre)
        as (a & -> & Hal & Had & Hac & _).
      rewrite Hl in Hpre.
      destruct (partial_restarts T2 ds2 cfg text s2 HT2 Htext Hpre)
        as (b & -> & Hbl & Hbd & Hbc & _).
      cbn [snd]. unfold render. rewrite Hal, Had, Hac, Hbl, Hbd, Hbc. reflexivity.
  - destruct (partial_plain_step T1 ds1 text s1 Hds1 Hch1 Hmode Htext Hneq)
      as (a & -> & Ha & _).
    destruct (partial_plain_step T2 ds2 text s2 Hds2 (eq_sym Hc) Hmode2 Htext Hneq2)
      as (b & -> & Hb & _).
    cbn [snd]. rewrite Ha, Hb. congruence.
Qed.

(** X4.  The text the dispatcher accumulates does not depend on the Draft
    Controller or on the world: two turns with the same parameters and the
    same chunker configuration that agree on [lastPartialText], [draftText]
    and the chunker before a run of partial texts agree on them after it,
    whatever the transport answered, whether edits were throttled and whether
    the draft was already stopped. *)
Theorem accumulated_text_ignores_draft_outcomes T1 T2 texts s1 s2 :
  params T1 = params T2 ->
  draftChunker T1 = draftChunker T2 ->
  (draftStream T1 = None <-> draftStream T2 = None) ->
  render s1 = render s2 ->
  render (snd (onPartialTexts T1 texts s1)) = render (snd (onPartialTexts T2 texts s2)).
Proof.
  intros Hp Hc Hd. revert s1 s2.
  induction texts as [|text texts IH]; intros s1 s2 Hr; [exact Hr|].
  unfold onPartialTexts. cbn [forEach].
  destruct (bind_NoThrow (updateDraftFromPartial T1 (Some text))
              (fun _ => forEach (fun t => updateDraftFromPartial T1 (Some t)) texts) s1
              (updateDraftFromPartial_NoThrow T1 (Some text))) as ([] & _ & ->).
  destruct (bind_NoThrow (updateDraftFromPartial T2 (Some text))
              (fun _ => forEach (fun t => updateDraftFromPartial T2 (Some t)) texts) s2
              (updateDraftFromPartial_NoThrow T2 (Some text))) as ([] & _ & ->).
  apply IH. now apply partial_render_determined.
Qed.

Lemma accumulated_text_witness :
  render (snd (onPartialTexts (Samples.blockTurn Samples.calm)
                 ["Hello wor"; "Hello world, how"; "Hi again"] (initialState ∅)))
  = render (snd (onPartialTexts (Samples.blockTurn Samples.stormy)
                   ["Hello wor"; "Hello world, how"; "Hi again"]
                   (set_draftState
                      {| pendingText := None; lastSentText := None; stopped := true |}
                      (initialState ∅)))).
Proof.
  apply accumulated_text_ignores_draft_outcomes; reflexivity.
Defined.

Lemma onReasoning_step T ds payload s :
  exists s',
    onReasoning T ds payload s = (Ok tt, s') /\
    render s' = render s /\
    draftUpdates (trace s') =
      draftUpdates (trace s)
      ++ (if truthyText (payload_text payload)
          then [default "" (payload_text payload)] else []) /\
    chunkerCalls (trace s') = chunkerCalls (trace s).
Proof.
  unfold onReasoning. destruct (payload_text payload) as [text|]; simpl.
  - destruct (truthy text).
    + apply update_step.
    + exists s. rewrite app_nil_r. repeat split; reflexivity.
  - exists s. rewrite app_nil_r. repeat split; reflexivity.
Qed.


(** The handlers installed when there is a draft stream. *)
Lemma onStreamEvent_installed T ds e :
  draftStream T = Some ds ->
  onStreamEvent (replyOptions T) e =
    match e with
    | Partial payload => updateDraftFromPartial T (payload_text payload)
    | Reasoning payload => onReasoning T ds payload
    end.
Proof.
  intros Hds. unfold onStreamEvent, handle, replyOptions; simpl. rewrite Hds.
  now destruct e.
Qed.

Lemma partial_last T ds text s :
  draftStream T = Some ds ->
  lastPartialText (snd (updateDraftFromPartial T text s))
  = if truthyText text then default "" text else lastPartialText s.
Proof.
  intros Hds. destruct text as [text|]; simpl.
  2:{ unfold updateDraftFromPartial. now rewrite Hds. }
  destruct (truthy text) eqn:Htext.
  - now apply (partial_sets_last T ds).
  - unfold updateDraftFromPartial. now rewrite Hds, Htext.
Qed.

Lemma stream_last T ds evs s :
  draftStream T = Some ds ->
  lastPartialText (snd (forEach (onStreamEvent (replyOptions T)) evs s))
  = lastPartialOf (lastPartialText s) evs.
Proof.
  intros Hds. revert s. induction evs as [|e evs IH]; intros s; [reflexivity|].
  cbn [forEach].
  destruct (bind_NoThrow (onStreamEvent (replyOptions T) e)
              (fun _ => forEach (onStreamEvent (replyOptions T)) evs) s
              (onStreamEvent_NoThrow T e)) as ([] & _ & ->).
  rewrite IH, (onStreamEvent_installed T ds e Hds).
  destruct e as [payload|payload]; cbn [lastPartialOf]; f_equal.
  - now apply (partial_last T ds).
  - destruct (onReasoning_step T ds payload s) as (s1 & -> & Hr & _).
    cbn [snd]. unfold render in Hr. now injection Hr.
Qed.

(** X6.  After any run of partial and reasoning events, [lastPartialText] is
    the last partial text that was not empty; events without text and
    reasoning events never change it. *)
Theorem last_partial_text_after_stream T ds evs s :
  draftStream T = Some ds ->
  let run := forEach (onStreamEvent (replyOptions T)) evs s in
  fst run = Ok tt /\
  lastPartialText (snd run) = lastPartialOf (lastPartialText s) evs.
Proof.
  intros Hds run. split.
  - destruct (NoThrow_forEach (onStreamEvent (replyOptions T)) evs
                (onStreamEvent_NoThrow T) s) as [[] H]. exact H.
  - now apply (stream_last T ds).
Qed.

Lemma last_partial_text_witness :
  lastPartialText
    (snd (forEach (onStreamEvent (replyOptions (Samples.blockTurn Samples.calm)))
            [Partial (Samples.reply "Hello"); Reasoning (Samples.reply "thinking");
             Partial (Samples.reply ""); Partial {| payload_text := None |}]
            (initialState ∅)))
  = "Hello".
Proof.
  apply (proj2 (last_partial_text_after_stream
                  (Samples.blockTurn Samples.calm) Samples.blockStream
                  [Partial (Samples.reply "Hello"); Reasoning (Samples.reply "thinking");
                   Partial (Samples.reply ""); Partial {| payload_text := None |}]
                  (initialState ∅) eq_refl)).
Defined.

(** One partial text keeps the draft in step with the last partial text. *)
Lemma partial_keeps_shown T ds text s :
  Incremental T ds ->
  Shown T s ->
  exists s',
    updateDraftFromPartial T text s = (Ok tt, s') /\ Shown T s'.
Proof.
  intros [Hds Hmode] Hshown. unfold Shown, remainder in *.
  destruct (draftChunker T) as [cfg|] eqn:Hch.
  - assert (HT : ChunkedTurn T ds cfg) by (repeat split; assumption).
    destruct (partial_keeps_rendered T ds cfg text s HT Hshown) as (s' & Hrun & Hr & _).
    exists s'. split; assumption.
  - rewrite str_app_empty_r in Hshown.
    assert (Hnoop : updateDraftFromPartial T text s = (Ok tt, s) ->
                    exists s', updateDraftFromPartial T text s = (Ok tt, s') /\
                               draftText s' +:+ "" = lastPartialText s').
    { intros ->. exists s. now rewrite str_app_empty_r. }
    destruct text as [text|].
    2:{ apply Hnoop. unfold updateDraftFromPartial. now rewrite Hds. }
    destruct (truthy text) eqn:Htext.
    2:{ apply Hnoop. unfold updateDraftFromPartial. now rewrite Hds, Htext. }
    destruct (String.eqb_spec text (lastPartialText s)) as [Heq|Hneq].
    { apply Hnoop. unfold updateDraftFromPartial. rewrite Hds, Htext. cbn [negb]. run.
      now rewrite <- Heq, String.eqb_refl. }
    destruct (partial_plain_step T ds text s Hds Hch Hmode Htext Hneq)
      as (s' & Hrun & Hr & _).
    exists s'. split; [exact Hrun|]. unfold render in Hr. injection Hr as Hl Hd _.
    now rewrite Hl, Hd, str_app_empty_r.
Qed.

Lemma stream_keeps_shown T ds evs :
  Incremental T ds ->
  forall s, Shown T s ->
    exists s', forEach (onStreamEvent (replyOptions T)) evs s = (Ok tt, s') /\ Shown T s'.
Proof.
  intros HT. pose proof HT as [Hds _].
  induction evs as [|e evs IH]; intros s Hshown; [now exists s|].
  cbn [forEach]. rewrite (onStreamEvent_installed T ds e Hds).
  destruct e as [payload|payload].
  - destruct (partial_keeps_shown T ds (payload_text payload) s HT Hshown)
      as (s1 & Hrun & Hs1).
    rewrite (bind_ok _ _ _ _ _ Hrun). now apply IH.
  - destruct (onReasoning_step T ds payload s) as (s1 & Hrun & Hr & _).
    rewrite (bind_ok _ _ _ _ _ Hrun). apply IH.
    unfold Shown, remainder in *. unfold render in Hr. injection Hr as Hl Hd Hc.
    now rewrite Hl, Hd, Hc.
Qed.

(** X7.  In incremental mode, whatever the stream did (growing texts, resets,
    repeated or empty texts, reasoning events in between), the draft text
    after [flushDraft] is the last non-empty partial text of the stream. *)
Theorem flushed_draft_text_is_last_partial_text T ds evs s :
  Incremental T ds ->
  Shown T s ->
  let s1 := snd (forEach (onStreamEvent (replyOptions T)) evs s) in
  draftText (snd (flushDraft T s1)) = lastPartialOf (lastPartialText s) evs.
Proof.
  intros HT Hshown s1. pose proof HT as [Hds _].
  destruct (stream_keeps_shown T ds evs HT s Hshown) as (s' & Hrun & Hs').
  assert (Hlast : lastPartialText s' = lastPartialOf (lastPartialText s) evs).
  { pose proof (stream_last T ds evs s Hds) as H. now rewrite Hrun in H. }
  subst s1. rewrite Hrun. cbn [snd].
  destruct (flushDraft_summary T ds s' Hds) as (sf & -> & _ & _ & Htext & _).
  cbn [snd]. rewrite Htext, <- Hlast. exact Hs'.
Qed.

Lemma flushed_draft_text_witness :
  let T := Samples.blockTurn Samples.stormy in
  let evs := [Partial (Samples.reply "Hello wor"); Reasoning (Samples.reply "hmm");
              Partial (Samples.reply "Hi again"); Partial (Samples.reply "");
              Partial (Samples.reply "Hi again, my friend")] in
  draftText (snd (flushDraft T (snd (forEach (onStreamEvent (replyOptions T)) evs
                                       (initialState ∅)))))
  = "Hi again, my friend".
Proof.
  apply (flushed_draft_text_is_last_partial_text
           (Samples.blockTurn Samples.stormy) Samples.blockStream
           [Partial (Samples.reply "Hello wor"); Reasoning (Samples.reply "hmm");
            Partial (Samples.reply "Hi again"); Partial (Samples.reply "");
            Partial (Samples.reply "Hi again, my friend")]
           (initialState ∅)).
  - split; [reflexivity | discriminate].
  - reflexivity.
Defined.

(** The function body after the dispatch is [finishTurn]. *)
Lemma runTurn_finishTurn T stream :
  runTurn T stream =
    (result <- dispatchReplyWithBufferedBlockDispatcher
                 stream (dispatcherOptions T) (replyOptions T) ;;
     finishTurn T result).
Proof. reflexivity. Qed.

Lemma stopDraft_run T s :
  stopDraft T s =
    (Ok tt,
     match draftStream T with
     | Some _ =>
         set_draftState
           {| pendingText := None;
              lastSentText := lastSentText (draftState s);
              stopped := true |}
           (set_trace (trace s ++ [DraftStop]) s)
     | None => s
     end).
Proof. unfold stopDraft. now destruct (draftStream T). Qed.

(** X8.  Once the dispatch has returned, the turn stops the draft (if any),
    then asks for the removal of the acknowledgement reaction exactly when a
    final reply was queued, with the value "ack" exactly when a reaction
    promise is present, then asks for the history clean-up of a group
    context; on a turn without reply the reaction is never touched. *)
Theorem reaction_removed_only_after_queued_final T result s :
  let ctx := context (params T) in
  let s' := snd (finishTurn T result s) in
  (forall stream,
     runTurn T stream =
       (outcome <- dispatchReplyWithBufferedBlockDispatcher
                     stream (dispatcherOptions T) (replyOptions T) ;;
        finishTurn T outcome)) /\
  fst (finishTurn T result s) = Ok tt /\
  dispatcherCalls (trace s') =
    dispatcherCalls (trace s)
    ++ (match draftStream T with Some _ => [DraftStop] | None => [] end)
    ++ (if queuedFinal result
        then [RemoveAckReactionAfterReply
                (removeAckAfterReply ctx)
                (if ackReactionPromise ctx then Some "ack" else None)]
        else [])
    ++ (if isGroup ctx && truthyText (historyKey ctx)
        then [ClearHistoryEntriesIfEnabled (default "" (historyKey ctx)) (historyLimit ctx)]
        else []) /\
  ackRemovals (trace s') =
    ackRemovals (trace s)
    ++ (if queuedFinal result
        then [(removeAckAfterReply ctx, if ackReactionPromise ctx then Some "ack" else None)]
        else []) /\
  transportCalls (trace s') = transportCalls (trace s) /\
  deliveries (trace s') = deliveries (trace s).
Proof.
  intros ctx s'. split; [intros stream; apply runTurn_finishTurn|].
  subst s'. unfold finishTurn.
  rewrite (bind_ok _ _ _ _ _ (stopDraft_run T s)).
  unfold removeAckReaction. fold ctx.
  destruct (queuedFinal result); cbn [negb]; run; rewrite clearGroupHistory_run; fold ctx;
    destruct (isGroup ctx && truthyText (historyKey ctx));
    destruct (draftStream T); cbn [fst snd]; fields;
    unfold dispatcherCalls, ackRemovals, transportCalls, deliveries;
    rewrite ?flat_map_app; cbn [flat_map dispatcherCallOf isDispatcherCall ackRemovalOf
                                  transportCallOf deliveryOf app];
    rewrite ?app_nil_r, <- ?List.app_assoc; repeat split; reflexivity.
Qed.

(** X9.  [deliver] calls [deliverReplies] exactly once with the single
    payload and returns what it answers, throwing when it throws; for a kind
    other than "final" it does nothing else, so block and tool payloads
    neither flush nor stop the draft. *)
Theorem deliver_returns_what_deliverReplies_answers T payload info s :
  let run := deliver T payload info s in
  (exists before,
     fst run = deliverReplies (world T) before [payload] /\
     trace (snd run) =
       before ++ [DeliverReplies (pretty (chatId (context (params T)))) [payload]] /\
     deliveries before = deliveries (trace s)) /\
  (kind info <> "final" ->
   run = (deliverReplies (world T) (trace s) [payload],
          set_trace
            (trace s ++ [DeliverReplies (pretty (chatId (context (params T)))) [payload]])
            s)).
Proof.
  intros run. split.
  - destruct (deliver_run T payload info s) as (s1 & Hpre & Hrun).
    exists (trace s1). subst run. rewrite Hrun. cbn [fst snd]. fields.
    repeat split.
    assert (Hsilent : Emits deliveryOf []
              (if String.eqb (kind info) "final"
               then flushDraft T;; stopDraft T else ret tt)).
    { destruct (String.eqb (kind info) "final"); [|apply Emits_ret].
      apply Emits_bind_nil;
        [apply flushDraft_unseen | intros _; apply stopDraft_unseen]; reflexivity. }
    specialize (Hsilent s). rewrite Hpre in Hsilent. cbn [snd] in Hsilent.
    unfold deliveries. now rewrite Hsilent, app_nil_r.
  - intros Hkind. apply String.eqb_neq in Hkind. subst run.
    unfold deliver. rewrite Hkind. run. unfold extern.
    now destruct (deliverReplies (world T) (trace s) [payload]) as [[]|].
Qed.

Lemma deliver_returns_witness :
  deliver (Samples.blockTurn Samples.stormy) (Samples.reply "first") {| kind := "block" |}
    (initialState ∅)
  = (Thrown "network",
     set_trace [DeliverReplies "42" [Samples.reply "first"]] (initialState ∅)).
Proof.
  apply (proj2 (deliver_returns_what_deliverReplies_answers
                  (Samples.blockTurn Samples.stormy) (Samples.reply "first")
                  {| kind := "block" |} (initialState ∅))).
  discriminate.
Defined.

(** The state in which a final delivery leaves the turn. *)
Lemma deliver_final_state T ds payload s :
  draftStream T = Some ds ->
  let s1 := snd (deliver T payload {| kind := "final" |} s) in
  pendingText (draftState s1) = None /\
  stopped (draftState s1) = true /\
  (is_Some (draftChunker T) -> Chunker.hasBuffered (chunkerState s1) = false).
Proof.
  intros Hds s1.
  destruct (deliver_final_stops T ds payload s Hds) as [Hp Hs]. fold s1 in Hp, Hs.
  repeat split; try assumption.
  intros Hsome.
  destruct (deliver_run T payload {| kind := "final" |} s) as (s0 & Hpre & Hrun).
  simpl in Hpre.
  destruct (flushDraft_summary T ds s Hds) as (sf & Hf & _ & _ & _ & Hbuf).
  rewrite (bind_ok _ _ _ _ _ Hf), stopDraft_run, Hds in Hpre. injection Hpre as <-.
  subst s1. rewrite Hrun. cbn [snd]. fields.
  unfold Chunker.hasBuffered. now rewrite (Hbuf Hsome).
Qed.

(** X10.  After a final delivery a further final delivery (the next payload
    of the same terminal event) leaves the draft alone: its calls are exactly
    [flush()], [stop()] and [deliverReplies], with no forced drain, no
    [update] and no transport call, and the draft text stays as it is. *)
Theorem later_final_payloads_leave_the_draft_alone T ds first next s :
  draftStream T = Some ds ->
  let s1 := snd (deliver T first {| kind := "final" |} s) in
  let s2 := snd (deliver T next {| kind := "final" |} s1) in
  trace s2 =
    trace s1 ++ [DraftFlush; DraftStop;
                 DeliverReplies (pretty (chatId (context (params T)))) [next]] /\
  draftText s2 = draftText s1 /\
  draftState s2 = draftState s1 /\
  chunkerState s2 = chunkerState s1.
Proof.
  intros Hds s1 s2.
  destruct (deliver_final_state T ds first s Hds) as (Hp & Hs & Hbuf). fold s1 in Hp, Hs, Hbuf.
  assert (Hflush : flushDraft T s1 = (Ok tt, set_trace (trace s1 ++ [DraftFlush]) s1)).
  { unfold flushDraft. rewrite Hds.
    destruct (draftChunker T) as [cfg|] eqn:Hch.
    - unfold chunkerHasBuffered. run. rewrite Hbuf by eauto. run.
      unfold DraftStream.flush. run. fields. now rewrite Hs.
    - run. unfold DraftStream.flush. run. fields. now rewrite Hs. }
  destruct (deliver_run T next {| kind := "final" |} s1) as (s0 & Hpre & Hrun).
  simpl in Hpre.
  rewrite (bind_ok _ _ _ _ _ Hflush), stopDraft_run, Hds in Hpre. injection Hpre as <-.
  subst s2. rewrite Hrun. cbn [snd]. fields.
  destruct (draftState s1) as [pending sent halted]; simpl in Hp, Hs; subst.
  rewrite <- !List.app_assoc. repeat split; reflexivity.
Qed.

Lemma later_final_payloads_witness :
  let T := Samples.blockTurn Samples.calm in
  let s := snd (updateDraftFromPartial T (Some "Hello wor") (initialState ∅)) in
  let s1 := snd (deliver T (Samples.reply "first") {| kind := "final" |} s) in
  let s2 := snd (deliver T (Samples.reply "second") {| kind := "final" |} s1) in
  trace s2 = trace s1 ++ [DraftFlush; DraftStop; DeliverReplies "42" [Samples.reply "second"]] /\
  draftText s2 = draftText s1.
Proof.
  cbv zeta.
  pose proof (later_final_payloads_leave_the_draft_alone
                (Samples.blockTurn Samples.calm) Samples.blockStream
                (Samples.reply "first") (Samples.reply "second")
                (snd (updateDraftFromPartial (Samples.blockTurn Samples.calm)
                        (Some "Hello wor") (initialState ∅)))
                eq_refl) as (Htrace & Htext & _).
  split; [exact Htrace | exact Htext].
Defined.

Lemma canStreamDraft_run w p s :
  canStreamDraft w p s =
    (if draftEligible p
     then match resolveBotTopicsEnabled w with
          | Ok b => Ok b
          | Thrown err => Thrown err
          end
     else Ok false, s).
Proof.
  unfold canStreamDraft, draftEligible.
  destruct (negb (String.eqb (streamMode p) "off") &&
            String.eqb (chat_type (msg (context p))) "private" &&
            match resolvedThreadId (context p) with Some _ => true | None => false end);
    [|reflexivity].
  now destruct (resolveBotTopicsEnabled w).
Qed.

(** X11.  A chunker is created exactly when a draft stream exists and the
    stream mode is "block"; its configuration is the one resolved for the
    account, and a turn with a chunker never renders in "partial" mode. *)
Theorem chunker_only_for_block_mode_drafts w p s T s' :
  setupTurn w p s = (Ok T, s') ->
  (is_Some (draftChunker T) <-> is_Some (draftStream T) /\ streamMode p = "block") /\
  (forall cfg, draftChunker T = Some cfg ->
     cfg = resolveTelegramDraftStreamingChunking w /\
     exists ds, ChunkedTurn T ds cfg).
Proof.
  intros Hsetup.
  destruct (setupTurn_inv _ _ _ _ _ Hsetup) as (can & _ & _ & _ & Hp & Hstream & Hch).
  rewrite Hstream, Hch. destruct can; simpl.
  - destruct (String.eqb_spec (streamMode p) "block") as [Hb|Hb]; split.
    + split; eauto.
    + intros cfg [= <-]. split; [reflexivity|]. eexists. repeat split.
      * rewrite Hstream. reflexivity.
      * rewrite Hch. simpl. destruct (String.eqb_spec (streamMode p) "block");
          [reflexivity | contradiction].
      * rewrite Hp, Hb. discriminate.
    + split; [intros [? ?]; discriminate | intros [_ ?]; contradiction].
    + intros cfg; discriminate.
  - split.
    + split; [intros [? ?]; discriminate | intros [[? ?] _]; discriminate].
    + intros cfg; discriminate.
Qed.

Lemma chunker_only_for_block_witness :
  is_Some (draftChunker (Samples.blockTurn Samples.calm)) <->
  is_Some (draftStream (Samples.blockTurn Samples.calm)) /\
  streamMode Samples.blockParams = "block".
Proof.
  apply (proj1 (chunker_only_for_block_mode_drafts
                  Samples.calm Samples.blockParams (initialState ∅)
                  (Samples.blockTurn Samples.calm) (initialState ∅) eq_refl)).
Defined.

(** X12.  The draft stream of a turn is created for the chat of the message
    and always with a numeric thread id; its draft id is the message id when
    there is one other than 0 and the current time otherwise, so it is not 0
    unless the clock is; both of its sinks are the verbose log. *)
Theorem draft_stream_identity w p s T s' ds :
  setupTurn w p s = (Ok T, s') ->
  draftStream T = Some ds ->
  let ctx := context p in
  ds_chatId ds = chatId ctx /\
  (exists n, resolvedThreadId ctx = Some n /\ ds_messageThreadId ds = Some n) /\
  ds_draftId ds =
    match message_id (msg ctx) with
    | Some n => if n =? 0 then date_now w else n
    | None => date_now w
    end /\
  (date_now w <> 0 -> ds_draftId ds <> 0) /\
  ds_log ds = VerboseSink /\ ds_warn ds = VerboseSink.
Proof.
  intros Hsetup Hds ctx.
  destruct (setupTurn_inv _ _ _ _ _ Hsetup) as (can & Hcan & _ & _ & _ & Hstream & _).
  rewrite Hstream in Hds. destruct can; [|discriminate]. injection Hds as <-. cbn.
  rewrite canStreamDraft_run in Hcan. unfold draftEligible in Hcan.
  assert (Hthread : exists n, resolvedThreadId ctx = Some n).
  { subst ctx. destruct (resolvedThreadId (context p)) as [n|]; [eauto|].
    rewrite andb_false_r in Hcan. discriminate. }
  destruct Hthread as [n Hn]. fold ctx. rewrite Hn.
  assert (Hid : (if truthyNumber (message_id (msg ctx))
                 then default 0 (message_id (msg ctx)) else date_now w)
                = match message_id (msg ctx) with
                  | Some n => if n =? 0 then date_now w else n
                  | None => date_now w
                  end).
  { unfold truthyNumber. destruct (message_id (msg ctx)) as [m|]; [|reflexivity].
    simpl. now destruct (m =? 0). }
  repeat split; eauto.
  intros Hnow. rewrite Hid. destruct (message_id (msg ctx)) as [m|]; [|exact Hnow].
  destruct (Z.eqb_spec m 0); assumption.
Qed.

Lemma draft_stream_identity_witness :
  ds_chatId Samples.blockStream = 42 /\
  (exists n, resolvedThreadId Samples.privateChat = Some n /\
             ds_messageThreadId Samples.blockStream = Some n) /\
  ds_draftId Samples.blockStream = 7.
Proof.
  pose proof (draft_stream_identity
                Samples.calm Samples.blockParams (initialState ∅)
                (Samples.blockTurn Samples.calm) (initialState ∅) Samples.blockStream
                eq_refl eq_refl) as (Hchat & Hthread & Hid & _).
  split; [exact Hchat | split; [exact Hthread | exact Hid]].
Defined.

(** X13.  Block streaming is left enabled for a turn exactly when the
    Telegram configuration sets [blockStreaming] to true and no draft stream
    was created; with a draft stream it is disabled whatever the
    configuration says, and with neither it is left undefined. *)
Theorem block_streaming_enabled_only_without_draft w p s T s' :
  setupTurn w p s = (Ok T, s') ->
  let setting := disableBlockStreaming (replyOptions T) in
  (setting = Some false <-> draftStream T = None /\ blockStreaming p = Some true) /\
  (is_Some (draftStream T) -> setting = Some true) /\
  (draftStream T = None ->
   setting = match blockStreaming p with Some b => Some (negb b) | None => None end).
Proof.
  intros Hsetup setting.
  destruct (setupTurn_inv _ _ _ _ _ Hsetup) as (_ & _ & _ & _ & Hp & _).
  subst setting. unfold replyOptions, disableBlockStreamingOf; simpl. rewrite Hp.
  destruct (draftStream T) as [ds|]; destruct (blockStreaming p) as [[|]|]; simpl;
    repeat split; try congruence; try (intros [? ?]; congruence);
    try (intros [? ?]; discriminate); eauto.
Qed.

Lemma block_streaming_witness :
  disableBlockStreaming (replyOptions (Samples.blockTurn Samples.calm)) = Some true.
Proof.
  apply (block_streaming_enabled_only_without_draft
           Samples.calm Samples.blockParams (initialState ∅)
           (Samples.blockTurn Samples.calm) (initialState ∅) eq_refl).
  now exists Samples.blockStream.
Defined.

Lemma dispatch_cases w p stream s :
  (exists err,
     draftEligible p = true /\ resolveBotTopicsEnabled w = Thrown err /\
     dispatchTelegramMessage w p stream s = (Thrown err, s)) \/
  (exists T,
     setupTurn w p s = (Ok T, s) /\
     dispatchTelegramMessage w p stream s = runTurn T stream s /\
     (draftEligible p = true -> exists b, resolveBotTopicsEnabled w = Ok b) /\
     (draftEligible p = false -> draftStream T = None /\ draftChunker T = None)).
Proof.
  unfold dispatchTelegramMessage, setupTurn, bind. rewrite canStreamDraft_run.
  destruct (draftEligible p).
  - destruct (resolveBotTopicsEnabled w) as [b|err].
    + right. eexists. repeat split; try discriminate. eauto.
    + left. exists err. repeat split.
  - right. eexists. repeat split; discriminate.
Qed.

(** X14.  The topics lookup is awaited only when the stream mode is not
    "off", the chat is private and the thread id is a number.  When it throws
    then, [dispatchTelegramMessage] ends with that exception before anything
    else has been called.  When one of the three conditions fails, the lookup
    is not consulted: whatever it would answer, the turn is set up without a
    draft stream and without a chunker, and runs. *)
Theorem topics_lookup_failure_ends_the_call_at_once w p stream s :
  (forall err,
     draftEligible p = true -> resolveBotTopicsEnabled w = Thrown err ->
     dispatchTelegramMessage w p stream s = (Thrown err, s)) /\
  (draftEligible p = false ->
   exists T, setupTurn w p s = (Ok T, s) /\
             draftStream T = None /\ draftChunker T = None /\
             dispatchTelegramMessage w p stream s = runTurn T stream s).
Proof.
  destruct (dispatch_cases w p stream s)
    as [(err0 & He & Ht & Hrun) | (T & Hsetup & Hrun & Hok & Hnone)].
  - split.
    + intros err _ Ht'. rewrite Hrun. congruence.
    + congruence.
  - split.
    + intros err He Ht. destruct (Hok He) as [b Hb]. congruence.
    + intros He. destruct (Hnone He) as [Hd Hc]. exists T. repeat split; assumption.
Qed.

Lemma topics_lookup_failure_witness :
  dispatchTelegramMessage MoreSamples.broken Samples.blockParams
    {| events := Samples.partials ["Hello"]; terminal := Final [Samples.reply "Hello"] |}
    (initialState ∅)
  = (Thrown "getChat failed", initialState ∅) /\
  exists T,
    setupTurn MoreSamples.broken Samples.groupParams (initialState ∅)
    = (Ok T, initialState ∅) /\
    draftStream T = None /\ draftChunker T = None.
Proof.
  split.
  - apply (proj1 (topics_lookup_failure_ends_the_call_at_once
                    MoreSamples.broken Samples.blockParams
                    {| events := Samples.partials ["Hello"];
                       terminal := Final [Samples.reply "Hello"] |}
                    (initialState ∅)));
      reflexivity.
  - destruct (proj2 (topics_lookup_failure_ends_the_call_at_once
                       MoreSamples.broken Samples.groupParams
                       {| events := Samples.partials ["Hello"];
                          terminal := Final [Samples.reply "Hello"] |}
                       (initialState ∅)) eq_refl) as (T & Hsetup & Hd & Hc & _).
    exists T. repeat split; assumption.
Defined.

End DispatchMore.

(** * Model resolution *)

Module ModelResolveFacts.
Import ModelResolve.

Lemma preferInline_ind {R} (P : R -> Prop) cond inlineMatch (found : Model -> R) rest :
  (forall entry, inlineMatch = Some entry -> P (found entry)) ->
  P rest ->
  P (preferInline cond inlineMatch found rest).
Proof.
  intros Hfound Hrest. unfold preferInline.
  destruct cond; [|exact Hrest]. destruct inlineMatch; auto.
Qed.

Lemma preferInline_skip {R} cond inlineMatch (found : Model -> R) rest :
  (cond = true -> inlineMatch = None) ->
  preferInline cond inlineMatch found rest = rest.
Proof.
  intros H. unfold preferInline. destruct cond; [|reflexivity]. now rewrite H.
Qed.

(** X15.  The inline models of a configuration are exactly the models
    listed under the providers whose key is not blank, each with the trimmed
    key as its provider, the provider's base URL and, unless it names one
    itself, the provider's API; blank keys, missing entries and providers
    without models contribute nothing. *)
Theorem inline_models_come_from_named_providers E providers m :
  In m (buildInlineProviderModels E providers) <->
  exists key entry def,
    In (key, entry) providers /\
    trim E key <> "" /\
    In def (default [] (entry ≫= p_models)) /\
    m = inlineEntry (trim E key) entry def.
Proof.
  unfold buildInlineProviderModels. rewrite in_flat_map. split.
  - intros [[key entry] [Hin Hm]].
    destruct (truthy (trim E key)) eqn:Ht; simpl in Hm; [|contradiction].
    apply in_map_iff in Hm as [def [<- Hdef]].
    exists key, entry, def. repeat split; try assumption.
    intros Hempty. rewrite Hempty in Ht. discriminate.
  - intros (key & entry & def & Hin & Hne & Hdef & ->).
    exists (key, entry). split; [exact Hin|].
    destruct (truthy (trim E key)) eqn:Ht; simpl.
    + apply in_map. exact Hdef.
    + apply JsStringFacts.truthy_false in Ht. contradiction.
Qed.

Lemma inline_models_witness :
  In (inlineEntry "Proxy"
        (Some {| p_baseUrl := Some "http://127.0.0.1:8317/v1";
                 p_api := Some "openai-completions";
                 p_models := Some [ModelSamples.definition "gpt-local" None;
                                   ModelSamples.definition "claude-sonnet"
                                     (Some "anthropic-messages")] |})
        (ModelSamples.definition "gpt-local" None))
     (buildInlineProviderModels ModelSamples.env ModelSamples.providers).
Proof.
  apply (proj2 (inline_models_come_from_named_providers
                  ModelSamples.env ModelSamples.providers _)).
  eexists " Proxy ", _, _. repeat split.
  - right; right; left. reflexivity.
  - discriminate.
  - left. reflexivity.
Defined.

Lemma findInline_some E inlineModels target modelId entry :
  findInline E inlineModels target modelId = Some entry ->
  In entry inlineModels /\
  normalizeProviderId E (m_provider entry) = target /\
  m_id entry = modelId.
Proof.
  unfold findInline. intros H. apply find_some in H as [Hin Hb].
  apply andb_prop in Hb as [H1 H2].
  apply String.eqb_eq in H1, H2. auto.
Qed.

Lemma one_of_model_error {E} (r : Resolved E) :
  (exists m, model r = Some m /\ error r = None) \/
  (exists e, model r = None /\ error r = Some e) ->
  (is_Some (model r) <-> error r = None) /\ (is_Some (error r) <-> model r = None).
Proof.
  intros [(m & -> & ->) | (e & -> & ->)]; repeat split; eauto; try discriminate;
    intros [? ?]; discriminate.
Qed.

(** X16.  [resolveModel] answers with a model or with an error, never with
    both and never with neither; the auth storage and the registry it returns
    are the ones discovered for the agent directory it was given, or for the
    default directory. *)
Theorem resolves_to_a_model_or_an_error E provider modelId agentDir cfgProviders :
  let r := resolveModel E provider modelId agentDir cfgProviders in
  let dir := default (resolveOpenClawAgentDir E) agentDir in
  ((is_Some (model r) <-> error r = None) /\ (is_Some (error r) <-> model r = None)) /\
  authStorage r = discoverAuthStorage E dir /\
  modelRegistry r = discoverModels E (discoverAuthStorage E dir) dir.
Proof.
  cbv zeta. unfold resolveModel.
  do 6 (apply preferInline_ind;
        [intros entry _; split; [apply one_of_model_error; left; eauto | split; reflexivity]|]).
  destruct (registryFind E _ provider modelId) as [m|].
  { split; [apply one_of_model_error; left; eauto | split; reflexivity]. }
  apply preferInline_ind;
    [intros entry _; split; [apply one_of_model_error; left; eauto | split; reflexivity]|].
  destruct (resolveForwardCompatModel E provider modelId _) as [f|].
  { split; [apply one_of_model_error; left; eauto | split; reflexivity]. }
  destruct (bool_decide _ || startsWith modelId "mock-");
    (split; [apply one_of_model_error; eauto | split; reflexivity]).
Qed.

Lemma preferInline_cases {R} (P : R -> Prop) cond inlineMatch (found : Model -> R) rest :
  (forall entry, cond = true -> inlineMatch = Some entry -> P (found entry)) ->
  ((cond = true -> inlineMatch = None) -> P rest) ->
  P (preferInline cond inlineMatch found rest).
Proof.
  intros Hfound Hrest. unfold preferInline.
  destruct cond; [|apply Hrest; discriminate].
  destruct inlineMatch; [now apply Hfound | now apply Hrest].
Qed.

Lemma startsWith_prefix a b : startsWith (a +:+ b) a = true.
Proof. apply JsStringFacts.startsWith_app. Qed.

Lemma unknown_error_prefix E provider modelId :
  startsWith (buildUnknownModelError E provider modelId)
             ("Unknown model: " +:+ provider +:+ "/" +:+ modelId) = true.
Proof.
  unfold buildUnknownModelError.
  destruct (LOCAL_PROVIDER_HINTS E (toLowerCase E provider)) as [hint|].
  - rewrite <- !JsStringFacts.str_app_assoc.
    rewrite (JsStringFacts.str_app_assoc _ ". " hint).
    rewrite !JsStringFacts.str_app_assoc. rewrite <- !JsStringFacts.str_app_assoc.
    rewrite (JsStringFacts.str_app_assoc _ ". " hint).
    apply startsWith_prefix.
  - rewrite <- (JsStringFacts.str_app_empty_r
                  ("Unknown model: " +:+ provider +:+ "/" +:+ modelId)) at 1.
    apply startsWith_prefix.
Qed.

(** X17.  [resolveModel] reports an error only when the registry does not
    know the model, no inline model of the configuration matches the provider
    and the id, there is no forward-compatible model, [providers[provider]]
    is not set and the id does not start with "mock-"; the error is then the
    text of [buildUnknownModelError], which begins with "Unknown model: "
    followed by provider and id.  For a provider other than "openai-codex"
    and "anthropic" these conditions are also sufficient. *)
Theorem unknown_model_error_only_when_nothing_matches
    E provider modelId agentDir cfgProviders :
  let r := resolveModel E provider modelId agentDir cfgProviders in
  let dir := default (resolveOpenClawAgentDir E) agentDir in
  let registry := discoverModels E (discoverAuthStorage E dir) dir in
  let providers := default [] cfgProviders in
  let target := normalizeProviderId E provider in
  let nothing :=
    registryFind E registry provider modelId = None /\
    findInline E (buildInlineProviderModels E providers) target modelId = None /\
    resolveForwardCompatModel E provider modelId registry = None /\
    getProvider E providers provider = None /\
    startsWith modelId "mock-" = false in
  (forall e, error r = Some e ->
     nothing /\
     e = buildUnknownModelError E provider modelId /\
     startsWith e ("Unknown model: " +:+ provider +:+ "/" +:+ modelId) = true) /\
  (target <> "openai-codex" -> target <> "anthropic" -> nothing ->
   model r = None /\ error r = Some (buildUnknownModelError E provider modelId)).
Proof.
  cbv zeta. split.
  - intros e. unfold resolveModel.
    do 6 (apply preferInline_cases; [intros entry _ _; discriminate | intros _]).
    destruct (registryFind E _ provider modelId) as [m|]; [discriminate|].
    apply preferInline_cases; [intros entry _ _; discriminate | intros Hinline].
    destruct (resolveForwardCompatModel E provider modelId _) as [f|]; [discriminate|].
    destruct (getProvider E (default [] cfgProviders) provider) as [cfg|] eqn:Hcfg.
    { rewrite bool_decide_eq_true_2 by eauto. discriminate. }
    rewrite bool_decide_eq_false_2 by (intros [? ?]; discriminate).
    destruct (startsWith modelId "mock-"); [discriminate|].
    simpl. intros [= <-]. repeat split; auto using unknown_error_prefix.
  - intros Hcodex Hclaude (Hreg & Hinline & Hfc & Hcfg & Hmock).
    apply String.eqb_neq in Hcodex, Hclaude.
    unfold resolveModel. rewrite Hreg, Hinline, Hfc, Hcfg, Hmock, Hcodex, Hclaude.
    rewrite !preferInline_skip; try (intros; reflexivity); try discriminate.
    rewrite bool_decide_eq_false_2 by (intros [? ?]; discriminate). now split.
Qed.

Lemma unknown_model_error_witness :
  let r := resolveModel ModelSamples.env "ollama" "llama3" None (Some ModelSamples.providers) in
  model r = None /\
  error r = Some (buildUnknownModelError ModelSamples.env "ollama" "llama3").
Proof.
  apply (proj2 (unknown_model_error_only_when_nothing_matches
                  ModelSamples.env "ollama" "llama3" None (Some ModelSamples.providers))).
  - discriminate.
  - discriminate.
  - repeat split; reflexivity.
Defined.

(** X18.  A model of the configuration wins over the registry: when a key
    of the configuration normalises to the requested provider and an inline
    model matches provider and id, the answer is an inline model with the
    requested id, passed through [normalizeModelCompat], whatever the
    registry and the forward-compatibility rules know; for a provider other
    than "openai-codex" and "anthropic" it is the first such match. *)
Theorem configured_model_wins_over_registry
    E provider modelId agentDir cfgProviders entry :
  let providers := default [] cfgProviders in
  let target := normalizeProviderId E provider in
  let r := resolveModel E provider modelId agentDir cfgProviders in
  is_Some (findConfigKey E providers target) ->
  findInline E (buildInlineProviderModels E providers) target modelId = Some entry ->
  (exists chosen,
     In chosen (buildInlineProviderModels E providers) /\
     m_id chosen = modelId /\
     model r = Some (normalizeModelCompat E chosen) /\
     error r = None) /\
  (target <> "openai-codex" -> target <> "anthropic" ->
   model r = Some (normalizeModelCompat E entry)).
Proof.
  cbv zeta. intros Hkey Hentry.
  assert (Hthird : forall (rest : Resolved E) found,
    preferInline
      (bool_decide (is_Some (findConfigKey E (default [] cfgProviders)
                               (normalizeProviderId E provider)))
       && (0 <? length (buildInlineProviderModels E (default [] cfgProviders)))%nat)
      (findInline E (buildInlineProviderModels E (default [] cfgProviders))
         (normalizeProviderId E provider) modelId) found rest
    = found entry).
  { intros rest found. unfold preferInline.
    rewrite bool_decide_eq_true_2 by assumption. rewrite Hentry.
    destruct (findInline_some _ _ _ _ _ Hentry) as [Hin _].
    destruct (buildInlineProviderModels E (default [] cfgProviders));
      [contradiction | reflexivity]. }
  split.
  - unfold resolveModel.
    apply preferInline_cases.
    { intros chosen _ Hc. destruct (findInline_some _ _ _ _ _ Hc) as (Hin & _ & Hid).
      exists chosen. repeat split; assumption. }
    intros _. apply preferInline_cases.
    { intros chosen _ Hc. destruct (findInline_some _ _ _ _ _ Hc) as (Hin & _ & Hid).
      exists chosen. repeat split; assumption. }
    intros _. rewrite Hthird.
    destruct (findInline_some _ _ _ _ _ Hentry) as (Hin & _ & Hid).
    exists entry. repeat split; assumption.
  - intros Hcodex Hclaude. apply String.eqb_neq in Hcodex, Hclaude.
    unfold resolveModel. rewrite Hcodex, Hclaude.
    rewrite !(preferInline_skip (false && _)) by discriminate.
    now rewrite Hthird.
Qed.

Lemma configured_model_witness :
  model (resolveModel ModelSamples.env "proxy" "claude-sonnet" None
           (Some ModelSamples.providers))
  = Some (inlineEntry "Proxy"
            (Some {| p_baseUrl := Some "http://127.0.0.1:8317/v1";
                     p_api := Some "openai-completions";
                     p_models := Some [ModelSamples.definition "gpt-local" None;
                                       ModelSamples.definition "claude-sonnet"
                                         (Some "anthropic-messages")] |})
            (ModelSamples.definition "claude-sonnet" (Some "anthropic-messages"))).
Proof.
  apply (proj2 (configured_model_wins_over_registry
                  ModelSamples.env "proxy" "claude-sonnet" None
                  (Some ModelSamples.providers) _
                  (ex_intro _ " Proxy " eq_refl) eq_refl));
    discriminate.
Defined.

(** X19.  Without configured providers the registry decides: a registered
    model is returned through [normalizeModelCompat]; otherwise a
    forward-compatible model is returned as it is; otherwise a model id that
    starts with "mock-" still resolves, to a generic text model of the
    "openai-responses" API with the default context size. *)
Theorem without_configuration_the_registry_decides
    E provider modelId agentDir cfgProviders :
  default [] cfgProviders = [] ->
  let r := resolveModel E provider modelId agentDir cfgProviders in
  let dir := default (resolveOpenClawAgentDir E) agentDir in
  let registry := discoverModels E (discoverAuthStorage E dir) dir in
  (forall m, registryFind E registry provider modelId = Some m ->
     model r = Some (normalizeModelCompat E m) /\ error r = None) /\
  (forall f, registryFind E registry provider modelId = None ->
     resolveForwardCompatModel E provider modelId registry = Some f ->
     model r = Some f /\ error r = None) /\
  (registryFind E registry provider modelId = None ->
   resolveForwardCompatModel E provider modelId registry = None ->
   startsWith modelId "mock-" = true ->
   model r =
     Some (normalizeModelCompat E
             {| m_id := modelId; m_name := modelId;
                m_api := Some "openai-responses";
                m_provider := provider; m_baseUrl := None;
                m_reasoning := false; m_input := ["text"];
                m_cost := {| cost_input := 0; cost_output := 0;
                             cost_cacheRead := 0; cost_cacheWrite := 0 |};
                m_contextWindow := Some (DEFAULT_CONTEXT_TOKENS E);
                m_maxTokens := Some (DEFAULT_CONTEXT_TOKENS E) |}) /\
   error r = None).
Proof.
  intros Hempty. cbv zeta. unfold resolveModel. rewrite Hempty.
  change (buildInlineProviderModels E []) with (@nil Model).
  assert (Hskip : forall cond target (found : Model -> Resolved E) rest,
            preferInline cond (findInline E [] target modelId) found rest = rest).
  { intros. apply preferInline_skip. reflexivity. }
  rewrite !Hskip. split; [|split].
  - intros m ->. now split.
  - intros f -> ->. now split.
  - intros -> -> Hmock. rewrite Hmock, orb_true_r.
    unfold fallbackModel, getProvider. simpl.
    destruct (protoMember E provider); now split.
Qed.

Lemma without_configuration_witness :
  model (resolveModel ModelSamples.env "anthropic" "claude-sonnet" None None)
  = Some (ModelSamples.registered "anthropic" "claude-sonnet" "anthropic-messages").
Proof.
  apply (proj1 (without_configuration_the_registry_decides
                  ModelSamples.env "anthropic" "claude-sonnet" None None eq_refl)
           (ModelSamples.registered "anthropic" "claude-sonnet" "anthropic-messages")
           eq_refl).
Defined.

End ModelResolveFacts.
